(** * LexicalSearch: the search pipeline and the export tokenizer, embedded in Rocq

    The development follows the TypeScript sources:
    - [App.tsx]: [splitTextIntoParagraphs], [processFoundParagraph], [handleSearch];
    - [exportUtils.ts]: [parseMarkdown], [createDocxTextRuns], [exportToDocx],
      [exportToPdf] with its local closures [flushLine], [addToLine],
      [addFormattedText], [addWrappedText];
    - [SearchResults.tsx], [DebugPanel.tsx]: the two [highlightSearchTerm];
    - [SearchForm.tsx]: [handleSubmit];
    - [FileUpload.tsx]: [processFiles], [removeFile];
    - [DataFolderSelector.tsx]: [loadSelectedFilesContent], [handleFileToggle],
      [handleSelectAll].

    Strings.  A JavaScript string is a sequence of UTF-16 code units.  The model
    covers the code units below 256 (the Latin-1 range): a string is a
    [list ascii].  On that range [toLowerCase] is a per-unit map, the white space
    of [trim] and of the regular-expression class [\s] is
    [{9,10,11,12,13,32,160}], and the line terminators excluded by [.] are
    [{10,13}].

    Numbers.  Lengths, indices and counters are [nat]; page coordinates and
    glyph widths, floating point in the source, are exact rationals [Q]. *)

From Stdlib Require Import Ascii String DecimalString DecimalNat.
From Stdlib Require Import QArith Lqa.
From Stdlib Require Import Arith Bool Lia PeanoNat List.
Import ListNotations.

Close Scope Q_scope.
Open Scope nat_scope.
Open Scope list_scope.

Set Implicit Arguments.

(* ================================================================== *)
(** * Part I: the embedding                                            *)
(* ================================================================== *)

(** ** JavaScript strings *)

Module Js.

Definition str := list ascii.

(** A string literal of the source. *)
Definition lit (s : string) : str := list_ascii_of_string s.

Definition LF : ascii := ascii_of_nat 10.
Definition CR : ascii := ascii_of_nat 13.
Definition SP : ascii := ascii_of_nat 32.

Definition code (c : ascii) : nat := nat_of_ascii c.

(** White space and line terminators of ECMAScript ([trim], [\s]),
    restricted to code units below 256. *)
Definition isWhiteSpace (c : ascii) : bool :=
  let n := code c in
  ((9 <=? n) && (n <=? 13)) || (n =? 32) || (n =? 160).

(** The characters the regular-expression atom [.] refuses. *)
Definition isLineTerminator (c : ascii) : bool :=
  let n := code c in (n =? 10) || (n =? 13).

(** [String.prototype.toLowerCase] on one code unit: A-Z, and the Latin-1
    capitals 192..222 except the multiplication sign 215. *)
Definition lowerChar (c : ascii) : ascii :=
  let n := code c in
  if ((65 <=? n) && (n <=? 90))
     || ((192 <=? n) && (n <=? 222) && negb (n =? 215))
  then ascii_of_nat (n + 32)
  else c.

Definition toLowerCase (s : str) : str := map lowerChar s.

Fixpoint dropWhile (f : ascii -> bool) (s : str) : str :=
  match s with
  | [] => []
  | c :: s' => if f c then dropWhile f s' else s
  end.

Fixpoint takeWhile (f : ascii -> bool) (s : str) : str :=
  match s with
  | [] => []
  | c :: s' => if f c then c :: takeWhile f s' else []
  end.

Definition trimStart (s : str) : str := dropWhile isWhiteSpace s.
Definition trimEnd (s : str) : str := rev (dropWhile isWhiteSpace (rev s)).

(** [String.prototype.trim]. *)
Definition trim (s : str) : str := trimEnd (trimStart s).

(** Truthiness of a string: non-empty. *)
Definition truthy (s : str) : bool :=
  match s with [] => false | _ :: _ => true end.

(** [s.startsWith(p)]; also the test "[p] matches at the cursor". *)
Fixpoint startsWith (s p : str) : bool :=
  match p, s with
  | [], _ => true
  | _ :: _, [] => false
  | a :: p', b :: s' => Ascii.eqb a b && startsWith s' p'
  end.

(** [s.indexOf(p)]: [None] stands for [-1]. *)
Fixpoint indexOf (s p : str) : option nat :=
  if startsWith s p then Some 0
  else match s with
       | [] => None
       | _ :: s' => option_map S (indexOf s' p)
       end.

(** [s.includes(p)]. *)
Definition includes (s p : str) : bool :=
  match indexOf s p with Some _ => true | None => false end.

(** [s.slice(a, b)] and [s.slice(a)] for indices [0 <= a], [0 <= b]. *)
Definition slice (s : str) (a b : nat) : str := firstn (b - a) (skipn a s).
Definition sliceFrom (s : str) (a : nat) : str := skipn a s.

(** [s.substring(0, n)]. *)
Definition substring0 (s : str) (n : nat) : str := firstn n s.

(** [s[i]]: [None] stands for [undefined]. *)
Definition charAt (s : str) (i : nat) : option ascii := nth_error s i.

Definition isChar (o : option ascii) (c : ascii) : bool :=
  match o with Some d => Ascii.eqb d c | None => false end.

(** [s.split(sep)] for a string separator.  The scan goes left to right;
    [skip] counts the code units of a separator just recognised that are still
    to be passed, [cur] holds the current piece, reversed. *)
Fixpoint split_go (sep s : str) (skip : nat) (cur : str) : list str :=
  match s with
  | [] => [rev cur]
  | c :: s' =>
      match skip with
      | S k => split_go sep s' k cur
      | O =>
          if startsWith s sep
          then rev cur :: split_go sep s' (length sep - 1) []
          else split_go sep s' 0 (c :: cur)
      end
  end.

Definition split (s sep : str) : list str :=
  match sep with
  | [] => map (fun c => [c]) s
  | _ :: _ => split_go sep s 0 []
  end.

(** [parts.join(sep)]. *)
Fixpoint join (parts : list str) (sep : str) : str :=
  match parts with
  | [] => []
  | [p] => p
  | p :: ps => p ++ sep ++ join ps sep
  end.

(** [s.replace(/pat/g, rep)] for a pattern [pat] that is a non-empty sequence
    of literal characters. *)
Fixpoint replaceAll_go (pat rep s : str) (skip : nat) : str :=
  match s with
  | [] => []
  | c :: s' =>
      match skip with
      | S k => replaceAll_go pat rep s' k
      | O =>
          if startsWith s pat
          then rep ++ replaceAll_go pat rep s' (length pat - 1)
          else c :: replaceAll_go pat rep s' 0
      end
  end.

Definition replaceAll (s pat rep : str) : str := replaceAll_go pat rep s 0.

(** The matches of [s.match(/pat/g)] for a literal pattern: successive
    occurrences, each search resuming where the previous match ended (one
    further for an empty match). An empty list stands for [null]. *)
Fixpoint matchAll_go (pat s : str) (skip : nat) : list str :=
  match s with
  | [] =>
      match pat, skip with
      | [], O => [[]]
      | _, _ => []
      end
  | _ :: s' =>
      match skip with
      | S k => matchAll_go pat s' k
      | O =>
          if startsWith s pat
          then pat :: matchAll_go pat s' (length pat - 1)
          else matchAll_go pat s' 0
      end
  end.

Definition matchAll (s pat : str) : list str := matchAll_go pat s 0.

(** [s.split(/\n{2,}/)]: the separator is a maximal run of two or more line
    feeds (the quantifier is greedy). *)
Fixpoint splitNewlineRuns_go (s : str) (skip : nat) (cur : str) : list str :=
  match s with
  | [] => [rev cur]
  | c :: s' =>
      match skip with
      | S k => splitNewlineRuns_go s' k cur
      | O =>
          let run := length (takeWhile (Ascii.eqb LF) s) in
          if 2 <=? run
          then rev cur :: splitNewlineRuns_go s' (run - 1) []
          else splitNewlineRuns_go s' 0 (c :: cur)
      end
  end.

Definition splitNewlineRuns (s : str) : list str := splitNewlineRuns_go s 0 [].

(** [Math.round(a / b)] for natural [a] and positive [b]. *)
Definition roundDiv (a b : nat) : nat := (2 * a + b) / (2 * b).

(** Decimal rendering of a number inside a template literal. *)
Definition showNat (n : nat) : str :=
  lit (DecimalString.NilZero.string_of_uint (Nat.to_uint n)).

(** [a === b] on strings. *)
Fixpoint strEq (a b : str) : bool :=
  match a, b with
  | [], [] => true
  | x :: a', y :: b' => Ascii.eqb x y && strEq a' b'
  | _, _ => false
  end.

End Js.

Import Js.

(** ** Segmentation Selector: [splitTextIntoParagraphs] (App.tsx) *)

Module Segmentation.

(** The [splitter] of a method: a string, or the regular expression
    [/\n{2,}/]. *)
Inductive Splitter : Type :=
| SepString (sep : str)
| SepNewlineRuns.

Record Method : Type := mkMethod {
  name : str;
  splitter : Splitter;
  result : list str
}.

Record MethodInfo : Type := mkMethodInfo {
  info_name : str;
  paragraphCount : nat;
  avgLength : nat;
  sample : list str
}.

Record SplitInfo : Type := mkSplitInfo {
  originalLength : nat;
  normalizedLength : nat;
  hasCarriageReturns : bool;
  hasWindowsLineEndings : bool;
  doubleNewlineCount : nat;
  singleNewlineCount : nat;
  splitMethods : list MethodInfo;
  chosenMethod : str
}.

Record SplitResult : Type := mkSplitResult {
  paragraphs : list str;
  splitInfo : SplitInfo
}.

(** [text.replace(/\r\n/g, '\n').replace(/\r/g, '\n')] *)
Definition normalizeLineEndings (text : str) : str :=
  replaceAll (replaceAll text [CR; LF] [LF]) [CR] [LF].

(** [.filter(p => p.trim())] *)
Definition nonBlank (p : str) : bool := truthy (trim p).

Definition applySplitter (normalizedText : str) (sp : Splitter) : list str :=
  match sp with
  | SepString sep => split normalizedText sep
  | SepNewlineRuns => splitNewlineRuns normalizedText
  end.

Definition method (nm : string) (sp : Splitter) (normalizedText : str) : Method :=
  {| name := lit nm;
     splitter := sp;
     result := filter nonBlank (applySplitter normalizedText sp) |}.

(** The array [methods]; the names are the source's string values. *)
Definition methods (normalizedText : str) : list Method :=
  [ method "Double newline (\n\n)" (SepString [LF; LF]) normalizedText;
    method "Single newline (\n)" (SepString [LF]) normalizedText;
    method "Triple newline (\n\n\n)" (SepString [LF; LF; LF]) normalizedText;
    method "Regex: 2+ newlines" SepNewlineRuns normalizedText ].

Definition noMethod : Method :=
  {| name := []; splitter := SepString []; result := [] |}.

(** [methods[i]] *)
Definition methodAt (ms : list Method) (i : nat) : Method := nth i ms noMethod.

Definition describe (m : Method) : MethodInfo :=
  let n := length (result m) in
  {| info_name := name m;
     paragraphCount := n;
     avgLength :=
       if 0 <? n
       then roundDiv (fold_left (fun sum p => sum + length p) (result m) 0) n
       else 0;
     sample :=
       map (fun p => substring0 p 100 ++ (if 100 <? length p then lit "..." else []))
           (firstn 3 (result m)) |}.

(** The three assignments to [chosenMethod], in the order of the source. *)
Definition chooseMethod (ms : list Method) : Method :=
  let chosenMethod := methodAt ms 0 in
  let chosenMethod :=
    if (length (result (methodAt ms 0)) <? 3)
       && (length (result (methodAt ms 0)) <? length (result (methodAt ms 1)))
    then methodAt ms 1
    else chosenMethod in
  let chosenMethod :=
    if (50 <? length (result chosenMethod))
       && existsb (fun p => length p <? 20) (result chosenMethod)
    then methodAt ms 0
    else chosenMethod in
  chosenMethod.

Definition splitTextIntoParagraphs (text : str) : SplitResult :=
  let normalizedText := normalizeLineEndings text in
  let ms := methods normalizedText in
  let chosenMethod := chooseMethod ms in
  {| paragraphs := result chosenMethod;
     splitInfo :=
       {| originalLength := length text;
          normalizedLength := length normalizedText;
          hasCarriageReturns := includes text [CR];
          hasWindowsLineEndings := includes text [CR; LF];
          doubleNewlineCount := length (matchAll normalizedText [LF; LF]);
          singleNewlineCount := length (matchAll normalizedText [LF]);
          splitMethods := map describe ms;
          chosenMethod := name chosenMethod |} |}.

(** The two candidates the selector chooses between, as the specification
    names them. *)
Definition doubleCandidate (text : str) : list str :=
  filter nonBlank (split (normalizeLineEndings text) [LF; LF]).

Definition singleCandidate (text : str) : list str :=
  filter nonBlank (split (normalizeLineEndings text) [LF]).

Definition tripleCandidate (text : str) : list str :=
  filter nonBlank (split (normalizeLineEndings text) [LF; LF; LF]).

Definition runsCandidate (text : str) : list str :=
  filter nonBlank (splitNewlineRuns (normalizeLineEndings text)).

(** "more than 50 paragraphs and at least one of them has fewer than 20
    characters" *)
Definition manyTiny (ps : list str) : Prop :=
  50 < length ps /\ exists p, In p ps /\ length p < 20.

(** The same, as the test of the third assignment. *)
Definition manyTinyb (ps : list str) : bool :=
  (50 <? length ps) && existsb (fun p => length p <? 20) ps.

(** A text of 2000 characters: 100 lines of 19 characters each, no blank
    line. *)
Definition hundredLines : str :=
  concat (repeat (lit "nineteen characters" ++ [LF]) 100).

End Segmentation.

(** ** Section Restructurer: [processFoundParagraph] (App.tsx) *)

Module Restructure.

Definition PIPE : str := lit "|".

Record DebugData : Type := mkDebugData {
  fileName : str;
  paragraphIndex : nat;
  originalParagraph : str;
  searchTerm : str;
  containsPipe : bool;
  splitCount : nat;
  sentences : list str;
  selectedSentences : list str;
  finalParagraph : str
}.

Record Processed : Type := mkProcessed {
  processed : str;
  debug : DebugData
}.

(** [searchTerm.trim().toLowerCase()] *)
Definition normalizeTerm (term : str) : str := toLowerCase (trim term).

(** State of the loop over [sentences]: [finalParagraphParts] and
    [debugData.selectedSentences], both grown by [push]. *)
Definition LoopState : Type := (list str * list str)%type.

(** One iteration of [for (let i = 1; i < sentences.length; i++)]. *)
Definition loopBody (sents : list str) (processedSearchTerm : str)
    (st : LoopState) (i : nat) : LoopState :=
  let '(finalParagraphParts, selected) := st in
  let sentence := nth i sents [] in
  let containsTerm := includes (toLowerCase sentence) processedSearchTerm in
  if containsTerm
  then (finalParagraphParts ++ [sentence], selected ++ [lit "[MATCH] " ++ sentence])
  else (finalParagraphParts, selected ++ [lit "[SKIP] " ++ sentence]).

Definition processFoundParagraph (paragraph term fname : str) (index : nat)
    : Processed :=
  let processedSearchTerm := normalizeTerm term in
  let debugData (sents selected : list str) (final : str) :=
    {| fileName := fname;
       paragraphIndex := index;
       originalParagraph := paragraph;
       searchTerm := processedSearchTerm;
       containsPipe := includes paragraph PIPE;
       splitCount := length (split paragraph PIPE);
       sentences := sents;
       selectedSentences := selected;
       finalParagraph := final |} in
  if includes paragraph PIPE && (3 <=? length (split paragraph PIPE))
  then
    let sents := map trim (split paragraph PIPE) in
    let base := nth 0 sents [] in
    let '(finalParagraphParts, selected) :=
      fold_left (loopBody sents processedSearchTerm)
                (seq 1 (length sents - 1))
                ([base], [lit "[BASE] " ++ base]) in
    let result := join finalParagraphParts (lit " ") in
    {| processed := result; debug := debugData sents selected result |}
  else
    {| processed := paragraph; debug := debugData [] [] paragraph |}.

(** The contract of the specification: [restructure(paragraph, term)]. *)
Definition restructure (paragraph term : str) : str :=
  processed (processFoundParagraph paragraph term [] 0).

(** Number of pipe characters of a paragraph. *)
Definition pipeCount (paragraph : str) : nat :=
  length (filter (Ascii.eqb "|"%char) paragraph).

(** The sections of a paragraph: its pieces between pipes, trimmed. *)
Definition sections (paragraph : str) : list str :=
  map trim (split paragraph PIPE).

(** "its lower-cased form contains the normalized term" *)
Definition containsTerm (normalizedTerm section : str) : bool :=
  includes (toLowerCase section) normalizedTerm.

End Restructure.

(** ** Term Matcher and search loop: [handleSearch] (App.tsx) *)

Module Search.

Import Segmentation Restructure.

(** *** The regular expression built from the term *)

(** The character class [[.*+?^${}()|[\]\\]] of the escaping [replace]. *)
Definition inEscapeClass (c : ascii) : bool :=
  existsb (Ascii.eqb c) (lit ".*+?^${}()|[]\").

(** [processedTerm.replace(/[.*+?^${}()|[\]\\]/g, '\\$&')]: every character of
    the class is replaced by a backslash followed by itself. *)
Definition escapeRegExp (term : str) : str :=
  flat_map (fun c => if inEscapeClass c then ["\"%char; c] else [c]) term.

(** ECMAScript's SyntaxCharacter: [^ $ \ . * + ? ( ) [ ] { } |]. *)
Definition isSyntaxCharacter (c : ascii) : bool :=
  existsb (Ascii.eqb c) (lit "^$\.*+?()[]{}|").

(** [new RegExp(source, 'g')] on the fragment of pattern sources made of
    pattern characters (any character that is not a SyntaxCharacter) and
    identity escapes of syntax characters: such a pattern matches one fixed
    text, which is returned.  [None]: the source leaves that fragment. *)
Fixpoint newRegExp (source : str) : option str :=
  match source with
  | [] => Some []
  | c :: rest =>
      if Ascii.eqb c "\"%char
      then match rest with
           | d :: rest' =>
               if isSyntaxCharacter d
               then option_map (cons d) (newRegExp rest')
               else None
           | [] => None
           end
      else if isSyntaxCharacter c then None
      else option_map (cons c) (newRegExp rest)
  end.

(** [s.match(re)] for a global [re]: [None] stands for [null]. *)
Definition matchGlobal (s pattern : str) : option (list str) :=
  match matchAll s pattern with
  | [] => None
  | ms => Some ms
  end.

(** The two lines computing [paragraphOccurrences]. *)
Definition paragraphOccurrences (paragraph processedTerm : str) : option nat :=
  match newRegExp (escapeRegExp processedTerm) with
  | None => None
  | Some re =>
      let matches := matchGlobal (toLowerCase paragraph) re in
      Some (match matches with Some ms => length ms | None => 0 end)
  end.

(** *** Data *)

Record FileData : Type := mkFileData {
  file_id : str;
  file_name : str;
  file_content : str;
  file_size : nat;
  file_type : str
}.

Record SearchResult : Type := mkSearchResult {
  res_fileName : str;
  foundParagraphs : list str;
  totalParagraphs : nat;
  occurrenceCount : nat
}.

(** The [debugDetails] of an entry: the data of [processFoundParagraph] and
    the optional [splitInfo]. *)
Record DebugDetails : Type := mkDebugDetails {
  details : DebugData;
  details_splitInfo : option SplitInfo
}.

Record DebugInfo : Type := mkDebugInfo {
  dbg_fileName : str;
  dbg_paragraphIndex : nat;
  dbg_originalParagraph : str;
  dbg_processedParagraph : str;
  debugDetails : DebugDetails
}.

(** What a call leaves in the component state: nothing when the input
    validation returns at once, else the new [searchResults] and [debugInfo]. *)
Inductive Outcome : Type :=
| Ignored
| Completed (results : list SearchResult) (allDebugInfo : list DebugInfo).

Section WithStringify.

(** [JSON.stringify(splitInfo, null, 2)], a library function. *)
Variable stringify : SplitInfo -> str.

(** The file-level entry pushed on [allDebugInfo]. *)
Definition fileDebugInfo (file : FileData) (processedTerm : str)
    (allParagraphs : list str) (info : SplitInfo) : DebugInfo :=
  let total := showNat (length allParagraphs) in
  {| dbg_fileName := file_name file;
     dbg_paragraphIndex := 0;
     dbg_originalParagraph := lit "FILE SPLIT INFO: " ++ stringify info;
     dbg_processedParagraph := lit "Total paragraphs found: " ++ total;
     debugDetails :=
       {| details :=
            {| fileName := file_name file;
               paragraphIndex := 0;
               originalParagraph :=
                 substring0 (file_content file) 500
                 ++ (if 500 <? length (file_content file) then lit "..." else []);
               searchTerm := processedTerm;
               containsPipe := false;
               splitCount := 0;
               sentences := [];
               selectedSentences :=
                 [lit "Split method: " ++ chosenMethod info;
                  lit "Paragraphs found: " ++ total];
               finalParagraph := lit "File processing complete" |};
          details_splitInfo := Some info |} |}.

(** [foundParagraphs], [allDebugInfo] and [occurrenceCount] while the
    paragraphs of one file are scanned. *)
Definition FileState : Type := (list str * list DebugInfo * nat)%type.

(** One iteration of [for (let i = 0; i < allParagraphs.length; i++)]. *)
Definition paragraphStep (file : FileData) (term processedTerm : str)
    (allParagraphs : list str) (st : option FileState) (i : nat)
    : option FileState :=
  match st with
  | None => None
  | Some (found, allDebugInfo, count) =>
      let paragraph := nth i allParagraphs [] in
      let containsSearchTerm := includes (toLowerCase paragraph) processedTerm in
      if containsSearchTerm
      then
        let r := processFoundParagraph paragraph term (file_name file) (i + 1) in
        match paragraphOccurrences paragraph processedTerm with
        | None => None
        | Some n =>
            Some (found ++ [processed r],
                  allDebugInfo
                  ++ [{| dbg_fileName := file_name file;
                         dbg_paragraphIndex := i + 1;
                         dbg_originalParagraph := paragraph;
                         dbg_processedParagraph := processed r;
                         debugDetails :=
                           {| details := debug r;
                              details_splitInfo := None |} |}],
                  count + n)
        end
      else st
  end.

Definition SearchState : Type := (list SearchResult * list DebugInfo)%type.

(** [files.find(f => f.id === fileId)] *)
Definition findFile (files : list FileData) (fileId : str) : option FileData :=
  find (fun f => strEq (file_id f) fileId) files.

(** One iteration of [for (const fileId of selectedFileIds)]. *)
Definition fileStep (files : list FileData) (term processedTerm : str)
    (st : option SearchState) (fileId : str) : option SearchState :=
  match st with
  | None => None
  | Some (results, allDebugInfo) =>
      match findFile files fileId with
      | None => st
      | Some file =>
          let split := splitTextIntoParagraphs (file_content file) in
          let allParagraphs := paragraphs split in
          let allDebugInfo :=
            allDebugInfo
            ++ [fileDebugInfo file processedTerm allParagraphs (splitInfo split)] in
          match fold_left (paragraphStep file term processedTerm allParagraphs)
                          (seq 0 (length allParagraphs))
                          (Some ([], allDebugInfo, 0)) with
          | None => None
          | Some (found, allDebugInfo, count) =>
              Some (results
                    ++ [{| res_fileName := file_name file;
                           foundParagraphs := found;
                           totalParagraphs := length allParagraphs;
                           occurrenceCount := count |}],
                    allDebugInfo)
          end
      end
  end.

(** [handleSearch(term, selectedFileIds)] over the component's [files].
    [None] is returned only if [newRegExp] leaves its fragment. *)
Definition handleSearch (files : list FileData) (term : str)
    (selectedFileIds : list str) : option Outcome :=
  if negb (truthy (trim term)) || (length selectedFileIds =? 0)
  then Some Ignored
  else
    let processedTerm := toLowerCase (trim term) in
    match fold_left (fileStep files term processedTerm) selectedFileIds
                    (Some ([], [])) with
    | None => None
    | Some (results, allDebugInfo) => Some (Completed results allDebugInfo)
    end.

End WithStringify.

(** *** The Term Matcher in the words of the specification *)

(** [matches(paragraph, normalized_term)] *)
Definition matches (paragraph normalizedTerm : str) : bool :=
  includes (toLowerCase paragraph) normalizedTerm.

(** Non-overlapping left-to-right scanning: find the next occurrence, count
    it, resume right after it.  [fuel] bounds the number of occurrences. *)
Fixpoint scanCount (fuel : nat) (s pat : str) : nat :=
  match fuel with
  | O => 0
  | S fuel' =>
      match indexOf s pat with
      | None => 0
      | Some i => S (scanCount fuel' (skipn (i + length pat) s) pat)
      end
  end.

(** [count_occurrences(paragraph, normalized_term)]: the case-insensitive
    literal count, for a non-empty term. *)
Definition count_occurrences (paragraph normalizedTerm : str) : nat :=
  scanCount (length paragraph) (toLowerCase paragraph) normalizedTerm.

(** The documents a search visits: those of the requested identifiers that
    have content, in request order. *)
Definition requested (files : list FileData) (ids : list str) : list FileData :=
  flat_map (fun fileId => match findFile files fileId with
                          | Some f => [f]
                          | None => []
                          end) ids.

(** The per-document result the specification describes. *)
Definition matchResult (term : str) (file : FileData) : SearchResult :=
  let nt := normalizeTerm term in
  let ps := paragraphs (splitTextIntoParagraphs (file_content file)) in
  {| res_fileName := file_name file;
     foundParagraphs :=
       map (fun p => restructure p term)
           (filter (fun p => 0 <? count_occurrences p nt) ps);
     totalParagraphs := length ps;
     occurrenceCount := list_sum (map (fun p => count_occurrences p nt) ps) |}.

(** A sample document of three paragraphs, and a [JSON.stringify] that
    prints nothing. *)
Definition sampleFile : FileData :=
  {| file_id := lit "doc-1";
     file_name := lit "notes.txt";
     file_content :=
       lit "x a.b y A.B" ++ [LF; LF] ++ lit "axb only" ++ [LF; LF]
       ++ lit "head | a.b | tail";
     file_size := 40;
     file_type := lit "text/plain" |}.

Definition noStringify (info : SplitInfo) : str := [].

(** *** Diagnostic entries and results *)

(** A diagnostic entry made for a found paragraph: its index counts from 1;
    the entry made for a file has index 0. *)
Definition isParagraphEntry (d : DebugInfo) : bool := 0 <? dbg_paragraphIndex d.

(** The diagnostic entries [dbg] and the results correspond: the entries of
    found paragraphs carry, in order, the found paragraphs of the results, and
    there is one other entry per result. *)
Definition corresponding (results : list SearchResult) (dbg : list DebugInfo) : Prop :=
  map dbg_processedParagraph (filter isParagraphEntry dbg)
  = concat (map foundParagraphs results)
  /\ length (filter (fun d => negb (isParagraphEntry d)) dbg) = length results.


End Search.

(** ** Inline Markup Tokenizer: [parseMarkdown] (exportUtils.ts) *)

Module Markdown.

Inductive ElementType : Type := text | bold | italic | code | header.

Record MarkdownElement : Type := mkElement {
  type : ElementType;
  content : str;
  level : option nat
}.

Definition HASH : ascii := "#"%char.
Definition STAR : ascii := "*"%char.
Definition TICK : ascii := "`"%char.

(** *** The header pattern [/^(#{1,6})\s+(.+?)(?=\n|$)/]

    The matcher backtracks as the regular expression does: a greedy quantifier
    is tried at its longest extent first and then gives characters back one
    at a time, a lazy one is tried at its shortest extent first. *)

(** First success of [f] at [n], [n - 1], ..., [lo]. *)
Fixpoint firstDown (A : Type) (lo n : nat) (f : nat -> option A) : option A :=
  if n <? lo then None
  else match f n with
       | Some r => Some r
       | None => match n with
                 | O => None
                 | S n' => firstDown lo n' f
                 end
       end.

(** First success of [f] at [n], [n + 1], ..., [n + count - 1]. *)
Fixpoint firstUp (A : Type) (n count : nat) (f : nat -> option A) : option A :=
  match count with
  | O => None
  | S count' =>
      match f n with
      | Some r => Some r
      | None => firstUp (S n) count' f
      end
  end.

(** The array a successful match returns: [m[0]], [m[1]], [m[2]]. *)
Record HeaderMatch : Type := mkHeaderMatch {
  matched : str;
  hashes : str;
  title : str
}.

(** [(?=\n|$)]: a line feed or the end of input is next. *)
Definition atLineEnd (rest : str) : bool :=
  match rest with
  | [] => true
  | c :: _ => Ascii.eqb c LF
  end.

Definition notLineTerminator (c : ascii) : bool := negb (isLineTerminator c).

(** [s.match(/^(#{1,6})\s+(.+?)(?=\n|$)/)] *)
Definition headerMatch (s : str) : option HeaderMatch :=
  let maxHashes := Nat.min 6 (length (takeWhile (Ascii.eqb HASH) s)) in
  firstDown 1 maxHashes (fun k =>
    let afterHashes := skipn k s in
    let maxSpaces := length (takeWhile isWhiteSpace afterHashes) in
    firstDown 1 maxSpaces (fun j =>
      let afterSpaces := skipn j afterHashes in
      let maxDots := length (takeWhile notLineTerminator afterSpaces) in
      firstUp 1 maxDots (fun n =>
        if atLineEnd (skipn n afterSpaces)
        then Some {| matched := firstn (k + j + n) s;
                     hashes := firstn k s;
                     title := firstn n afterSpaces |}
        else None))).

(** *** One iteration of the scan loop

    Each recogniser returns the element pushed and the new [currentIndex],
    or [None] when the source falls through to the next check. *)

Definition Recognised : Type := option (MarkdownElement * nat).

Definition tryHeader (txt : str) (currentIndex : nat) : Recognised :=
  if isChar (charAt txt currentIndex) HASH
     && ((currentIndex =? 0) || isChar (charAt txt (currentIndex - 1)) LF)
  then
    match headerMatch (sliceFrom txt currentIndex) with
    | Some headerMatch =>
        Some ({| type := header;
                 content := title headerMatch;
                 level := Some (length (hashes headerMatch)) |},
              currentIndex + length (matched headerMatch))
    | None => None
    end
  else None.

Definition tryBold (txt : str) (currentIndex : nat) : Recognised :=
  if strEq (slice txt currentIndex (currentIndex + 2)) [STAR; STAR]
  then
    let remainingText := sliceFrom txt (currentIndex + 2) in
    match indexOf remainingText [STAR; STAR] with
    | Some endIndex =>
        if 0 <? endIndex
        then
          let boldContent := slice remainingText 0 endIndex in
          Some ({| type := bold; content := boldContent; level := None |},
                currentIndex + (4 + length boldContent))
        else None
    | None => None
    end
  else None.

Definition tryItalic (txt : str) (currentIndex : nat) : Recognised :=
  if isChar (charAt txt currentIndex) STAR
     && negb (isChar (charAt txt (currentIndex + 1)) STAR)
     && ((currentIndex =? 0) || negb (isChar (charAt txt (currentIndex - 1)) STAR))
  then
    let remainingText := sliceFrom txt (currentIndex + 1) in
    match indexOf remainingText [STAR] with
    | Some endIndex =>
        if 0 <? endIndex
        then
          let italicContent := slice remainingText 0 endIndex in
          if (length txt <=? currentIndex + 2 + endIndex)
             || negb (isChar (charAt txt (currentIndex + 2 + endIndex)) STAR)
          then
            Some ({| type := italic; content := italicContent; level := None |},
                  currentIndex + (2 + length italicContent))
          else None
        else None
    | None => None
    end
  else None.

Definition tryCode (txt : str) (currentIndex : nat) : Recognised :=
  if isChar (charAt txt currentIndex) TICK
  then
    let remainingText := sliceFrom txt (currentIndex + 1) in
    match indexOf remainingText [TICK] with
    | Some endIndex =>
        if 0 <? endIndex
        then
          let codeContent := slice remainingText 0 endIndex in
          Some ({| type := code; content := codeContent; level := None |},
                currentIndex + (2 + length codeContent))
        else None
    | None => None
    end
  else None.

(** The test inside the look-ahead loop of the plain-text branch. *)
Definition startsMarkdown (txt : str) (i : nat) : bool :=
  let char := charAt txt i in
  let prevChar := if 0 <? i then charAt txt (i - 1) else None in
  isChar char STAR || isChar char TICK || (isChar char HASH && isChar prevChar LF).

(** [nextMarkdownIndex]: the first [i] of [currentIndex + 1 .. text.length - 1]
    that may start a construct, else [text.length]. *)
Definition nextMarkdownIndex (txt : str) (currentIndex : nat) : nat :=
  match find (startsMarkdown txt)
             (seq (currentIndex + 1) (length txt - (currentIndex + 1))) with
  | Some i => i
  | None => length txt
  end.

(** The plain-text branch: the elements pushed (none for an empty slice) and
    the new [currentIndex]. *)
Definition plainText (txt : str) (currentIndex : nat) : list MarkdownElement * nat :=
  let next := nextMarkdownIndex txt currentIndex in
  let textContent := slice txt currentIndex next in
  (if truthy textContent
   then [{| type := text; content := textContent; level := None |}]
   else [],
   next).

Definition orElse (a b : Recognised) : Recognised :=
  match a with Some _ => a | None => b end.

(** The body of [while (currentIndex < text.length)]. *)
Definition step (txt : str) (currentIndex : nat) : list MarkdownElement * nat :=
  match orElse (tryHeader txt currentIndex)
       (orElse (tryBold txt currentIndex)
       (orElse (tryItalic txt currentIndex)
               (tryCode txt currentIndex))) with
  | Some (element, next) => ([element], next)
  | None => plainText txt currentIndex
  end.

(** The loop, with a bound on the number of iterations; [None] when the bound
    is reached with the loop condition still true. *)
Fixpoint parseLoop (fuel : nat) (txt : str) (currentIndex : nat)
    (elements : list MarkdownElement) : option (list MarkdownElement) :=
  if length txt <=? currentIndex then Some elements
  else match fuel with
       | O => None
       | S fuel' =>
           let '(pushed, next) := step txt currentIndex in
           parseLoop fuel' txt next (elements ++ pushed)
       end.

(** [parseMarkdown(text)]: one iteration per character is enough. *)
Definition parseMarkdown (txt : str) : option (list MarkdownElement) :=
  parseLoop (length txt) txt 0 [].

(** *** Runs and their source *)

(** A piece of the fragment: a content between an opening and a closing
    marker (both empty for plain text). *)
Record Piece : Type := mkPiece {
  opening : str;
  body : str;
  closing : str
}.

Definition pieceSource (p : Piece) : str := opening p ++ body p ++ closing p.

(** The fragment a sequence of pieces spells, and the same with the markers
    removed. *)
Definition sourceOf (ps : list Piece) : str := concat (map pieceSource ps).
Definition visibleOf (ps : list Piece) : str := concat (map body ps).

(** The markers of each kind of run: [**..**], [*..*], [`..`], and for a
    heading its [#] characters with the white space that follows them. *)
Definition markersOf (e : MarkdownElement) (p : Piece) : Prop :=
  body p = content e /\
  match type e with
  | text => opening p = [] /\ closing p = [] /\ level e = None
  | bold => opening p = [STAR; STAR] /\ closing p = [STAR; STAR] /\ level e = None
  | italic => opening p = [STAR] /\ closing p = [STAR] /\ level e = None
  | code => opening p = [TICK] /\ closing p = [TICK] /\ level e = None
  | header =>
      exists k ws,
        level e = Some k /\ 1 <= k <= 6 /\
        ws <> [] /\ forallb isWhiteSpace ws = true /\
        opening p = repeat HASH k ++ ws /\ closing p = []
  end.

(** *** Heading sites *)

(** The cursor [i] is at the very start of the fragment or right after a
    line feed. *)
Definition atLineStart (txt : str) (i : nat) : Prop :=
  i = 0 \/ (0 < i /\ charAt txt (i - 1) = Some LF).

(** A heading in the text at [i]: [k] hash characters ([1 <= k <= 6]), the
    non-empty white space [ws], the non-empty title [ttl] free of line
    terminators, and then a line feed or the end of input. *)
Definition headingAt (txt : str) (i k : nat) (ws ttl : str) : Prop :=
  1 <= k <= 6 /\
  ws <> [] /\ forallb isWhiteSpace ws = true /\
  ttl <> [] /\ forallb notLineTerminator ttl = true /\
  exists rest,
    skipn i txt = repeat HASH k ++ ws ++ ttl ++ rest /\ atLineEnd rest = true.

(** The heading site of the specification, read on the text alone: a run of
    1 to 6 [#] at the start or after a line break, then a space, then the
    heading text. *)
Definition specHeadingSite (txt : str) : Prop :=
  exists i k ttl,
    atLineStart txt i /\ headingAt txt i k [SP] ttl.


(** *** Well-formed runs *)

(** A run as the tokenizer makes them: the content is not empty and holds
    no closing marker of its kind; a heading has a level from 1 to 6 and no
    line terminator; a plain run holds no [*] and no backtick after its first
    character. *)
Definition closedRun (e : MarkdownElement) : Prop :=
  content e <> []
  /\ match type e with
     | bold => includes (content e) [STAR; STAR] = false
     | italic => includes (content e) [STAR] = false
     | code => includes (content e) [TICK] = false
     | header =>
         forallb notLineTerminator (content e) = true
         /\ exists k, level e = Some k /\ 1 <= k <= 6
     | text =>
         forallb (fun c => negb (Ascii.eqb c STAR || Ascii.eqb c TICK))
                 (tl (content e)) = true
     end.

(** A character that starts no construct. *)
Definition plainChar (c : ascii) : bool :=
  negb (Ascii.eqb c STAR || Ascii.eqb c TICK || Ascii.eqb c HASH).


(** *** The fragment without its markers

    A second reading of the tokenizer, written from its rules and not from
    its loop: the fragment is walked character by character; where a
    construct stands, in the order heading, strong, emphasis, code, its
    content is kept and its markers are passed over; any other character is
    kept as it is.  [parseMarkdown] is compared with it below. *)

(** [s] cut at the first occurrence of the closing marker [m]: what stands
    before the marker and what follows it. *)
Fixpoint cutAt (m s : str) : option (str * str) :=
  if startsWith s m then Some ([], skipn (length m) s)
  else match s with
       | [] => None
       | c :: s' =>
           match cutAt m s' with
           | Some (before, after) => Some (c :: before, after)
           | None => None
           end
       end.

(** A construct found at the head of a text: the content it shows and the
    number of characters it takes, markers included. *)
Definition Shown : Type := option (str * nat).

Definition nextIs (c : ascii) (s : str) : bool :=
  match s with
  | [] => false
  | d :: _ => Ascii.eqb d c
  end.

(** The scan is at the very start of the fragment or right after a line
    feed. *)
Definition lineStart (prev : option ascii) : bool :=
  match prev with
  | None => true
  | Some c => Ascii.eqb c LF
  end.

(** The heading text at the head of [s]: the characters up to the first line
    terminator, not empty, with a line feed or the end of input after
    them. *)
Definition headingText (s : str) : option str :=
  let t := takeWhile notLineTerminator s in
  if truthy t && atLineEnd (skipn (length t) s) then Some t else None.

(** What follows the [#] characters of a heading: white space, at least one
    character of it and as much of it as leaves a heading text, and then
    that text.  The result is the length of the white space and the text. *)
Fixpoint afterHashes (s : str) : option (nat * str) :=
  match s with
  | [] => None
  | c :: s' =>
      if isWhiteSpace c
      then match afterHashes s' with
           | Some (j, t) => Some (S j, t)
           | None =>
               match headingText s' with
               | Some t => Some (1, t)
               | None => None
               end
           end
      else None
  end.

(** Heading: 1 to 6 [#] at a line start, white space, the heading text. *)
Definition headingRun (prev : option ascii) (s : str) : Shown :=
  let k := length (takeWhile (Ascii.eqb HASH) s) in
  if lineStart prev && (1 <=? k) && (k <=? 6)
  then match afterHashes (skipn k s) with
       | Some (j, t) => Some (t, k + j + length t)
       | None => None
       end
  else None.

(** Strong: [**], a content that is not empty, the first [**] after it. *)
Definition strongRun (s : str) : Shown :=
  if startsWith s [STAR; STAR]
  then match cutAt [STAR; STAR] (skipn 2 s) with
       | Some (c, _) => if truthy c then Some (c, 4 + length c) else None
       | None => None
       end
  else None.

(** Emphasis: one [*] with no [*] before it and none after it, a content
    that is not empty, the first [*] after it, with no [*] after that one. *)
Definition emphasisRun (prev : option ascii) (s : str) : Shown :=
  if nextIs STAR s && negb (nextIs STAR (skipn 1 s)) && negb (isChar prev STAR)
  then match cutAt [STAR] (skipn 1 s) with
       | Some (c, after) =>
           if truthy c && negb (nextIs STAR after)
           then Some (c, 2 + length c)
           else None
       | None => None
       end
  else None.

(** Code: a backtick, a content that is not empty, the first backtick after
    it. *)
Definition codeRun (s : str) : Shown :=
  if nextIs TICK s
  then match cutAt [TICK] (skipn 1 s) with
       | Some (c, _) => if truthy c then Some (c, 2 + length c) else None
       | None => None
       end
  else None.

(** The construct at the head of [s], [prev] being the character before it:
    the first of heading, strong, emphasis and code that stands there. *)
Definition constructAt (prev : option ascii) (s : str) : Shown :=
  match headingRun prev s with
  | Some r => Some r
  | None =>
      match strongRun s with
      | Some r => Some r
      | None =>
          match emphasisRun prev s with
          | Some r => Some r
          | None => codeRun s
          end
      end
  end.

(** The walk over the fragment.  [skip] counts the characters of the
    construct just found that are still to be passed, [prev] is the
    character before [s]. *)
Fixpoint strip (skip : nat) (prev : option ascii) (s : str) : str :=
  match s with
  | [] => []
  | c :: s' =>
      match skip with
      | S k => strip k (Some c) s'
      | O =>
          match constructAt prev s with
          | Some (shown, width) => shown ++ strip (width - 1) (Some c) s'
          | None => c :: strip 0 (Some c) s'
          end
      end
  end.

(** The fragment with the markers of its constructs removed. *)
Definition withoutMarkers (txt : str) : str := strip 0 None txt.

(** The character before the cursor [i]. *)
Definition prevAt (txt : str) (i : nat) : option ascii :=
  match i with
  | O => None
  | S j => charAt txt j
  end.

(** No emphasis character and no backtick. *)
Definition noInlineMarker (txt : str) : bool :=
  forallb (fun c => negb (Ascii.eqb c STAR || Ascii.eqb c TICK)) txt.

End Markdown.

(** ** Paginated renderer: [exportToPdf] (exportUtils.ts) *)

Module Pdf.

Import Markdown.

Local Open Scope Q_scope.

Inductive FontFamily : Type := helvetica | courier.
Inductive FontStyle : Type := Normal | Bold | Italic | BoldItalic.

Record Font : Type := mkFont {
  family : FontFamily;
  style : FontStyle
}.

(** One call of [pdf.text]: the text, its horizontal offset, and the font and
    size active at the call. *)
Record Placement : Type := mkPlacement {
  p_text : str;
  p_x : Q;
  p_font : Font;
  p_size : Q;
  p_centered : bool
}.

(** A line of the layout: the placements made at one vertical position. *)
Record PlacedLine : Type := mkPlacedLine {
  l_page : nat;
  l_y : Q;
  l_items : list Placement
}.

(** What the code uses of the [jsPDF] instance: the page size, and the two
    measuring functions, which read the active font and size. *)
Record JsPdf : Type := mkJsPdf {
  pageWidth : Q;
  pageHeight : Q;
  getTextWidth : Font -> Q -> str -> Q;
  splitTextToSize : Font -> Q -> str -> Q -> list str
}.

(** An entry of [currentLine]. *)
Record Segment : Type := mkSegment {
  seg_text : str;
  isBold : bool;
  isItalic : bool;
  isCode : bool
}.

(** The mutable state: the document ([font], [fontSize], [page], [out]), the
    variable [yPosition] of [exportToPdf], and the variables [currentLine],
    [currentLineWidth] of [addFormattedText]. *)
Record St : Type := mkSt {
  font : Font;
  fontSize : Q;
  page : nat;
  out : list PlacedLine;
  yPosition : Q;
  currentLine : list Segment;
  currentLineWidth : Q
}.

Definition setFont (f : Font) (st : St) : St :=
  mkSt f (fontSize st) (page st) (out st) (yPosition st)
       (currentLine st) (currentLineWidth st).

Definition setFontSize (size : Q) (st : St) : St :=
  mkSt (font st) size (page st) (out st) (yPosition st)
       (currentLine st) (currentLineWidth st).

Definition setY (y : Q) (st : St) : St :=
  mkSt (font st) (fontSize st) (page st) (out st) y
       (currentLine st) (currentLineWidth st).

Definition addPage (st : St) : St :=
  mkSt (font st) (fontSize st) (S (page st)) (out st) (yPosition st)
       (currentLine st) (currentLineWidth st).

Definition emit (l : PlacedLine) (st : St) : St :=
  mkSt (font st) (fontSize st) (page st) (out st ++ [l]) (yPosition st)
       (currentLine st) (currentLineWidth st).

Definition setLine (line : list Segment) (width : Q) (st : St) : St :=
  mkSt (font st) (fontSize st) (page st) (out st) (yPosition st) line width.

(** [a > b] on numbers. *)
Definition gtb (a b : Q) : bool := negb (Qle_bool a b).

(** The [fontStyle] computed from the two flags, in both closures. *)
Definition fontStyleOf (isBold isItalic : bool) : FontStyle :=
  if isBold && isItalic then BoldItalic
  else if isBold then Bold
  else if isItalic then Italic
  else Normal.

(** [text.split(/\s+/)]: the separators are the maximal runs of white
    space. *)
Fixpoint splitWhiteSpace_go (s : str) (skip : nat) (cur : str) : list str :=
  match s with
  | [] => [rev cur]
  | c :: s' =>
      match skip with
      | S k => splitWhiteSpace_go s' k cur
      | O =>
          if isWhiteSpace c
          then rev cur
               :: splitWhiteSpace_go s' (length (takeWhile isWhiteSpace s) - 1) []
          else splitWhiteSpace_go s' 0 (c :: cur)
      end
  end.

(** [text.split(/\s+/).filter(word => word.length > 0)] *)
Definition wordsOf (t : str) : list str :=
  filter (fun word => (0 <? length word)%nat) (splitWhiteSpace_go t 0 []).

(** The word a placement carries: its text without the separating space. *)
Definition wordOf (t : str) : str :=
  match t with
  | c :: w => if Ascii.eqb c SP then w else t
  | [] => []
  end.

Definition notWhiteSpace (c : ascii) : bool := negb (isWhiteSpace c).

(** The words a sequence of lines carries, in order. *)
Definition placedWords (lines : list PlacedLine) : list str :=
  map (fun p => wordOf (p_text p)) (concat (map l_items lines)).

(** The font [flushLine] draws a segment in, and the font it leaves active
    after the segment. *)
Definition drawFont (segment : Segment) : Font :=
  if isCode segment then mkFont courier Normal
  else mkFont helvetica (fontStyleOf (isBold segment) (isItalic segment)).

Definition leftFont (segment : Segment) : Font :=
  if isCode segment then mkFont helvetica Normal
  else mkFont helvetica (fontStyleOf (isBold segment) (isItalic segment)).

(** A line of exactly one placement. *)
Definition oneWord (l : PlacedLine) : Prop := length (l_items l) = 1%nat.

(** Lines written so far: there are some, each of one placement. *)
Definition Good (o : list PlacedLine) : Prop := o <> [] /\ Forall oneWord o.

(** The state between two words on a page without usable width: at most one
    word waits on the current line, and its width is counted. *)
Definition Inv (size : Q) (st : St) : Prop :=
  Good (out st)
  /\ fontSize st = size
  /\ (currentLine st = [] -> currentLineWidth st == 0)
  /\ (currentLine st <> [] ->
      length (currentLine st) = 1%nat /\ 0 < currentLineWidth st).

Section Renderer.

Variable pdf : JsPdf.

Definition margin : Q := 20.
Definition maxWidth : Q := pageWidth pdf - margin * 2.

(** [pdf.getTextWidth(t)] in state [st]. *)
Definition textWidth (st : St) (t : str) : Q :=
  getTextWidth pdf (font st) (fontSize st) t.

(** [if (yPosition > pageHeight - limit) { pdf.addPage(); yPosition = 30; }] *)
Definition pageBreak (limit : Q) (st : St) : St :=
  if gtb (yPosition st) (pageHeight pdf - limit)
  then setY 30 (addPage st)
  else st.

(** The body of [currentLine.forEach] in [flushLine]; the accumulator carries
    [xPosition] and the placements of the line. *)
Definition renderSegment (acc : St * Q * list Placement) (segment : Segment)
    : St * Q * list Placement :=
  let '(st, xPosition, items) := acc in
  let st := setFont (mkFont helvetica (fontStyleOf (isBold segment) (isItalic segment))) st in
  let st := if isCode segment then setFont (mkFont courier Normal) st else st in
  let item := {| p_text := seg_text segment; p_x := xPosition;
                 p_font := font st; p_size := fontSize st;
                 p_centered := false |} in
  let xPosition := xPosition + textWidth st (seg_text segment) in
  let st := if isCode segment then setFont (mkFont helvetica Normal) st else st in
  (st, xPosition, items ++ [item]).

Definition flushLine (indent lineHeight : Q) (st : St) : St :=
  match currentLine st with
  | [] => st
  | _ :: _ =>
      let st := pageBreak 20 st in
      let '(st, _, items) :=
        fold_left renderSegment (currentLine st) (st, margin + indent, []) in
      let st := emit {| l_page := page st; l_y := yPosition st; l_items := items |} st in
      let st := setY (yPosition st + lineHeight) st in
      setLine [] 0 st
  end.

(** The body of [words.forEach((word, index) => ...)] in [addToLine]. *)
Definition wordStep (isBold isItalic isCode : bool) (indent lineHeight : Q)
    (st : St) (iw : nat * str) : St :=
  let '(index, word) := iw in
  let wordWithSpace :=
    if (0 <? length (currentLine st))%nat || (0 <? index)%nat
    then SP :: word else word in
  let st := setFont (mkFont (if isCode then courier else helvetica)
                            (fontStyleOf isBold isItalic)) st in
  let wordWidth := textWidth st wordWithSpace in
  if gtb (currentLineWidth st + wordWidth) (maxWidth - indent)
     && (0 <? length (currentLine st))%nat
  then
    let st := flushLine indent lineHeight st in
    let st := setLine (currentLine st ++ [mkSegment word isBold isItalic isCode])
                      (currentLineWidth st) st in
    setLine (currentLine st) (textWidth st word) st
  else
    setLine (currentLine st ++ [mkSegment wordWithSpace isBold isItalic isCode])
            (currentLineWidth st + wordWidth) st.

Definition indexed (A : Type) (l : list A) : list (nat * A) :=
  combine (seq 0 (length l)) l.

Definition addToLine (t : str) (isBold isItalic isCode : bool)
    (indent lineHeight : Q) (st : St) : St :=
  fold_left (wordStep isBold isItalic isCode indent lineHeight)
            (indexed (wordsOf t)) st.

(** The body of [elements.forEach(element => { switch (element.type) ... })]. *)
Definition elementStep (indent lineHeight : Q) (st : St) (element : MarkdownElement)
    : St :=
  match type element with
  | bold => addToLine (content element) true false false indent lineHeight st
  | italic => addToLine (content element) false true false indent lineHeight st
  | code => addToLine (content element) false false true indent lineHeight st
  | header =>
      let st := flushLine indent lineHeight st in
      let st := addToLine (content element) true false false indent lineHeight st in
      let st := flushLine indent lineHeight st in
      setY (yPosition st + 5) st
  | text => addToLine (content element) false false false indent lineHeight st
  end.

(** [addFormattedText] after the call of [parseMarkdown]. *)
Definition addFormattedElements (elements : list MarkdownElement)
    (size indent : Q) (st : St) : St :=
  let lineHeight := size * (6 # 10) in
  let st := setLine [] 0 st in
  let st := setFontSize size st in
  let st := fold_left (elementStep indent lineHeight) elements st in
  let st := flushLine indent lineHeight st in
  setY (yPosition st + 5) st.

(** [addFormattedText(text, fontSize, indent)]; [None] only if the
    tokenizer's loop does not finish. *)
Definition addFormattedText (t : str) (size indent : Q) (st : St) : option St :=
  match parseMarkdown t with
  | Some elements => Some (addFormattedElements elements size indent st)
  | None => None
  end.

(** [addWrappedText(text, fontSize, isBold, indent)] *)
Definition addWrappedText (t : str) (size : Q) (isBold : bool) (indent : Q)
    (st : St) : St :=
  let st := setFontSize size st in
  let st := setFont (mkFont helvetica (if isBold then Bold else Normal)) st in
  let lines := splitTextToSize pdf (font st) (fontSize st) t (maxWidth - indent) in
  let st :=
    fold_left
      (fun st line =>
         let st := pageBreak 20 st in
         let st := emit {| l_page := page st; l_y := yPosition st;
                           l_items := [{| p_text := line; p_x := margin + indent;
                                          p_font := font st; p_size := fontSize st;
                                          p_centered := false |}] |} st in
         setY (yPosition st + size * (6 # 10)) st)
      lines st in
  setY (yPosition st + 5) st.

Definition DQUOTE : ascii := ascii_of_nat 34.

(** The body of [result.foundParagraphs.forEach((paragraph, index) => ...)]. *)
Definition paragraphStep (st : option St) (ip : nat * str) : option St :=
  match st with
  | None => None
  | Some st =>
      let '(index, paragraph) := ip in
      let st := pageBreak 40 st in
      let st := addWrappedText (showNat (index + 1) ++ lit ". ") 10 true 10 st in
      let st := setY (yPosition st - 10) st in
      addFormattedText (trim paragraph) 10 20 st
  end.

(** The body of [for (const result of results)]. *)
Definition resultStep (st : option St) (result : Search.SearchResult) : option St :=
  match st with
  | None => None
  | Some st =>
      let found := Search.foundParagraphs result in
      let st := pageBreak 60 st in
      let st := addWrappedText (lit "Source: " ++ Search.res_fileName result) 14 true 0 st in
      let st := addWrappedText
                  (lit "Found paragraphs: " ++ showNat (length found) ++ lit " of "
                   ++ showNat (Search.totalParagraphs result) ++ lit " total")
                  11 false 0 st in
      let st := setY (yPosition st + 5) st in
      let st :=
        match found with
        | [] => Some (addWrappedText (lit "No paragraphs found with the search term.")
                                     11 false 10 st)
        | _ :: _ => fold_left paragraphStep (indexed found) (Some st)
        end in
      option_map (fun st => setY (yPosition st + 15) st) st
  end.

(** [new jsPDF()] with [yPosition = 30]: the default font of the library is
    helvetica, normal, 16 points. *)
Definition initial : St :=
  {| font := mkFont helvetica Normal; fontSize := 16; page := 1%nat; out := [];
     yPosition := 30; currentLine := []; currentLineWidth := 0 |}.

(** [exportToPdf(results, searchTerm)]: the lines handed to the document
    before [pdf.save]. *)
Definition exportToPdf (results : list Search.SearchResult) (term : str)
    : option (list PlacedLine) :=
  let st := initial in
  let st := setFontSize 18 st in
  let st := setFont (mkFont helvetica Bold) st in
  let st := emit {| l_page := page st; l_y := yPosition st;
                    l_items := [{| p_text := lit "Search Results for " ++ [DQUOTE]
                                             ++ term ++ [DQUOTE];
                                   p_x := pageWidth pdf / 2;
                                   p_font := font st; p_size := fontSize st;
                                   p_centered := true |}] |} st in
  let st := setY (yPosition st + 30) st in
  let totalParagraphs :=
    fold_left (fun sum result => (sum + length (Search.foundParagraphs result))%nat)
              results 0%nat in
  let totalOccurrences :=
    fold_left (fun sum result => (sum + Search.occurrenceCount result)%nat)
              results 0%nat in
  let st := addWrappedText (lit "Search Summary") 14 true 0 st in
  let st := addWrappedText (lit "Files searched: " ++ showNat (length results))
                           11 false 0 st in
  let st := addWrappedText (lit "Total paragraphs found: " ++ showNat totalParagraphs)
                           11 false 0 st in
  let st := addWrappedText (lit "Total occurrences: " ++ showNat totalOccurrences)
                           11 false 0 st in
  let st := setY (yPosition st + 10) st in
  option_map out (fold_left resultStep results (Some st)).

(** *** Measures of the layout *)

(** The usable line width at an indentation. *)
Definition usableWidth (indent : Q) : Q := maxWidth - indent.

(** The measured width of a line: every placement under its own font and
    size, as [flushLine] advances [xPosition]. *)
Definition lineWidth (l : PlacedLine) : Q :=
  fold_left (fun w p => w + getTextWidth pdf (p_font p) (p_size p) (p_text p))
            (l_items l) 0.

(** No line of more than one word is wider than the usable width. *)
Definition withinWidth (indent : Q) (lines : list PlacedLine) : Prop :=
  forall l, In l lines -> (1 < length (l_items l))%nat ->
            lineWidth l <= usableWidth indent.

(** The same for one line. *)
Definition fits (indent : Q) (l : PlacedLine) : Prop :=
  (1 < length (l_items l))%nat -> lineWidth l <= usableWidth indent.

(** The width of the segments of a line when all are measured in the font
    [f] at the size [size]. *)
Definition lineSum (f : Font) (size : Q) (segments : list Segment) : Q :=
  fold_left (fun w segment => w + getTextWidth pdf f size (seg_text segment))
            segments 0.

(** The state between two words of runs drawn in the one font [f], since
    the lines [base]: the lines added fit, the waiting segments are drawn in
    [f] and leave it active, and [currentLineWidth] is their width. *)
Definition Uniform (size indent : Q) (base : list PlacedLine) (f : Font)
    (st : St) : Prop :=
  fontSize st = size
  /\ (exists more, out st = base ++ more /\ Forall (fits indent) more)
  /\ Forall (fun segment => drawFont segment = f /\ leftFont segment = f)
            (currentLine st)
  /\ currentLineWidth st == lineSum f size (currentLine st)
  /\ ((1 < length (currentLine st))%nat ->
      currentLineWidth st <= usableWidth indent).

(** The state while words are added, since the lines [base]: the words
    placed and waiting are [words]. *)
Definition Carries (base : list PlacedLine) (words : list str) (st : St) : Prop :=
  exists more,
    out st = base ++ more
    /\ placedWords more ++ map (fun segment => wordOf (seg_text segment))
                               (currentLine st)
       = words.

End Renderer.

(** *** A sample instance

    Glyph widths in thousandths of the font size, as in the metrics of the
    standard fonts: every Courier glyph is 600 wide; in Helvetica [i] is 222
    (278 in bold), the space 278, the other glyphs are taken as 556.  With
    millimetres as the unit a point is 25.4/72 mm and an A4 page is taken
    as 210 by 297 (the library's own A4 is a few thousandths of a millimetre
    larger).  [splitTextToSize] is taken not to wrap. *)

Definition glyphUnits (f : Font) (c : ascii) : Z :=
  match family f with
  | courier => 600
  | helvetica =>
      if Ascii.eqb c "i"%char
      then match style f with
           | Bold | BoldItalic => 278
           | _ => 222
           end
      else if Ascii.eqb c SP then 278
      else 556
  end%Z.

Definition sampleWidth (f : Font) (size : Q) (t : str) : Q :=
  inject_Z (fold_left (fun acc c => (acc + glyphUnits f c)%Z) t 0%Z)
  * size * (254 # 720000).

Definition samplePdf : JsPdf :=
  {| pageWidth := 210; pageHeight := 297;
     getTextWidth := sampleWidth;
     splitTextToSize := fun _ _ t _ => [t] |}.

(** A line of more than one word wider than the usable width. *)
Definition overflows (pdf : JsPdf) (indent : Q) (l : PlacedLine) : bool :=
  (1 <? length (l_items l))%nat && gtb (lineWidth pdf l) (usableWidth pdf indent).

(** A found paragraph that is one Code run of thirteen words of ten
    letters. *)
Definition overflowContent : str :=
  join (repeat (lit "iiiiiiiiii") 13) [SP].

Definition overflowResult : Search.SearchResult :=
  {| Search.res_fileName := lit "notes.txt";
     Search.foundParagraphs := [[TICK] ++ overflowContent ++ [TICK]];
     Search.totalParagraphs := 1;
     Search.occurrenceCount := 13 |}.

(** A result with one found paragraph of three words. *)
Definition sampleResult : Search.SearchResult :=
  {| Search.res_fileName := lit "notes.txt";
     Search.foundParagraphs := [lit "alpha beta gamma"];
     Search.totalParagraphs := 3;
     Search.occurrenceCount := 1 |}.

(** The lines added to [out] by a computation from [before] to [after]. *)
Definition newLines (before after : St) : list PlacedLine :=
  skipn (length (out before)) (out after).

(** *** Where the lines are placed *)

(** The horizontal position at which a placement ends, measured in its own
    font and size. *)
Definition endOf (pdf : JsPdf) (p : Placement) : Q :=
  p_x p + getTextWidth pdf (p_font p) (p_size p) (p_text p).

(** Placements that abut, the first at [x]: each starts where the one
    before it ends. *)
Fixpoint chainedFrom (pdf : JsPdf) (x : Q) (items : list Placement) : Prop :=
  match items with
  | [] => True
  | p :: rest => p_x p = x /\ chainedFrom pdf (endOf pdf p) rest
  end.

(** A line whose placements abut. *)
Definition chained (pdf : JsPdf) (l : PlacedLine) : Prop :=
  match l_items l with
  | [] => True
  | p :: _ => chainedFrom pdf (p_x p) (l_items l)
  end.

(** A line above the bottom margin of the page. *)
Definition aboveBottom (pdf : JsPdf) (l : PlacedLine) : Prop :=
  l_y l <= pageHeight pdf - 20.

(** Page numbers that never decrease. *)
Fixpoint ascending (pages : list nat) : Prop :=
  match pages with
  | a :: (b :: _) as rest => (a <= b)%nat /\ ascending rest
  | _ => True
  end.

(** The lines written so far are above the bottom margin, their placements
    abut, and their pages ascend up to the current page. *)
Definition Placed (pdf : JsPdf) (st : St) : Prop :=
  Forall (fun l => aboveBottom pdf l /\ chained pdf l) (out st)
  /\ ascending (map l_page (out st))
  /\ Forall (fun l => (l_page l <= page st)%nat) (out st).





End Pdf.

(** ** Highlighting: [highlightSearchTerm] (SearchResults.tsx, DebugPanel.tsx) *)

Module Highlight.

Import Search.

(** [Canonicalize(ch)] of a regular expression with the flag [i] and without
    the flag [u], for a code unit below 256: the code unit of the upper-case
    form of [ch] when that form is one code unit, else [ch] itself.  The
    upper-case forms of the micro sign (181) and of the y with diaeresis (255)
    are the code units 924 and 376; that of the sharp s (223) is two code
    units, so it stays. *)
Definition canonicalize (ch : ascii) : nat :=
  let n := code ch in
  if ((97 <=? n) && (n <=? 122))
     || ((224 <=? n) && (n <=? 254) && negb (n =? 247))
  then n - 32
  else if n =? 181 then 924
  else if n =? 255 then 376
  else n.

(** Two code units match under the flag [i] when their canonical forms are
    equal. *)
Definition canonEq (a b : ascii) : bool := canonicalize a =? canonicalize b.

(** The code units of the model, all 256 of them. *)
Definition allAscii : list ascii := map ascii_of_nat (seq 0 256).

(** The lower-case form of a code unit below 256, from its canonical form. *)
Definition lowerOfCanonical (n : nat) : ascii :=
  if n =? 924 then ascii_of_nat 181
  else if n =? 376 then ascii_of_nat 255
  else lowerChar (ascii_of_nat n).

(** The literal pattern [pat] matches at the start of [s], case ignored. *)
Fixpoint startsWithCI (s pat : str) : bool :=
  match pat, s with
  | [], _ => true
  | _ :: _, [] => false
  | a :: pat', b :: s' => canonEq a b && startsWithCI s' pat'
  end.

(** The first index at which the pattern matches, case ignored. *)
Fixpoint indexOfCI (s pat : str) : option nat :=
  if startsWithCI s pat then Some 0
  else match s with
       | [] => None
       | _ :: s' => option_map S (indexOfCI s' pat)
       end.

(** [new RegExp(source, 'gi')] for a source that is one capturing group
    around a literal pattern (see [newRegExp]): the text of the pattern.
    [None]: the source is not of that form. *)
Definition newCaptureRegExp (source : str) : option str :=
  match source with
  | c :: rest =>
      if Ascii.eqb c "("%char
      then match rev rest with
           | d :: inner =>
               if Ascii.eqb d ")"%char then newRegExp (rev inner) else None
           | [] => None
           end
      else None
  | [] => None
  end.

(** [text.split(regex)] for such a regular expression with a non-empty
    pattern: the pieces between the successive matches, each match itself (the
    capture) inserted after the piece it ends. *)
Fixpoint splitCapture_go (pat s : str) (skip : nat) (cur : str) : list str :=
  match s with
  | [] => [rev cur]
  | c :: s' =>
      match skip with
      | S k => splitCapture_go pat s' k cur
      | O =>
          if startsWithCI s pat
          then rev cur :: firstn (length pat) s
                       :: splitCapture_go pat s' (length pat - 1) []
          else splitCapture_go pat s' 0 (c :: cur)
      end
  end.

(** With the empty pattern the text is cut between all its characters, an
    empty capture between two pieces; the empty text gives no piece. *)
Fixpoint splitCaptureEmpty (s : str) : list str :=
  match s with
  | [] => []
  | [c] => [[c]]
  | c :: s' => [c] :: [] :: splitCaptureEmpty s'
  end.

Definition splitCapture (s pat : str) : list str :=
  match pat with
  | [] => splitCaptureEmpty s
  | _ :: _ => splitCapture_go pat s 0 []
  end.

(** [regex.test(part)] for the global regular expression, whose [lastIndex]
    is read and written: the search starts at [lastIndex]; a success leaves
    [lastIndex] after the match, a failure leaves 0. *)
Definition test (pat part : str) (lastIndex : nat) : bool * nat :=
  if length part <? lastIndex then (false, 0)
  else match indexOfCI (skipn lastIndex part) pat with
       | Some i => (true, lastIndex + i + length pat)
       | None => (false, 0)
       end.

Definition BOLD : str := lit "**".

(** The body of the loop over [parts] in SearchResults.tsx; the state is
    [result] and [regex.lastIndex]. *)
Definition rebuildStep (pat : str) (st : str * nat) (part : str) : str * nat :=
  let '(result, lastIndex) := st in
  let '(found, lastIndex) := test pat part lastIndex in
  if found
  then (result ++ BOLD ++ part ++ BOLD, 0)
  else (result ++ part, lastIndex).

(** [highlightSearchTerm(text, term)] of SearchResults.tsx.  [None] only if
    the pattern leaves the fragment of [newCaptureRegExp]. *)
Definition highlightSearchTerm (txt term : str) : option str :=
  if negb (truthy (trim term)) then Some txt
  else
    let escapedTerm := escapeRegExp (trim term) in
    match newCaptureRegExp (lit "(" ++ escapedTerm ++ lit ")") with
    | None => None
    | Some regex =>
        let parts := splitCapture txt regex in
        Some (fst (fold_left (rebuildStep regex) parts ([], 0)))
    end.

(** A part of the text as DebugPanel.tsx renders it: in a highlighting
    [span], or as it is. *)
Inductive Node : Type :=
| Span (part : str)
| Plain (part : str).

(** The callback of [parts.map] in DebugPanel.tsx; [lastIndex] is never
    reset by the code. *)
Definition markStep (pat : str) (st : list Node * nat) (part : str)
    : list Node * nat :=
  let '(nodes, lastIndex) := st in
  let '(found, lastIndex) := test pat part lastIndex in
  (nodes ++ [if found then Span part else Plain part], lastIndex).

(** [highlightSearchTerm(text, term)] of DebugPanel.tsx. *)
Definition highlightNodes (txt term : str) : option (list Node) :=
  if negb (truthy (trim term)) then Some [Plain txt]
  else
    match newCaptureRegExp (lit "(" ++ escapeRegExp (trim term) ++ lit ")") with
    | None => None
    | Some regex =>
        let parts := splitCapture txt regex in
        Some (fst (fold_left (markStep regex) parts ([], 0)))
    end.

(** [truncateText(text, maxLength)] of DebugPanel.tsx. *)
Definition truncateText (txt : str) (maxLength : nat) : str :=
  if length txt <=? maxLength then txt
  else substring0 txt maxLength ++ lit "...".

(** The text of a node, and the node in the notation of SearchResults.tsx:
    a highlighted part between two [**]. *)
Definition nodeText (n : Node) : str :=
  match n with
  | Span part => part
  | Plain part => part
  end.

Definition render (n : Node) : str :=
  match n with
  | Span part => BOLD ++ part ++ BOLD
  | Plain part => part
  end.

(** The successive non-overlapping occurrences of a pattern, case ignored,
    found from left to right, and the text between them; [fuel] bounds their
    number. *)
Fixpoint markOccurrences (fuel : nat) (s pat : str) : list Node :=
  match fuel with
  | O => [Plain s]
  | S fuel' =>
      match indexOfCI s pat with
      | None => [Plain s]
      | Some i =>
          Plain (firstn i s) :: Span (firstn (length pat) (skipn i s))
          :: markOccurrences fuel' (skipn (i + length pat) s) pat
      end
  end.

(** A highlighted node. *)
Definition isSpan (n : Node) : bool :=
  match n with
  | Span _ => true
  | Plain _ => false
  end.

End Highlight.

(** ** File sources: FileUpload.tsx, DataFolderSelector.tsx, SearchForm.tsx *)

Module Sources.

Import Search.

(** [s.endsWith(suffix)] *)
Definition endsWith (s suffix : str) : bool := startsWith (rev s) (rev suffix).

(** *** FileUpload.tsx *)

(** A [File] of the browser: [bf_text] is what [file.text()] resolves to,
    [None] when it rejects. *)
Record BrowserFile : Type := mkBrowserFile {
  bf_name : str;
  bf_type : str;
  bf_size : nat;
  bf_text : option str
}.

Definition noFile : BrowserFile :=
  {| bf_name := []; bf_type := []; bf_size := 0; bf_text := None |}.

(** [10 * 1024 * 1024] *)
Definition maxSize : nat := 10 * 1024 * 1024.

(** The negation of the first test of the loop. *)
Definition supportedType (file : BrowserFile) : bool :=
  includes (bf_type file) (lit "text")
  || endsWith (bf_name file) (lit ".md")
  || endsWith (bf_name file) (lit ".txt").

Definition DASH : str := lit "-".

(** One iteration of [for (let i = 0; i < fileList.length; i++)]; the state
    is [processedFiles] and [errors], and [now i] is the value of
    [Date.now()] in iteration [i]. *)
Definition uploadStep (now : nat -> nat) (fileList : list BrowserFile)
    (st : list FileData * list str) (i : nat) : list FileData * list str :=
  let '(processedFiles, errors) := st in
  let file := nth i fileList noFile in
  if negb (includes (bf_type file) (lit "text"))
     && negb (endsWith (bf_name file) (lit ".md"))
     && negb (endsWith (bf_name file) (lit ".txt"))
  then (processedFiles,
        errors ++ [bf_name file
                   ++ lit ": Unsupported file type. Please upload text or markdown files."])
  else if maxSize <? bf_size file
  then (processedFiles,
        errors ++ [bf_name file ++ lit ": File too large. Maximum size is 10MB."])
  else match bf_text file with
       | Some content =>
           (processedFiles
            ++ [{| file_id := bf_name file ++ DASH ++ showNat (now i) ++ DASH
                              ++ showNat i;
                   file_name := bf_name file;
                   file_content := content;
                   file_size := bf_size file;
                   file_type := if truthy (bf_type file) then bf_type file
                                else lit "text/plain" |}],
            errors)
       | None =>
           (processedFiles,
            errors ++ [bf_name file ++ lit ": Failed to read file content."])
       end.

(** What [processFiles] leaves: the component's [files] and [error], and the
    argument of [onFilesUploaded] when it is called. *)
Record Uploaded : Type := mkUploaded {
  up_files : list FileData;
  up_error : str;
  up_notified : option (list FileData)
}.

(** [processFiles(fileList)] with the component's state [files]. *)
Definition processFiles (now : nat -> nat) (files : list FileData)
    (fileList : list BrowserFile) : Uploaded :=
  let '(processedFiles, errors) :=
    fold_left (uploadStep now fileList) (seq 0 (length fileList)) ([], []) in
  let error := if 0 <? length errors then join errors [LF] else [] in
  if 0 <? length processedFiles
  then {| up_files := files ++ processedFiles;
          up_error := error;
          up_notified := Some (files ++ processedFiles) |}
  else {| up_files := files; up_error := error; up_notified := None |}.

(** [removeFile(fileId)]: the new [files], also passed to
    [onFilesUploaded]. *)
Definition removeFile (files : list FileData) (fileId : str) : list FileData :=
  filter (fun f => negb (strEq (file_id f) fileId)) files.

(** *** SearchForm.tsx *)

(** [handleSubmit]: the arguments of the call of [onSearch], if it is
    made. *)
Definition handleSubmit (searchTerm : str) (files : list FileData)
    : option (str * list str) :=
  if truthy (trim searchTerm) && (0 <? length files)
  then Some (trim searchTerm, map file_id files)
  else None.

(** *** DataFolderSelector.tsx *)

Record DataFolderFile : Type := mkDataFolderFile {
  df_name : str;
  df_path : str;
  df_size : nat;
  df_type : str
}.



(** A [Set] of strings, in insertion order. *)
Definition StringSet : Type := list str.

Definition has (s : StringSet) (x : str) : bool := existsb (strEq x) s.

Definition add (s : StringSet) (x : str) : StringSet :=
  if has s x then s else s ++ [x].

Definition delete (s : StringSet) (x : str) : StringSet :=
  filter (fun y => negb (strEq x y)) s.

(** [new Set(values)] *)
Definition newSet (values : list str) : StringSet := fold_left add values [].




(** [handleFileToggle(fileName)]: the new [selectedFiles]. *)
Definition handleFileToggle (selectedFiles : StringSet) (fileName : str)
    : StringSet :=
  if has selectedFiles fileName
  then delete selectedFiles fileName
  else add selectedFiles fileName.

(** [handleSelectAll()]: the new [selectedFiles]. *)
Definition handleSelectAll (availableFiles : list DataFolderFile)
    (selectedFiles : StringSet) : StringSet :=
  if length selectedFiles =? length availableFiles
  then []
  else newSet (map df_name availableFiles).

(** *** What the loops of the two file sources leave *)

(** A browser file that passes the three checks of the loop. *)
Definition accepted (file : BrowserFile) : bool :=
  supportedType file && (bf_size file <=? maxSize)
  && match bf_text file with Some _ => true | None => false end.

(** The entry made of an accepted file in iteration [i]. *)
Definition uploadEntry (now : nat -> nat) (ifile : nat * BrowserFile) : FileData :=
  let '(i, file) := ifile in
  {| file_id := bf_name file ++ DASH ++ showNat (now i) ++ DASH ++ showNat i;
     file_name := bf_name file;
     file_content := match bf_text file with Some content => content | None => [] end;
     file_size := bf_size file;
     file_type := if truthy (bf_type file) then bf_type file else lit "text/plain" |}.

(** [processedFiles] when the loop of [processFiles] ends. *)
Definition processedFiles (now : nat -> nat) (fileList : list BrowserFile)
    : list FileData :=
  fst (fold_left (uploadStep now fileList) (seq 0 (length fileList)) ([], [])).

(** [errors] when the loop of [processFiles] ends. *)
Definition uploadErrors (now : nat -> nat) (fileList : list BrowserFile)
    : list str :=
  snd (fold_left (uploadStep now fileList) (seq 0 (length fileList)) ([], [])).

(** The message pushed for a file that is not accepted. *)
Definition uploadError (file : BrowserFile) : str :=
  bf_name file
  ++ (if negb (supportedType file)
      then lit ": Unsupported file type. Please upload text or markdown files."
      else if maxSize <? bf_size file
      then lit ": File too large. Maximum size is 10MB."
      else lit ": Failed to read file content.").





End Sources.

(** ** Structured export: [createDocxTextRuns], [exportToDocx] (exportUtils.ts) *)

Module Docx.

Import Markdown.

Local Open Scope Z_scope.

(** The options of a [TextRun]. *)
Record TextRun : Type := mkTextRun {
  run_text : str;
  run_bold : bool;
  run_italics : bool;
  run_font : option str;
  run_shading : option str;
  run_size : option Z
}.

Definition plainRun (t : str) : TextRun :=
  {| run_text := t; run_bold := false; run_italics := false;
     run_font := None; run_shading := None; run_size := None |}.

Definition boldRun (t : str) : TextRun :=
  {| run_text := t; run_bold := true; run_italics := false;
     run_font := None; run_shading := None; run_size := None |}.

(** [element.level || 1] *)
Definition levelOr1 (level : option nat) : Z :=
  match level with
  | Some (S k) => Z.of_nat (S k)
  | _ => 1
  end.

(** The callback of [elements.map] in [createDocxTextRuns]. *)
Definition textRunOf (element : MarkdownElement) : TextRun :=
  match type element with
  | bold => boldRun (content element)
  | italic =>
      {| run_text := content element; run_bold := false; run_italics := true;
         run_font := None; run_shading := None; run_size := None |}
  | code =>
      {| run_text := content element; run_bold := false; run_italics := false;
         run_font := Some (lit "Courier New"); run_shading := Some (lit "F5F5F5");
         run_size := None |}
  | header =>
      {| run_text := content element; run_bold := true; run_italics := false;
         run_font := None; run_shading := None;
         run_size := Some (28 - levelOr1 (level element) * 2) |}
  | text => plainRun (content element)
  end.

Definition createDocxTextRuns (elements : list MarkdownElement) : list TextRun :=
  map textRunOf elements.

Inductive HeadingLevel : Type := TITLE | HEADING_1.

(** The options of a [Paragraph]. *)
Record Paragraph : Type := mkParagraph {
  par_text : option str;
  par_heading : option HeadingLevel;
  par_centered : bool;
  par_before : option nat;
  par_after : option nat;
  par_children : list TextRun;
  par_pageBreakBefore : bool;
  par_italics : bool
}.

(** A paragraph given by its text, heading and spacing. *)
Definition headingParagraph (t : str) (h : HeadingLevel) (centered : bool)
    (before after : option nat) : Paragraph :=
  {| par_text := Some t; par_heading := Some h; par_centered := centered;
     par_before := before; par_after := after; par_children := [];
     par_pageBreakBefore := false; par_italics := false |}.

(** A paragraph given by its runs and the spacing after it. *)
Definition runsParagraph (runs : list TextRun) (after : nat) : Paragraph :=
  {| par_text := None; par_heading := None; par_centered := false;
     par_before := None; par_after := Some after; par_children := runs;
     par_pageBreakBefore := false; par_italics := false |}.

(** [new Paragraph({ text: '', pageBreakBefore: true })] *)
Definition pageBreak : Paragraph :=
  {| par_text := Some []; par_heading := None; par_centered := false;
     par_before := None; par_after := None; par_children := [];
     par_pageBreakBefore := true; par_italics := false |}.

(** An element of the array [results]: an object, with its identity. *)
Record ResultObject : Type := mkResultObject {
  ref : nat;
  value : Search.SearchResult
}.

(** [results.indexOf(result)]: the first position holding the same object,
    [-1] if there is none. *)
Fixpoint indexOfObject (results : list ResultObject) (result : ResultObject) : Z :=
  match results with
  | [] => -1
  | r :: rest =>
      if (ref r =? ref result)%nat then 0
      else match indexOfObject rest result with
           | Zneg _ => -1
           | i => i + 1
           end
  end.

(** The callback of [result.foundParagraphs.forEach((paragraph, index) =>
    ...)]; [None] only if the tokenizer's loop does not finish. *)
Definition paragraphBlock (children : option (list Paragraph)) (ip : nat * str)
    : option (list Paragraph) :=
  match children with
  | None => None
  | Some children =>
      let '(index, paragraph) := ip in
      match parseMarkdown (trim paragraph) with
      | None => None
      | Some elements =>
          let textRuns := createDocxTextRuns elements in
          let paragraphRuns :=
            boldRun (showNat (index + 1) ++ lit ". ") :: textRuns in
          Some (children ++ [runsParagraph paragraphRuns 200])
      end
  end.

(** The body of [for (const result of results)]. *)
Definition resultBlock (results : list ResultObject)
    (children : option (list Paragraph)) (result : ResultObject)
    : option (list Paragraph) :=
  match children with
  | None => None
  | Some children =>
      let found := Search.foundParagraphs (value result) in
      let children :=
        children
        ++ [ headingParagraph (lit "Source: " ++ Search.res_fileName (value result))
                              HEADING_1 false (Some 600%nat) (Some 200%nat);
             runsParagraph
               [ boldRun (lit "Found paragraphs: ");
                 plainRun (showNat (length found));
                 plainRun (lit " of " ++ showNat (Search.totalParagraphs (value result))
                           ++ lit " total paragraphs") ]
               300 ] in
      let children :=
        if (length found =? 0)%nat
        then Some (children
                   ++ [{| par_text := Some (lit "No paragraphs found with the search term.");
                          par_heading := None; par_centered := false;
                          par_before := None; par_after := Some 300%nat;
                          par_children := []; par_pageBreakBefore := false;
                          par_italics := true |}])
        else fold_left paragraphBlock (Pdf.indexed found) (Some children) in
      match children with
      | None => None
      | Some children =>
          if indexOfObject results result <? Z.of_nat (length results) - 1
          then Some (children ++ [pageBreak])
          else Some children
      end
  end.

(** The paragraphs before the results: the title and the summary. *)
Definition preamble (results : list ResultObject) (searchTerm : str)
    : list Paragraph :=
  let totalParagraphs :=
    fold_left (fun sum result =>
                 (sum + length (Search.foundParagraphs (value result)))%nat)
              results 0%nat in
  let totalOccurrences :=
    fold_left (fun sum result => (sum + Search.occurrenceCount (value result))%nat)
              results 0%nat in
  [ headingParagraph (lit "Search Results for " ++ [Pdf.DQUOTE] ++ searchTerm
                      ++ [Pdf.DQUOTE])
                     TITLE true None (Some 400%nat);
    headingParagraph (lit "Search Summary") HEADING_1 false
                     (Some 400%nat) (Some 200%nat);
    runsParagraph [boldRun (lit "Files searched: ");
                   plainRun (showNat (length results))] 100;
    runsParagraph [boldRun (lit "Total paragraphs found: ");
                   plainRun (showNat totalParagraphs)] 100;
    runsParagraph [boldRun (lit "Total occurrences: ");
                   plainRun (showNat totalOccurrences)] 400 ].

(** [exportToDocx(results, searchTerm)]: the [children] of the one section of
    the document handed to the packer. *)
Definition exportToDocx (results : list ResultObject) (searchTerm : str)
    : option (list Paragraph) :=
  fold_left (resultBlock results) results (Some (preamble results searchTerm)).

(** The paragraphs written for one result, the page break apart: the
    heading with the file name, the line of counts, and one paragraph per
    found paragraph (its number, then the contents of its runs), or the one
    line saying that nothing was found. *)
Definition fileGroup (result : ResultObject) (paragraphs : list Paragraph) : Prop :=
  exists header stats body,
    paragraphs = header :: stats :: body
    /\ par_text header
       = Some (lit "Source: " ++ Search.res_fileName (value result))
    /\ Forall (fun p => par_pageBreakBefore p = false) paragraphs
    /\ match Search.foundParagraphs (value result) with
       | [] => exists line, body = [line] /\ par_italics line = true
       | found =>
           Forall2 (fun ip par =>
                      exists elements,
                        parseMarkdown (trim (snd ip)) = Some elements
                        /\ par_children par
                           = boldRun (showNat (fst ip + 1) ++ lit ". ")
                             :: createDocxTextRuns elements)
                   (Pdf.indexed found) body
       end.

(** Groups of paragraphs, a page break between two of them. *)
Fixpoint joinGroups (groups : list (list Paragraph)) : list Paragraph :=
  match groups with
  | [] => []
  | [g] => g
  | g :: gs => g ++ pageBreak :: joinGroups gs
  end.

End Docx.

(** ** Visible text *)

Module Visible.

(** The characters of a string that are not white space, in order. *)
Definition visible (s : str) : str := filter (fun c => negb (isWhiteSpace c)) s.

End Visible.


(* ================================================================== *)
(** * Part II: properties                                              *)
(* ================================================================== *)

Unset Implicit Arguments.

(** ** Strings *)

Module JsFacts.

Lemma startsWith_nil : forall s, startsWith s [] = true.
Proof. destruct s; reflexivity. Qed.

Lemma startsWith_single : forall c d s,
  startsWith (d :: s) [c] = Ascii.eqb c d.
Proof.
  intros c d s. simpl. rewrite startsWith_nil. apply andb_true_r.
Qed.

(** [startsWith] is the prefix test. *)
Lemma startsWith_app : forall p s, startsWith (p ++ s) p = true.
Proof.
  induction p as [|a p IH]; intros s; simpl.
  - apply startsWith_nil.
  - rewrite Ascii.eqb_refl. apply IH.
Qed.

Lemma startsWith_split : forall p s,
  startsWith s p = true -> s = p ++ skipn (length p) s.
Proof.
  induction p as [|a p IH]; intros s H; simpl in *.
  - reflexivity.
  - destruct s as [|b s]; [discriminate|].
    apply andb_true_iff in H. destruct H as [Hab Hrest].
    apply Ascii.eqb_eq in Hab. subst b. simpl. f_equal. now apply IH.
Qed.

Lemma startsWith_length : forall p s,
  startsWith s p = true -> length p <= length s.
Proof.
  intros p s H. apply startsWith_split in H.
  rewrite H, length_app. lia.
Qed.

(** [indexOf] finds an occurrence: the text splits around it. *)
Lemma indexOf_Some : forall p s i,
  indexOf s p = Some i ->
  i + length p <= length s /\
  skipn i s = p ++ skipn (i + length p) s.
Proof.
  intros p s. induction s as [|c s IH]; intros i H.
  - cbn [indexOf] in H. destruct (startsWith [] p) eqn:E; [|discriminate].
    injection H as <-. split.
    + apply startsWith_length in E. simpl in *. lia.
    + now apply startsWith_split in E.
  - cbn [indexOf] in H. destruct (startsWith (c :: s) p) eqn:E.
    + injection H as <-. split.
      * apply startsWith_length in E. simpl in *. lia.
      * now apply startsWith_split in E.
    + destruct (indexOf s p) as [j|] eqn:Ej; [|discriminate].
      injection H as <-. destruct (IH j eq_refl) as [Hlen Hsplit].
      split; [simpl; lia|]. simpl. exact Hsplit.
Qed.

(** No occurrence starts before the index found. *)
Lemma indexOf_first : forall p s i j,
  indexOf s p = Some i -> j < i -> startsWith (skipn j s) p = false.
Proof.
  intros p s. induction s as [|c s IH]; intros i j H Hj.
  - cbn [indexOf] in H. destruct (startsWith [] p); [|discriminate].
    injection H as <-. lia.
  - cbn [indexOf] in H. destruct (startsWith (c :: s) p) eqn:E.
    + injection H as <-. lia.
    + destruct (indexOf s p) as [k|] eqn:Ek; [|discriminate].
      injection H as <-. destruct j as [|j]; [exact E|].
      simpl. apply (IH k); [reflexivity | lia].
Qed.

Lemma indexOf_None : forall p s j,
  indexOf s p = None -> startsWith (skipn j s) p = false.
Proof.
  intros p s. induction s as [|c s IH]; intros j H.
  - cbn [indexOf] in H. destruct (startsWith [] p) eqn:E; [discriminate|].
    now destruct j.
  - cbn [indexOf] in H. destruct (startsWith (c :: s) p) eqn:E; [discriminate|].
    destruct (indexOf s p) eqn:Ek; [discriminate|].
    destruct j as [|j]; [exact E|]. simpl. now apply IH.
Qed.

Lemma includes_single : forall c s,
  includes s [c] = existsb (Ascii.eqb c) s.
Proof.
  intros c s. unfold includes. induction s as [|d s IH].
  - reflexivity.
  - cbn [indexOf]. rewrite startsWith_single. simpl.
    destruct (Ascii.eqb c d); [reflexivity|].
    simpl. rewrite <- IH. now destruct (indexOf s [c]).
Qed.

(** Splitting on one character gives one piece more than there are
    separators. *)
Lemma split_go_single_length : forall c s cur,
  length (split_go [c] s 0 cur) = S (length (filter (Ascii.eqb c) s)).
Proof.
  intros c s. induction s as [|d s IH]; intros cur.
  - reflexivity.
  - cbn [split_go]. rewrite startsWith_single. simpl filter.
    destruct (Ascii.eqb c d); simpl; now rewrite IH.
Qed.

Lemma split_single_length : forall c s,
  length (split s [c]) = S (length (filter (Ascii.eqb c) s)).
Proof. intros. apply split_go_single_length. Qed.

Lemma dropWhile_idem : forall f s, dropWhile f (dropWhile f s) = dropWhile f s.
Proof.
  induction s as [|c s IH]; simpl; [reflexivity|].
  destruct (f c) eqn:E; [exact IH|]. simpl. now rewrite E.
Qed.

Lemma dropWhile_map : forall f g s,
  (forall c, f (g c) = f c) ->
  dropWhile f (map g s) = map g (dropWhile f s).
Proof.
  intros f g s H. induction s as [|c s IH]; simpl; [reflexivity|].
  rewrite H. destruct (f c); [exact IH | reflexivity].
Qed.

(** A property of all 256 code units, by enumeration. *)
Ltac each_char c :=
  destruct c as [[] [] [] [] [] [] [] []]; reflexivity.

Lemma lowerChar_idem : forall c, lowerChar (lowerChar c) = lowerChar c.
Proof. intros c. each_char c. Qed.

Lemma lowerChar_space : forall c, isWhiteSpace (lowerChar c) = isWhiteSpace c.
Proof. intros c. each_char c. Qed.

Lemma toLowerCase_idem : forall s, toLowerCase (toLowerCase s) = toLowerCase s.
Proof.
  intros s. unfold toLowerCase. rewrite map_map.
  apply map_ext. apply lowerChar_idem.
Qed.

Lemma toLowerCase_length : forall s, length (toLowerCase s) = length s.
Proof. intros. apply length_map. Qed.

Lemma trim_toLowerCase : forall s, trim (toLowerCase s) = toLowerCase (trim s).
Proof.
  intros s. unfold trim, trimEnd, trimStart, toLowerCase.
  rewrite (dropWhile_map _ _ s lowerChar_space).
  rewrite <- map_rev, (dropWhile_map _ _ _ lowerChar_space).
  now rewrite map_rev.
Qed.

(** A trimmed text does not start with white space, and stays so when white
    space is removed at its end. *)
Lemma dropWhile_head : forall f s,
  match dropWhile f s with [] => True | c :: _ => f c = false end.
Proof.
  induction s as [|c s IH]; simpl; [exact I|].
  destruct (f c) eqn:E; [exact IH | exact E].
Qed.

Lemma dropWhile_fixed : forall f s,
  match s with [] => True | c :: _ => f c = false end -> dropWhile f s = s.
Proof.
  intros f [|c s] H; simpl; [reflexivity|]. now rewrite H.
Qed.

Lemma trimEnd_head : forall s,
  match s with [] => True | c :: _ => isWhiteSpace c = false end ->
  match trimEnd s with [] => True | c :: _ => isWhiteSpace c = false end.
Proof.
  intros s. unfold trimEnd.
  induction s as [|c s IH] using rev_ind; intros H; [exact I|].
  rewrite rev_app_distr. simpl.
  destruct (isWhiteSpace c) eqn:E.
  - apply IH. destruct s; [exact I|]. exact H.
  - simpl. rewrite rev_involutive. exact H.
Qed.

Lemma trimEnd_idem : forall s, trimEnd (trimEnd s) = trimEnd s.
Proof.
  intros s. unfold trimEnd. now rewrite rev_involutive, dropWhile_idem.
Qed.

Lemma trim_idem : forall s, trim (trim s) = trim s.
Proof.
  intros s. unfold trim at 1. unfold trimStart at 1.
  rewrite dropWhile_fixed.
  - unfold trim. apply trimEnd_idem.
  - unfold trim. apply trimEnd_head. apply dropWhile_head.
Qed.

(** [split] cuts the text at separators and loses nothing: joining the
    pieces with the separator gives the text back. *)
Lemma split_go_skip : forall sep s k cur,
  k <= length s -> split_go sep s k cur = split_go sep (skipn k s) 0 cur.
Proof.
  intros sep s. induction s as [|c s IH]; intros k cur Hk.
  - simpl in Hk. assert (k = 0) by lia. subst k. reflexivity.
  - destruct k as [|k]; [reflexivity|].
    simpl in Hk. cbn [split_go skipn]. apply IH. lia.
Qed.

Lemma split_go_cons : forall sep s k cur,
  exists p ps, split_go sep s k cur = p :: ps.
Proof.
  intros sep s. induction s as [|c s IH]; intros k cur; cbn [split_go].
  - now eexists _, _.
  - destruct k as [|k]; [|apply IH].
    destruct (startsWith (c :: s) sep); [now eexists _, _ | apply IH].
Qed.

Lemma join_split_go : forall n sep s cur,
  sep <> [] -> length s <= n ->
  join (split_go sep s 0 cur) sep = rev cur ++ s.
Proof.
  induction n as [|n IH]; intros sep s cur Hsep Hn.
  - destruct s; [|simpl in Hn; lia]. simpl. now rewrite app_nil_r.
  - destruct s as [|c s]; [simpl; now rewrite app_nil_r|].
    simpl in Hn. cbn [split_go].
    destruct (startsWith (c :: s) sep) eqn:E.
    + pose proof (startsWith_length _ _ E) as Hlen.
      pose proof (startsWith_split _ _ E) as Hsplit.
      destruct sep as [|a sep]; [contradiction|].
      simpl in Hlen. rewrite split_go_skip by (simpl; lia).
      cbn [length] in *. rewrite Nat.sub_succ, Nat.sub_0_r.
      cbn [skipn] in Hsplit.
      destruct (split_go_cons (a :: sep) (skipn (length sep) s) 0 [])
        as [p [ps Hps]].
      assert (Hrest : join (split_go (a :: sep) (skipn (length sep) s) 0 [])
                           (a :: sep) = skipn (length sep) s).
      { rewrite IH; [reflexivity | discriminate |].
        rewrite length_skipn. lia. }
      rewrite Hps in *.
      change (join (rev cur :: p :: ps) (a :: sep))
        with (rev cur ++ (a :: sep) ++ join (p :: ps) (a :: sep)).
      now rewrite Hrest, Hsplit.
    + rewrite IH by (try assumption; lia).
      simpl. now rewrite <- app_assoc.
Qed.

Lemma join_split : forall s sep, sep <> [] -> join (split s sep) sep = s.
Proof.
  intros s sep Hsep. unfold split.
  destruct sep as [|a sep]; [contradiction|].
  now rewrite (join_split_go (length s)).
Qed.

End JsFacts.

(** ** Segmentation Selector *)

Module SegmentationFacts.

Import Segmentation.

Lemma manyTinyb_spec : forall ps, manyTinyb ps = true <-> manyTiny ps.
Proof.
  intros ps. unfold manyTinyb, manyTiny.
  rewrite andb_true_iff, Nat.ltb_lt, existsb_exists.
  split; intros [H [p [Hin Hp]]]; (split; [exact H|]); exists p; split;
    try exact Hin; now apply Nat.ltb_lt.
Qed.

(** The three assignments of the source, read as one decision. *)
Lemma chooseMethod_decision : forall ms,
  let m0 := methodAt ms 0 in
  let m1 := methodAt ms 1 in
  chooseMethod ms =
  if (length (result m0) <? 3) && (length (result m0) <? length (result m1))
  then if manyTinyb (result m1) then m0 else m1
  else m0.
Proof.
  intros ms m0 m1. unfold chooseMethod. fold m0 m1. unfold manyTinyb.
  destruct ((length (result m0) <? 3) && (length (result m0) <? length (result m1))).
  - reflexivity.
  - now destruct ((50 <? length (result m0))
                  && existsb (fun p => length p <? 20) (result m0)).
Qed.

Lemma switch_spec : forall d s : list str,
  (length d <? 3) && (length d <? length s) = true
  <-> length d < 3 /\ length d < length s.
Proof.
  intros d s. now rewrite andb_true_iff, !Nat.ltb_lt.
Qed.

(** C1.  The selector returns the double-line-break candidate unless that
    candidate has fewer than 3 paragraphs and the single-line-break candidate
    has strictly more; in that case it returns the single-line-break candidate,
    except that it goes back to the double-line-break candidate when the
    single one has more than 50 paragraphs and one of them is shorter than 20
    characters.  The recorded method name follows the choice. *)
Theorem selector_precedence : forall text,
  let d := doubleCandidate text in
  let s := singleCandidate text in
  let r := splitTextIntoParagraphs text in
  let tooFew := length d < 3 /\ length d < length s in
  (~ tooFew ->
     paragraphs r = d
     /\ chosenMethod (splitInfo r) = lit "Double newline (\n\n)")
  /\ (tooFew -> ~ manyTiny s ->
     paragraphs r = s
     /\ chosenMethod (splitInfo r) = lit "Single newline (\n)")
  /\ (tooFew -> manyTiny s ->
     paragraphs r = d
     /\ chosenMethod (splitInfo r) = lit "Double newline (\n\n)").
Proof.
  intros text d s r tooFew.
  assert (Hr : paragraphs r = result (chooseMethod (methods (normalizeLineEndings text))))
    by reflexivity.
  assert (Hn : chosenMethod (splitInfo r)
               = name (chooseMethod (methods (normalizeLineEndings text))))
    by reflexivity.
  rewrite Hr, Hn, chooseMethod_decision.
  change (result (methodAt (methods (normalizeLineEndings text)) 0)) with d.
  change (result (methodAt (methods (normalizeLineEndings text)) 1)) with s.
  pose proof (switch_spec d s) as Hsw. fold tooFew in Hsw.
  pose proof (manyTinyb_spec s) as Hmt.
  destruct ((length d <? 3) && (length d <? length s)).
  - destruct (manyTinyb s).
    + repeat split; try reflexivity; intros; exfalso; tauto.
    + assert (~ manyTiny s) by (intros X; apply Hmt in X; discriminate).
      repeat split; try reflexivity; intros; exfalso; tauto.
  - assert (~ tooFew) by (intros X; apply Hsw in X; discriminate).
    repeat split; try reflexivity; intros; exfalso; tauto.
Qed.

(** The selector never returns the triple-line-break or the
    two-or-more-line-breaks candidate as such: its answer is one of the first
    two candidates. *)
Lemma selector_two_candidates : forall text,
  paragraphs (splitTextIntoParagraphs text) = doubleCandidate text
  \/ paragraphs (splitTextIntoParagraphs text) = singleCandidate text.
Proof.
  intros text.
  change (paragraphs (splitTextIntoParagraphs text))
    with (result (chooseMethod (methods (normalizeLineEndings text)))).
  rewrite chooseMethod_decision.
  destruct (_ && _); [|now left].
  destruct (manyTinyb _); [now left | now right].
Qed.

(** The scenario of the specification on [hundredLines]: the
    double-line-break candidate has one paragraph and the single-line-break
    candidate 100 short ones; the selector goes to the latter and then
    back. *)
Lemma scenario_many_short_lines :
  length hundredLines = 2000
  /\ length (doubleCandidate hundredLines) = 1
  /\ length (singleCandidate hundredLines) = 100
  /\ paragraphs (splitTextIntoParagraphs hundredLines) = doubleCandidate hundredLines
  /\ chosenMethod (splitInfo (splitTextIntoParagraphs hundredLines))
     = lit "Double newline (\n\n)".
Proof. vm_compute. repeat split. Qed.

(** The scenario of three paragraphs separated by blank lines. *)
Lemma scenario_three_paragraphs :
  paragraphs (splitTextIntoParagraphs
                (lit "para one" ++ [LF; LF] ++ lit "para two" ++ [LF; LF]
                 ++ lit "para three"))
  = [lit "para one"; lit "para two"; lit "para three"].
Proof. reflexivity. Qed.

End SegmentationFacts.

(** ** Section Restructurer *)

Module RestructureFacts.

Import Restructure JsFacts.

Lemma normalizeTerm_idempotent : forall term,
  normalizeTerm (normalizeTerm term) = normalizeTerm term.
Proof.
  intros term. unfold normalizeTerm.
  now rewrite trim_toLowerCase, trim_idem, toLowerCase_idem.
Qed.

(** The trigger of the source is a test on the number of pipes alone. *)
Lemma split_pipe_length : forall paragraph,
  length (split paragraph PIPE) = S (pipeCount paragraph).
Proof. intros. apply split_single_length. Qed.

Lemma trigger_spec : forall paragraph,
  includes paragraph PIPE && (3 <=? length (split paragraph PIPE)) = true
  <-> 2 <= pipeCount paragraph.
Proof.
  intros paragraph. rewrite split_pipe_length, andb_true_iff, Nat.leb_le.
  split; [lia|]. intros H. split; [|lia].
  unfold PIPE. change (lit "|") with ["|"%char].
  rewrite includes_single. unfold pipeCount in H.
  destruct (existsb (Ascii.eqb "|"%char) paragraph) eqn:E; [reflexivity|].
  exfalso. assert (Hnil : filter (Ascii.eqb "|"%char) paragraph = []).
  { clear H. induction paragraph as [|c p IH]; [reflexivity|].
    simpl in *. apply orb_false_iff in E. destruct E as [E1 E2].
    rewrite E1. now apply IH. }
  rewrite Hnil in H. simpl in H. lia.
Qed.

Lemma skipn_cons_nth : forall (A : Type) (d : A) (l : list A) (k : nat),
  k < length l -> skipn k l = nth k l d :: skipn (S k) l.
Proof.
  intros A d l. induction l as [|x l IH]; intros k Hk; simpl in Hk; [lia|].
  destruct k as [|k]; [reflexivity|].
  simpl. apply IH. lia.
Qed.

(** The loop keeps the sections that pass the test, in order. *)
Lemma loop_keeps : forall sents nt m k parts selected,
  k + m <= length sents ->
  fst (fold_left (loopBody sents nt) (seq k m) (parts, selected))
  = parts ++ filter (containsTerm nt) (firstn m (skipn k sents)).
Proof.
  intros sents nt m. induction m as [|m IH]; intros k parts selected Hk.
  - simpl. now rewrite app_nil_r.
  - cbn [seq fold_left].
    rewrite (skipn_cons_nth str [] sents k) by lia.
    cbn [firstn filter]. unfold loopBody at 2.
    change (includes (toLowerCase (nth k sents [])) nt)
      with (containsTerm nt (nth k sents [])).
    destruct (containsTerm nt (nth k sents [])).
    + rewrite IH by lia. now rewrite <- app_assoc.
    + now rewrite IH by lia.
Qed.

Lemma processed_triggered : forall paragraph term fname index,
  2 <= pipeCount paragraph ->
  processed (processFoundParagraph paragraph term fname index)
  = join (nth 0 (sections paragraph) []
          :: filter (containsTerm (normalizeTerm term)) (skipn 1 (sections paragraph)))
         (lit " ").
Proof.
  intros paragraph term fname index H.
  unfold processFoundParagraph. apply trigger_spec in H as Ht. rewrite Ht.
  fold (sections paragraph).
  pose proof (loop_keeps (sections paragraph) (normalizeTerm term)
                (length (sections paragraph) - 1) 1
                [nth 0 (sections paragraph) []]
                [lit "[BASE] " ++ nth 0 (sections paragraph) []]) as Hloop.
  assert (Hlen : length (sections paragraph) = S (pipeCount paragraph)).
  { unfold sections. now rewrite length_map, split_pipe_length. }
  destruct (fold_left _ _ _) as [parts selected]. simpl processed.
  simpl fst in Hloop. rewrite Hloop by lia.
  rewrite firstn_all2; [reflexivity|]. rewrite length_skipn. lia.
Qed.

Lemma processed_untriggered : forall paragraph term fname index,
  pipeCount paragraph < 2 ->
  processed (processFoundParagraph paragraph term fname index) = paragraph.
Proof.
  intros paragraph term fname index H.
  unfold processFoundParagraph.
  destruct (includes paragraph PIPE && (3 <=? length (split paragraph PIPE))) eqn:E.
  - apply trigger_spec in E. lia.
  - reflexivity.
Qed.

(** C2.  For a paragraph with at least two pipe characters and a normalized
    term, the restructurer returns the first section (trimmed, kept whatever it
    contains) followed by exactly those later trimmed sections whose lower-cased
    form contains the term, in their order, joined by single spaces. *)
Theorem restructure_triggered : forall paragraph nt,
  normalizeTerm nt = nt ->
  2 <= pipeCount paragraph ->
  exists base rest,
    sections paragraph = base :: rest
    /\ 2 <= length rest
    /\ restructure paragraph nt
       = join (base :: filter (containsTerm nt) rest) (lit " ").
Proof.
  intros paragraph nt Hnt H. unfold restructure.
  rewrite processed_triggered by exact H. rewrite Hnt.
  assert (Hlen : length (sections paragraph) = S (pipeCount paragraph)).
  { unfold sections. now rewrite length_map, split_pipe_length. }
  destruct (sections paragraph) as [|base rest]; [discriminate|].
  exists base, rest. simpl in Hlen. split; [reflexivity|]. split; [lia|reflexivity].
Qed.

Lemma restructure_triggered_witness :
  exists base rest,
    sections (lit "Intro | has searchterm here | no match | also searchterm")
    = base :: rest
    /\ 2 <= length rest
    /\ restructure (lit "Intro | has searchterm here | no match | also searchterm")
                   (lit "searchterm")
       = join (base :: filter (containsTerm (lit "searchterm")) rest) (lit " ").
Proof.
  apply (restructure_triggered
           (lit "Intro | has searchterm here | no match | also searchterm")
           (lit "searchterm")).
  - reflexivity.
  - vm_compute. lia.
Defined.

(** The scenario of the specification. *)
Lemma scenario_restructure :
  restructure (lit "Intro | has searchterm here | no match | also searchterm")
              (lit "searchterm")
  = lit "Intro has searchterm here also searchterm".
Proof. reflexivity. Qed.

(** C3.  A paragraph with fewer than two pipe characters is returned as it
    is, whatever the term: not trimmed, not lower-cased. *)
Theorem restructure_identity : forall paragraph term,
  pipeCount paragraph < 2 ->
  restructure paragraph term = paragraph.
Proof.
  intros paragraph term H. unfold restructure.
  now apply processed_untriggered.
Qed.

Lemma restructure_identity_witness :
  restructure (lit "  One | PIPE only  ") (lit "pipe") = lit "  One | PIPE only  ".
Proof.
  apply (restructure_identity (lit "  One | PIPE only  ") (lit "pipe")).
  vm_compute. lia.
Defined.

End RestructureFacts.

(** ** Term Matcher and search loop *)

Module SearchFacts.

Import Segmentation Restructure Search JsFacts RestructureFacts.

(** *** The escaped term is a literal pattern *)

Lemma escape_class_is_syntax : forall c, inEscapeClass c = isSyntaxCharacter c.
Proof. intros c. each_char c. Qed.

Lemma backslash_in_class : forall c,
  inEscapeClass c || negb (Ascii.eqb c "\"%char) = true.
Proof. intros c. each_char c. Qed.

(** Whatever the term, metacharacters included, the pattern built from it
    matches exactly the term. *)
Lemma newRegExp_escape : forall term, newRegExp (escapeRegExp term) = Some term.
Proof.
  induction term as [|c term IH]; [reflexivity|].
  unfold escapeRegExp in *. cbn [flat_map].
  destruct (inEscapeClass c) eqn:E.
  - cbn [app newRegExp]. rewrite Ascii.eqb_refl.
    rewrite <- escape_class_is_syntax, E, IH. reflexivity.
  - pose proof (backslash_in_class c) as Hb. rewrite E in Hb. simpl in Hb.
    apply negb_true_iff in Hb.
    cbn [app newRegExp]. rewrite Hb, <- escape_class_is_syntax, E, IH.
    reflexivity.
Qed.

(** *** Global matching is left-to-right non-overlapping scanning *)

Lemma matchAll_go_skip : forall pat s k,
  k <= length s -> matchAll_go pat s k = matchAll_go pat (skipn k s) 0.
Proof.
  intros pat s. induction s as [|c s IH]; intros k Hk.
  - simpl in Hk. assert (k = 0) by lia. subst k. reflexivity.
  - destruct k as [|k]; [reflexivity|].
    simpl in Hk. cbn [matchAll_go skipn]. apply IH. lia.
Qed.

Lemma indexOf_cons_None : forall pat c s,
  indexOf (c :: s) pat = None ->
  startsWith (c :: s) pat = false /\ indexOf s pat = None.
Proof.
  intros pat c s H. cbn [indexOf] in H.
  destruct (startsWith (c :: s) pat); [discriminate|].
  destruct (indexOf s pat); [discriminate|]. now split.
Qed.

Lemma matchAll_none : forall pat s,
  pat <> [] -> indexOf s pat = None -> matchAll_go pat s 0 = [].
Proof.
  intros pat s Hpat. induction s as [|c s IH]; intros H.
  - destruct pat; [contradiction | reflexivity].
  - apply indexOf_cons_None in H. destruct H as [H1 H2].
    cbn [matchAll_go]. rewrite H1. now apply IH.
Qed.

Lemma matchAll_some : forall pat s i,
  pat <> [] -> indexOf s pat = Some i ->
  matchAll_go pat s 0 = pat :: matchAll_go pat (skipn (i + length pat) s) 0.
Proof.
  intros pat s. induction s as [|c s IH]; intros i Hpat H.
  - cbn [indexOf] in H. destruct (startsWith [] pat) eqn:E; [|discriminate].
    destruct pat; [contradiction | discriminate].
  - cbn [indexOf] in H. destruct (startsWith (c :: s) pat) eqn:E.
    + injection H as <-. cbn [matchAll_go]. rewrite E. f_equal.
      apply startsWith_length in E.
      destruct pat as [|a pat]; [contradiction|].
      simpl in E. rewrite matchAll_go_skip by (simpl; lia).
      simpl. now rewrite Nat.sub_0_r.
    + destruct (indexOf s pat) as [j|] eqn:Ej; [|discriminate].
      injection H as <-. cbn [matchAll_go]. rewrite E.
      now rewrite (IH j Hpat eq_refl).
Qed.

Lemma matchAll_scanCount : forall pat fuel s,
  pat <> [] -> length s <= fuel ->
  length (matchAll s pat) = scanCount fuel s pat.
Proof.
  intros pat fuel. unfold matchAll.
  induction fuel as [|fuel IH]; intros s Hpat Hlen.
  - destruct s; [|simpl in Hlen; lia].
    destruct pat; [contradiction | reflexivity].
  - cbn [scanCount]. destruct (indexOf s pat) as [i|] eqn:E.
    + rewrite (matchAll_some pat s i Hpat E). simpl. f_equal.
      apply IH; [exact Hpat|].
      apply indexOf_Some in E. destruct E as [E _].
      rewrite length_skipn.
      destruct pat; [contradiction|]. simpl in *. lia.
    + now rewrite matchAll_none.
Qed.

(** *** The code's count is the specification's count *)

Lemma paragraphOccurrences_count : forall paragraph nt,
  nt <> [] ->
  paragraphOccurrences paragraph nt = Some (count_occurrences paragraph nt).
Proof.
  intros paragraph nt Hnt. unfold paragraphOccurrences, matchGlobal.
  rewrite newRegExp_escape. unfold count_occurrences.
  rewrite <- (matchAll_scanCount nt (length paragraph) (toLowerCase paragraph) Hnt)
    by (rewrite toLowerCase_length; lia).
  now destruct (matchAll (toLowerCase paragraph) nt).
Qed.

(** A paragraph matches exactly when its count is positive. *)
Lemma matches_count : forall paragraph nt,
  nt <> [] ->
  matches paragraph nt = (0 <? count_occurrences paragraph nt).
Proof.
  intros paragraph nt Hnt. unfold matches, includes, count_occurrences.
  destruct paragraph as [|c p].
  - destruct nt; [contradiction | reflexivity].
  - cbn [length scanCount].
    now destruct (indexOf (toLowerCase (c :: p)) nt).
Qed.

Lemma normalizeTerm_nonempty : forall term,
  trim term <> [] -> normalizeTerm term <> [].
Proof.
  intros term H E. apply H. unfold normalizeTerm, toLowerCase in E.
  now apply map_eq_nil in E.
Qed.

(** *** The loops *)

Lemma processed_restructure : forall paragraph term fname index,
  processed (processFoundParagraph paragraph term fname index)
  = restructure paragraph term.
Proof.
  intros. unfold restructure, processFoundParagraph.
  destruct (includes paragraph PIPE && (3 <=? length (split paragraph PIPE)));
    [|reflexivity].
  now destruct (fold_left _ _ _).
Qed.

Section Loops.

Variable stringify : SplitInfo -> str.
Variable files : list FileData.
Variable term : str.
Hypothesis term_nonblank : trim term <> [].

Let nt := normalizeTerm term.

Let positive (p : str) : bool := 0 <? count_occurrences p nt.

(** The paragraph loop of one file, from paragraph [k] on for [m] steps. *)
Lemma paragraph_loop : forall file ps m k found dbg count,
  k + m <= length ps ->
  exists dbg',
    fold_left (paragraphStep file term nt ps) (seq k m) (Some (found, dbg, count))
    = Some (found ++ map (fun p => restructure p term)
                         (filter positive (firstn m (skipn k ps))),
            dbg ++ dbg',
            count + list_sum (map (fun p => count_occurrences p nt)
                                  (firstn m (skipn k ps))))
    /\ Forall (fun d => dbg_fileName d = file_name file) dbg'.
Proof.
  intros file ps m. induction m as [|m IH]; intros k found dbg count Hk.
  - exists []. simpl. rewrite !app_nil_r, Nat.add_0_r. now split.
  - cbn [seq fold_left].
    rewrite (skipn_cons_nth str [] ps k) by lia.
    cbn [firstn filter map list_sum fold_right].
    unfold paragraphStep at 2.
    assert (Hnt : nt <> []) by (apply normalizeTerm_nonempty, term_nonblank).
    change (includes (toLowerCase (nth k ps [])) nt) with (matches (nth k ps []) nt).
    rewrite (matches_count _ _ Hnt). fold (positive (nth k ps [])).
    destruct (positive (nth k ps [])) eqn:E.
    + rewrite (paragraphOccurrences_count _ _ Hnt), processed_restructure.
      destruct (IH (S k) (found ++ [restructure (nth k ps []) term])
                   (dbg ++ [{| dbg_fileName := file_name file;
                               dbg_paragraphIndex := k + 1;
                               dbg_originalParagraph := nth k ps [];
                               dbg_processedParagraph := restructure (nth k ps []) term;
                               debugDetails :=
                                 {| details :=
                                      debug (processFoundParagraph (nth k ps []) term
                                               (file_name file) (k + 1));
                                    details_splitInfo := None |} |}])
                   (count + count_occurrences (nth k ps []) nt))
        as [dbg' [Hfold Hnames]]; [lia|].
      eexists (_ :: dbg'). rewrite Hfold. split.
      * rewrite <- !app_assoc. cbn [map app]. now rewrite Nat.add_assoc.
      * constructor; [reflexivity | exact Hnames].
    + destruct (IH (S k) found dbg count) as [dbg' [Hfold Hnames]]; [lia|].
      exists dbg'. rewrite Hfold. split; [|exact Hnames].
      unfold positive in E. apply Nat.ltb_ge in E.
      assert (count_occurrences (nth k ps []) nt = 0) as -> by lia.
      reflexivity.
Qed.

(** One file: the result the specification describes. *)
Lemma file_step : forall results dbg fileId file,
  findFile files fileId = Some file ->
  exists dbg',
    fileStep stringify files term nt (Some (results, dbg)) fileId
    = Some (results ++ [matchResult term file], dbg ++ dbg')
    /\ Forall (fun d => dbg_fileName d = file_name file) dbg'.
Proof.
  intros results dbg fileId file Hfind. unfold fileStep. rewrite Hfind.
  set (ps := paragraphs (splitTextIntoParagraphs (file_content file))).
  destruct (paragraph_loop file ps (length ps) 0 []
              (dbg ++ [fileDebugInfo stringify file nt ps
                         (splitInfo (splitTextIntoParagraphs (file_content file)))])
              0) as [dbg' [Hfold Hnames]]; [lia|].
  rewrite Hfold. eexists (_ :: dbg'). split.
  - rewrite <- app_assoc. cbn [app skipn]. rewrite firstn_all.
    reflexivity.
  - constructor; [reflexivity | exact Hnames].
Qed.

Lemma file_step_missing : forall st fileId,
  findFile files fileId = None ->
  fileStep stringify files term nt st fileId = st.
Proof.
  intros [[results dbg]|] fileId H; unfold fileStep; [|reflexivity].
  now rewrite H.
Qed.

(** The loop over the requested identifiers. *)
Lemma file_loop : forall ids results dbg,
  exists dbg',
    fold_left (fileStep stringify files term nt) ids (Some (results, dbg))
    = Some (results ++ map (matchResult term) (requested files ids), dbg ++ dbg')
    /\ Forall (fun d => exists f, In f (requested files ids)
                                  /\ dbg_fileName d = file_name f) dbg'.
Proof.
  induction ids as [|fileId ids IH]; intros results dbg.
  - exists []. simpl. rewrite !app_nil_r. now split.
  - cbn [fold_left]. unfold requested. cbn [flat_map]. fold (requested files ids).
    destruct (findFile files fileId) as [file|] eqn:Hfind.
    + destruct (file_step results dbg fileId file Hfind) as [d1 [H1 N1]].
      rewrite H1.
      destruct (IH (results ++ [matchResult term file]) (dbg ++ d1)) as [d2 [H2 N2]].
      rewrite H2. exists (d1 ++ d2). split.
      * rewrite <- !app_assoc. reflexivity.
      * apply Forall_app. split.
        -- eapply Forall_impl; [|exact N1]. intros d Hd.
           exists file. split; [now left | exact Hd].
        -- eapply Forall_impl; [|exact N2]. intros d [f [Hin Hd]].
           exists f. split; [now right | exact Hd].
    + rewrite file_step_missing by exact Hfind.
      destruct (IH results dbg) as [d2 [H2 N2]].
      exists d2. rewrite H2. split; [reflexivity | exact N2].
Qed.

End Loops.

Lemma requested_skip : forall files ids1 missing ids2,
  findFile files missing = None ->
  requested files (ids1 ++ missing :: ids2) = requested files (ids1 ++ ids2).
Proof.
  intros files ids1 missing ids2 H. unfold requested.
  rewrite !flat_map_app. cbn [flat_map]. now rewrite H.
Qed.

Lemma guard_passes : forall term (ids : list str),
  trim term <> [] -> ids <> [] ->
  negb (truthy (trim term)) || (length ids =? 0) = false.
Proof.
  intros term ids Ht Hi.
  destruct (trim term); [contradiction|].
  destruct ids; [contradiction | reflexivity].
Qed.

(** C4.  For a search with a non-blank term and [nt] its normalized form:
    a paragraph matches exactly when its count of occurrences is positive (so
    the count of a paragraph without a match is 0); the number the code gets
    from the global regular expression built from the escaped term is the
    non-overlapping left-to-right literal count in the lower-cased original
    paragraph, also when the term contains metacharacters; and the found
    paragraphs of every document are the restructured forms of exactly the
    paragraphs whose count on the original text is positive, in order. *)
Theorem found_iff_count_positive : forall stringify files term ids,
  trim term <> [] -> ids <> [] ->
  let nt := normalizeTerm term in
  (forall p, matches p nt = (0 <? count_occurrences p nt))
  /\ (forall p, matches p nt = false -> count_occurrences p nt = 0)
  /\ (forall p, paragraphOccurrences p nt = Some (count_occurrences p nt))
  /\ (forall file,
        foundParagraphs (matchResult term file)
        = map (fun p => restructure p term)
              (filter (fun p => 0 <? count_occurrences p nt)
                      (paragraphs (splitTextIntoParagraphs (file_content file)))))
  /\ exists allDebugInfo,
       handleSearch stringify files term ids
       = Some (Completed (map (matchResult term) (requested files ids))
                         allDebugInfo).
Proof.
  intros stringify files term ids Hterm Hids nt.
  assert (Hnt : nt <> []) by now apply normalizeTerm_nonempty.
  split; [|split; [|split; [|split]]].
  - intros p. now apply matches_count.
  - intros p Hp. rewrite (matches_count p nt Hnt) in Hp.
    apply Nat.ltb_ge in Hp. lia.
  - intros p. now apply paragraphOccurrences_count.
  - reflexivity.
  - unfold handleSearch. rewrite (guard_passes term ids Hterm Hids).
    destruct (file_loop stringify files term Hterm ids [] []) as [dbg [H _]].
    fold nt in H. change (toLowerCase (trim term)) with nt.
    rewrite H. now exists dbg.
Qed.

Lemma found_iff_count_positive_witness :
  let files := [sampleFile] in
  let term := lit " A.B " in
  let ids := [lit "doc-1"] in
  let nt := normalizeTerm term in
  (forall p, matches p nt = (0 <? count_occurrences p nt))
  /\ (forall p, matches p nt = false -> count_occurrences p nt = 0)
  /\ (forall p, paragraphOccurrences p nt = Some (count_occurrences p nt))
  /\ (forall file,
        foundParagraphs (matchResult term file)
        = map (fun p => restructure p term)
              (filter (fun p => 0 <? count_occurrences p nt)
                      (paragraphs (splitTextIntoParagraphs (file_content file)))))
  /\ exists allDebugInfo,
       handleSearch noStringify files term ids
       = Some (Completed (map (matchResult term) (requested files ids))
                         allDebugInfo).
Proof.
  apply (found_iff_count_positive noStringify [sampleFile] (lit " A.B ") [lit "doc-1"]).
  - vm_compute. discriminate.
  - discriminate.
Defined.

(** The term [a.b] is matched as text: [axb] is no occurrence, and the
    sample document has two paragraphs of three with an occurrence, three
    occurrences in all. *)
Lemma scenario_literal_term :
  map (fun r => (foundParagraphs r, totalParagraphs r, occurrenceCount r))
      (map (matchResult (lit " A.B ")) (requested [sampleFile] [lit "doc-1"]))
  = [([lit "x a.b y A.B"; lit "head a.b"], 3, 3)].
Proof. vm_compute. reflexivity. Qed.

(** C8, as the code has it.  A requested identifier without a document is
    passed over in silence: the search over the other identifiers completes,
    and its results and its diagnostic entries are exactly those of the search
    in which the identifier was not requested at all. *)
Theorem missing_document_skipped : forall stringify files term ids1 missing ids2,
  trim term <> [] ->
  findFile files missing = None ->
  exists results allDebugInfo,
    handleSearch stringify files term (ids1 ++ missing :: ids2)
    = Some (Completed results allDebugInfo)
    /\ fold_left (fileStep stringify files term (normalizeTerm term))
                 (ids1 ++ ids2) (Some ([], []))
       = Some (results, allDebugInfo)
    /\ results = map (matchResult term) (requested files (ids1 ++ ids2))
    /\ Forall (fun d => exists f, In f files /\ dbg_fileName d = file_name f)
              allDebugInfo.
Proof.
  intros stringify files term ids1 missing ids2 Hterm Hmiss.
  unfold handleSearch.
  rewrite (guard_passes term (ids1 ++ missing :: ids2) Hterm)
    by (destruct ids1; discriminate).
  change (toLowerCase (trim term)) with (normalizeTerm term).
  rewrite !fold_left_app. cbn [fold_left].
  destruct (file_loop stringify files term Hterm ids1 [] []) as [d1 [H1 N1]].
  rewrite H1, file_step_missing by exact Hmiss.
  destruct (file_loop stringify files term Hterm ids2
              ([] ++ map (matchResult term) (requested files ids1)) ([] ++ d1))
    as [d2 [H2 N2]].
  rewrite H2. do 2 eexists. split; [reflexivity|]. split; [reflexivity|]. split.
  - unfold requested. now rewrite flat_map_app, map_app.
  - assert (Hsub : forall ids f, In f (requested files ids) -> In f files).
    { intros ids f Hin. unfold requested in Hin. apply in_flat_map in Hin.
      destruct Hin as [fid [_ Hf]].
      destruct (findFile files fid) as [g|] eqn:Hg; [|contradiction].
      destruct Hf as [<-|[]]. unfold findFile in Hg.
      now apply find_some in Hg. }
    apply Forall_app. split; [apply Forall_app; split; [constructor|]|].
    + eapply Forall_impl; [|exact N1]. intros d [f [Hin Hd]].
      exists f. split; [now apply (Hsub ids1) | exact Hd].
    + eapply Forall_impl; [|exact N2]. intros d [f [Hin Hd]].
      exists f. split; [now apply (Hsub ids2) | exact Hd].
Qed.

Lemma missing_document_skipped_witness :
  exists results allDebugInfo,
    handleSearch noStringify [sampleFile] (lit "a.b")
                 ([] ++ lit "ghost" :: [lit "doc-1"])
    = Some (Completed results allDebugInfo)
    /\ fold_left (fileStep noStringify [sampleFile] (lit "a.b")
                           (normalizeTerm (lit "a.b")))
                 ([] ++ [lit "doc-1"]) (Some ([], []))
       = Some (results, allDebugInfo)
    /\ results = map (matchResult (lit "a.b"))
                     (requested [sampleFile] ([] ++ [lit "doc-1"]))
    /\ Forall (fun d => exists f, In f [sampleFile] /\ dbg_fileName d = file_name f)
              allDebugInfo.
Proof.
  apply (missing_document_skipped noStringify [sampleFile] (lit "a.b")
           [] (lit "ghost") [lit "doc-1"]).
  - vm_compute. discriminate.
  - reflexivity.
Defined.

(** C8, as stated, fails: the identifier [ghost] has no document, the search
    completes, and no diagnostic entry at all has been recorded. *)
Lemma missing_document_no_diagnostic :
  handleSearch noStringify [] (lit "a.b") [lit "ghost"] = Some (Completed [] [])
  /\ ~ (exists results allDebugInfo d,
          handleSearch noStringify [] (lit "a.b") [lit "ghost"]
          = Some (Completed results allDebugInfo)
          /\ In d allDebugInfo).
Proof.
  split; [reflexivity|].
  intros [results [dbg [d [H Hin]]]].
  vm_compute in H. injection H as <- <-. exact Hin.
Qed.

End SearchFacts.

(** ** Inline Markup Tokenizer *)

Module MarkdownFacts.

Import Markdown JsFacts.

(** *** Lists and cursors *)

Lemma strEq_eq : forall a b, strEq a b = true -> a = b.
Proof.
  induction a as [|x a IH]; intros [|y b] H; simpl in H; try discriminate.
  - reflexivity.
  - apply andb_true_iff in H. destruct H as [H1 H2].
    apply Ascii.eqb_eq in H1. subst y. f_equal. now apply IH.
Qed.

Lemma charAt_skipn : forall txt i c,
  isChar (charAt txt i) c = true -> skipn i txt = c :: skipn (S i) txt.
Proof.
  intros txt i c H. unfold isChar, charAt in H.
  destruct (nth_error txt i) as [d|] eqn:E; [|discriminate].
  apply Ascii.eqb_eq in H. subst d.
  revert i E. induction txt as [|x txt IH]; intros [|i] E; simpl in E;
    try discriminate.
  - now injection E as ->.
  - simpl. now apply IH.
Qed.

Lemma charAt_lt : forall txt i c,
  isChar (charAt txt i) c = true -> i < length txt.
Proof.
  intros txt i c H. unfold isChar, charAt in H.
  destruct (nth_error txt i) eqn:E; [|discriminate].
  apply nth_error_Some. congruence.
Qed.

Lemma skipn_charAt : forall txt i c rest,
  skipn i txt = c :: rest -> charAt txt i = Some c.
Proof.
  intros txt. induction txt as [|x txt IH]; intros [|i] c rest H; simpl in H;
    try discriminate.
  - now injection H as -> _.
  - now apply (IH i c rest).
Qed.

Lemma firstn_length_exact : forall (l : str) n,
  n <= length l -> length (firstn n l) = n.
Proof. intros. rewrite length_firstn. lia. Qed.

Lemma firstn_add : forall (l : str) n m,
  firstn (n + m) l = firstn n l ++ firstn m (skipn n l).
Proof.
  intros l n. revert l. induction n as [|n IH]; intros l m; [reflexivity|].
  destruct l as [|c l]; simpl.
  - now rewrite firstn_nil.
  - f_equal. apply IH.
Qed.

(** A match of length [n] at the cursor: what is left is the text from
    [i + n] on. *)
Lemma skipn_app_cursor : forall (txt src rest : str) i,
  skipn i txt = src ++ rest -> i <= length txt ->
  rest = skipn (i + length src) txt /\ i + length src <= length txt.
Proof.
  intros txt src rest i H Hi.
  assert (Hlen : length (skipn i txt) = length src + length rest)
    by (rewrite H; apply length_app).
  rewrite length_skipn in Hlen. split; [|lia].
  rewrite Nat.add_comm, <- skipn_skipn, H.
  rewrite skipn_app, skipn_all, Nat.sub_diag. reflexivity.
Qed.

(** *** Backtracking searches *)

Lemma firstDown_Some : forall (A : Type) (f : nat -> option A) lo n r,
  firstDown lo n f = Some r ->
  exists j, lo <= j <= n /\ f j = Some r.
Proof.
  intros A f lo n. induction n as [|n IH]; intros r H; cbn [firstDown] in H.
  - destruct (0 <? lo) eqn:E; [discriminate|]. apply Nat.ltb_ge in E.
    destruct (f 0) eqn:F; [|discriminate].
    exists 0. split; [lia | congruence].
  - destruct (S n <? lo) eqn:E; [discriminate|]. apply Nat.ltb_ge in E.
    destruct (f (S n)) eqn:F.
    + exists (S n). split; [lia | congruence].
    + destruct (IH r H) as [j [Hj Hf]]. exists j. split; [lia | exact Hf].
Qed.

Lemma firstDown_first : forall (A : Type) (f : nat -> option A) lo n r,
  lo <= n -> f n = Some r -> firstDown lo n f = Some r.
Proof.
  intros A f lo n r Hlo Hf.
  destruct n; cbn [firstDown]; apply Nat.ltb_ge in Hlo; now rewrite Hlo, Hf.
Qed.


Lemma firstUp_Some : forall (A : Type) (f : nat -> option A) count n r,
  firstUp n count f = Some r ->
  exists j, n <= j < n + count /\ f j = Some r
            /\ forall j', n <= j' < j -> f j' = None.
Proof.
  intros A f count. induction count as [|count IH]; intros n r H;
    cbn [firstUp] in H; [discriminate|].
  destruct (f n) eqn:F.
  - exists n. split; [lia|]. split; [congruence|]. intros; lia.
  - destruct (IH (S n) r H) as [j [Hj [Hf Hmin]]].
    exists j. split; [lia|]. split; [exact Hf|].
    intros j' Hj'. destruct (Nat.eq_dec j' n) as [->|]; [exact F|].
    apply Hmin. lia.
Qed.


(** *** Runs of characters *)

Lemma takeWhile_prefix : forall f (s : str) n,
  n <= length (takeWhile f s) ->
  forallb f (firstn n s) = true /\ length (firstn n s) = n.
Proof.
  intros f s. induction s as [|c s IH]; intros n Hn; simpl in Hn.
  - assert (n = 0) by lia. subst n. now split.
  - destruct n as [|n]; [now split|].
    destruct (f c) eqn:E; simpl in Hn; [|lia].
    destruct (IH n) as [H1 H2]; [lia|].
    simpl. rewrite E, H1, H2. now split.
Qed.



Lemma forallb_repeat : forall (c : ascii) (l : str),
  forallb (Ascii.eqb c) l = true -> l = repeat c (length l).
Proof.
  intros c l. induction l as [|d l IH]; intros H; simpl in *; [reflexivity|].
  apply andb_true_iff in H. destruct H as [H1 H2].
  apply Ascii.eqb_eq in H1. subst d. f_equal. now apply IH.
Qed.


(** *** The header pattern *)

(** What a successful match looks like: [k] hashes, [j] white-space
    characters, a title of [n] characters without line terminator, then a line
    feed or the end. *)
Lemma headerMatch_sound : forall s m,
  headerMatch s = Some m ->
  exists k j n,
    1 <= k <= 6 /\ 1 <= j /\ 1 <= n
    /\ k + j + n <= length s
    /\ matched m = firstn (k + j + n) s
    /\ hashes m = firstn k s
    /\ title m = firstn n (skipn (k + j) s)
    /\ firstn k s = repeat HASH k
    /\ forallb isWhiteSpace (firstn j (skipn k s)) = true
    /\ length (firstn j (skipn k s)) = j
    /\ forallb notLineTerminator (title m) = true
    /\ length (title m) = n
    /\ atLineEnd (skipn (k + j + n) s) = true.
Proof.
  intros s m H. unfold headerMatch in H.
  apply firstDown_Some in H. destruct H as [k [Hk H]].
  apply firstDown_Some in H. destruct H as [j [Hj H]].
  apply firstUp_Some in H. destruct H as [n [Hn [H _]]].
  destruct (atLineEnd (skipn n (skipn j (skipn k s)))) eqn:Hend; [|discriminate].
  injection H as <-. cbn [matched hashes title].
  destruct (takeWhile_prefix (Ascii.eqb HASH) s k) as [Hh1 Hh2]; [lia|].
  destruct (takeWhile_prefix isWhiteSpace (skipn k s) j) as [Hw1 Hw2]; [lia|].
  destruct (takeWhile_prefix notLineTerminator (skipn j (skipn k s)) n)
    as [Hd1 Hd2]; [lia|].
  rewrite !skipn_skipn in *.
  replace (j + k) with (k + j) in * by lia.
  replace (n + (k + j)) with (k + j + n) in * by lia.
  replace (n + j + k) with (k + j + n) in * by lia.
  assert (Hlen : k + j + n <= length s).
  { pose proof (length_firstn n (skipn (k + j) s)) as L.
    rewrite Hd2, length_skipn in L. lia. }
  exists k, j, n. repeat split; try lia; try assumption.
  apply forallb_repeat in Hh1. now rewrite Hh2 in Hh1.
Qed.

(** The text of a match, cut in its parts. *)
Lemma headerMatch_parts : forall s m,
  headerMatch s = Some m ->
  exists ws,
    ws <> [] /\ forallb isWhiteSpace ws = true
    /\ 1 <= length (hashes m) <= 6
    /\ hashes m = repeat HASH (length (hashes m))
    /\ title m <> []
    /\ forallb notLineTerminator (title m) = true
    /\ matched m = hashes m ++ ws ++ title m
    /\ s = matched m ++ skipn (length (matched m)) s
    /\ atLineEnd (skipn (length (matched m)) s) = true.
Proof.
  intros s m H. apply headerMatch_sound in H.
  destruct H as [k [j [n [Hk [Hj [Hn [Hlen [Hm [Hh [Ht [Hrep [Hws [Hwl [Hnl [Htl Hend]]]]]]]]]]]]]]].
  exists (firstn j (skipn k s)).
  assert (Lh : length (hashes m) = k) by (rewrite Hh; apply firstn_length_exact; lia).
  assert (Lm : length (matched m) = k + j + n)
    by (rewrite Hm; apply firstn_length_exact; lia).
  repeat split.
  - intros E. rewrite E in Hwl. simpl in Hwl. lia.
  - exact Hws.
  - lia.
  - lia.
  - rewrite Lh, Hh. exact Hrep.
  - intros E. rewrite E in Htl. simpl in Htl. lia.
  - exact Hnl.
  - rewrite Hm, Hh, Ht.
    rewrite <- Nat.add_assoc, !firstn_add, skipn_skipn.
    now rewrite (Nat.add_comm j k).
  - rewrite Lm, Hm. symmetry. apply firstn_skipn.
  - now rewrite Lm.
Qed.


Lemma lineFeed_is_terminator : notLineTerminator LF = false.
Proof. reflexivity. Qed.


(** *** The recognisers *)

(** A construct between an opening and a closing marker. *)
Lemma delimited : forall txt i (opening closing : str) e,
  firstn (length opening) (skipn i txt) = opening ->
  indexOf (skipn (i + length opening) txt) closing = Some e ->
  length (firstn e (skipn (i + length opening) txt)) = e
  /\ skipn i txt
     = opening ++ firstn e (skipn (i + length opening) txt) ++ closing
       ++ skipn (i + (length opening + e + length closing)) txt.
Proof.
  intros txt i opening closing e Hopen Hidx.
  apply indexOf_Some in Hidx. destruct Hidx as [Hlen Hsplit].
  split; [apply firstn_length_exact; lia|].
  rewrite <- (firstn_skipn (length opening) (skipn i txt)) at 1.
  rewrite Hopen. f_equal.
  rewrite skipn_skipn, (Nat.add_comm (length opening) i).
  rewrite <- (firstn_skipn e (skipn (i + length opening) txt)) at 1.
  f_equal. rewrite Hsplit. f_equal.
  rewrite skipn_skipn. f_equal. lia.
Qed.

Lemma charAt_opening : forall txt i c,
  isChar (charAt txt i) c = true -> firstn (length [c]) (skipn i txt) = [c].
Proof.
  intros txt i c H. apply charAt_skipn in H. now rewrite H.
Qed.

(** What [tryBold] recognises. *)
Lemma tryBold_spec : forall txt i e next,
  tryBold txt i = Some (e, next) ->
  exists c,
    e = {| type := bold; content := c; level := None |} /\ c <> []
    /\ skipn i txt = [STAR; STAR] ++ c ++ [STAR; STAR] ++ skipn next txt
    /\ next = i + (4 + length c).
Proof.
  intros txt i e next H. unfold tryBold in H.
  destruct (strEq (slice txt i (i + 2)) [STAR; STAR]) eqn:E1; [|discriminate].
  destruct (indexOf (sliceFrom txt (i + 2)) [STAR; STAR]) as [endIndex|] eqn:E2;
    [|discriminate].
  destruct (0 <? endIndex) eqn:E3; [|discriminate].
  injection H as <- <-. apply Nat.ltb_lt in E3.
  apply strEq_eq in E1. unfold slice in E1.
  replace (i + 2 - i) with (length [STAR; STAR]) in E1 by (simpl; lia).
  unfold sliceFrom in *.
  destruct (delimited txt i [STAR; STAR] [STAR; STAR] endIndex E1 E2) as [Hlen Hsplit].
  unfold slice. rewrite Nat.sub_0_r. cbn [skipn].
  change (i + length [STAR; STAR]) with (i + 2) in *.
  eexists. split; [reflexivity|]. split.
  - intros E. rewrite E in Hlen. simpl in Hlen. lia.
  - rewrite Hlen. split; [|reflexivity].
    rewrite Hsplit at 1. do 3 f_equal. simpl. f_equal. lia.
Qed.

(** What [tryItalic] recognises. *)
Lemma tryItalic_spec : forall txt i e next,
  tryItalic txt i = Some (e, next) ->
  exists c,
    e = {| type := italic; content := c; level := None |} /\ c <> []
    /\ skipn i txt = [STAR] ++ c ++ [STAR] ++ skipn next txt
    /\ next = i + (2 + length c).
Proof.
  intros txt i e next H. unfold tryItalic in H.
  destruct (isChar (charAt txt i) STAR) eqn:E1; [|discriminate].
  cbn [andb] in H.
  destruct (negb (isChar (charAt txt (i + 1)) STAR)
            && ((i =? 0) || negb (isChar (charAt txt (i - 1)) STAR)));
    [|discriminate].
  destruct (indexOf (sliceFrom txt (i + 1)) [STAR]) as [endIndex|] eqn:E2;
    [|discriminate].
  destruct (0 <? endIndex) eqn:E3; [|discriminate].
  destruct ((length txt <=? i + 2 + endIndex)
            || negb (isChar (charAt txt (i + 2 + endIndex)) STAR));
    [|discriminate].
  injection H as <- <-. apply Nat.ltb_lt in E3.
  apply charAt_opening in E1. unfold sliceFrom in *.
  destruct (delimited txt i [STAR] [STAR] endIndex E1 E2) as [Hlen Hsplit].
  unfold slice. rewrite Nat.sub_0_r. cbn [skipn].
  change (i + length [STAR]) with (i + 1) in *.
  eexists. split; [reflexivity|]. split.
  - intros E. rewrite E in Hlen. simpl in Hlen. lia.
  - rewrite Hlen. split; [|reflexivity].
    rewrite Hsplit at 1. do 3 f_equal. simpl. f_equal. lia.
Qed.

(** What [tryCode] recognises. *)
Lemma tryCode_spec : forall txt i e next,
  tryCode txt i = Some (e, next) ->
  exists c,
    e = {| type := code; content := c; level := None |} /\ c <> []
    /\ skipn i txt = [TICK] ++ c ++ [TICK] ++ skipn next txt
    /\ next = i + (2 + length c).
Proof.
  intros txt i e next H. unfold tryCode in H.
  destruct (isChar (charAt txt i) TICK) eqn:E1; [|discriminate].
  destruct (indexOf (sliceFrom txt (i + 1)) [TICK]) as [endIndex|] eqn:E2;
    [|discriminate].
  destruct (0 <? endIndex) eqn:E3; [|discriminate].
  injection H as <- <-. apply Nat.ltb_lt in E3.
  apply charAt_opening in E1. unfold sliceFrom in *.
  destruct (delimited txt i [TICK] [TICK] endIndex E1 E2) as [Hlen Hsplit].
  unfold slice. rewrite Nat.sub_0_r. cbn [skipn].
  change (i + length [TICK]) with (i + 1) in *.
  eexists. split; [reflexivity|]. split.
  - intros E. rewrite E in Hlen. simpl in Hlen. lia.
  - rewrite Hlen. split; [|reflexivity].
    rewrite Hsplit at 1. do 3 f_equal. simpl. f_equal. lia.
Qed.

(** What [tryHeader] recognises. *)
Lemma tryHeader_spec : forall txt i e next,
  tryHeader txt i = Some (e, next) ->
  atLineStart txt i
  /\ exists k ws,
       e = {| type := header; content := content e; level := Some k |}
       /\ headingAt txt i k ws (content e)
       /\ skipn i txt = (repeat HASH k ++ ws) ++ content e ++ skipn next txt
       /\ next = i + (k + length ws + length (content e)).
Proof.
  intros txt i e next H. unfold tryHeader in H.
  destruct (isChar (charAt txt i) HASH) eqn:E1; [|discriminate].
  cbn [andb] in H.
  destruct ((i =? 0) || isChar (charAt txt (i - 1)) LF) eqn:E2; [|discriminate].
  destruct (headerMatch (sliceFrom txt i)) as [m|] eqn:E3; [|discriminate].
  injection H as <- <-. unfold sliceFrom in E3.
  split.
  - apply orb_true_iff in E2. destruct E2 as [E2|E2].
    + left. now apply Nat.eqb_eq.
    + destruct i as [|i]; [now left|]. right. split; [lia|].
      unfold isChar in E2. destruct (charAt txt (S i - 1)); [|discriminate].
      apply Ascii.eqb_eq in E2. now subst.
  - apply headerMatch_parts in E3.
    destruct E3 as [ws [Hws [Hwsp [Hk [Hrep [Httl [Hdots [Hm [Hs Hend]]]]]]]]].
    exists (length (hashes m)), ws. cbn [content].
    assert (Hsplit : skipn i txt
                     = (repeat HASH (length (hashes m)) ++ ws) ++ title m
                       ++ skipn (i + length (matched m)) txt).
    { rewrite Hs at 1. rewrite Hm at 1. rewrite Hrep at 1.
      rewrite <- !app_assoc. do 3 f_equal.
      rewrite skipn_skipn. f_equal. lia. }
    assert (Hmlen : length (matched m)
                    = length (hashes m) + length ws + length (title m)).
    { rewrite Hm, !length_app. lia. }
    split; [reflexivity|]. split; [|split].
    + unfold headingAt. repeat split; try assumption; try lia.
      exists (skipn (length (matched m)) (skipn i txt)). split; [|exact Hend].
      rewrite Hsplit at 1. rewrite <- !app_assoc. do 3 f_equal.
      rewrite skipn_skipn. f_equal. lia.
    + exact Hsplit.
    + lia.
Qed.

(** The plain-text branch takes at least one character. *)
Lemma nextMarkdownIndex_bounds : forall txt i,
  i < length txt -> i < nextMarkdownIndex txt i <= length txt.
Proof.
  intros txt i Hi. unfold nextMarkdownIndex.
  destruct (find _ _) as [j|] eqn:E; [|lia].
  apply find_some in E. destruct E as [E _]. apply in_seq in E. lia.
Qed.

Lemma plainText_spec : forall txt i pushed next,
  i < length txt ->
  plainText txt i = (pushed, next) ->
  exists c,
    pushed = [{| type := text; content := c; level := None |}] /\ c <> []
    /\ skipn i txt = c ++ skipn next txt
    /\ next = i + length c.
Proof.
  intros txt i pushed next Hi H. unfold plainText in H.
  pose proof (nextMarkdownIndex_bounds txt i Hi) as Hb.
  injection H as <- <-. set (next := nextMarkdownIndex txt i) in *.
  assert (Hlen : length (slice txt i next) = next - i).
  { unfold slice. apply firstn_length_exact. rewrite length_skipn. lia. }
  exists (slice txt i next).
  assert (Hne : slice txt i next <> []).
  { intros E. rewrite E in Hlen. simpl in Hlen. lia. }
  split; [|split; [exact Hne|split]].
  - destruct (slice txt i next); [contradiction | reflexivity].
  - unfold slice. rewrite <- (firstn_skipn (next - i) (skipn i txt)) at 1.
    f_equal. rewrite skipn_skipn. f_equal. lia.
  - lia.
Qed.

(** *** One iteration *)

(** An iteration at a cursor inside the text pushes exactly one run, whose
    content is not empty, and moves the cursor over the source of that run:
    its markers and its content. *)
Lemma step_spec : forall txt i pushed next,
  i < length txt ->
  step txt i = (pushed, next) ->
  exists e p,
    pushed = [e] /\ markersOf e p /\ content e <> []
    /\ skipn i txt = pieceSource p ++ skipn next txt
    /\ next = i + length (pieceSource p).
Proof.
  intros txt i pushed next Hi H. unfold step, orElse in H.
  destruct (tryHeader txt i) as [[e n]|] eqn:Eh.
  { injection H as <- <-. apply tryHeader_spec in Eh.
    destruct Eh as [_ [k [ws [He [Hat [Hsplit Hnext]]]]]].
    destruct Hat as [Hk [Hws [Hwsp [Httl [_ _]]]]].
    exists e, {| opening := repeat HASH k ++ ws; body := content e; closing := [] |}.
    split; [reflexivity|]. split; [|split; [exact Httl|split]].
    - split; [reflexivity|]. rewrite He. cbn [type level opening closing].
      exists k, ws. repeat split; try assumption; lia.
    - unfold pieceSource. cbn [opening body closing].
      rewrite app_nil_r, <- app_assoc. exact Hsplit.
    - unfold pieceSource. cbn [opening body closing].
      rewrite !length_app, repeat_length. simpl. lia. }
  destruct (tryBold txt i) as [[e n]|] eqn:Eb.
  { injection H as <- <-. apply tryBold_spec in Eb.
    destruct Eb as [c [-> [Hc [Hsplit Hnext]]]].
    exists {| type := bold; content := c; level := None |},
           {| opening := [STAR; STAR]; body := c; closing := [STAR; STAR] |}.
    split; [reflexivity|]. split; [|split; [exact Hc|split]].
    - now repeat split.
    - unfold pieceSource. cbn [opening body closing].
      rewrite Hsplit at 1. now rewrite <- !app_assoc.
    - unfold pieceSource. cbn [opening body closing].
      rewrite !length_app. simpl. lia. }
  destruct (tryItalic txt i) as [[e n]|] eqn:Ei.
  { injection H as <- <-. apply tryItalic_spec in Ei.
    destruct Ei as [c [-> [Hc [Hsplit Hnext]]]].
    exists {| type := italic; content := c; level := None |},
           {| opening := [STAR]; body := c; closing := [STAR] |}.
    split; [reflexivity|]. split; [|split; [exact Hc|split]].
    - now repeat split.
    - unfold pieceSource. cbn [opening body closing].
      rewrite Hsplit at 1. now rewrite <- !app_assoc.
    - unfold pieceSource. cbn [opening body closing].
      rewrite !length_app. simpl. lia. }
  destruct (tryCode txt i) as [[e n]|] eqn:Ec.
  { injection H as <- <-. apply tryCode_spec in Ec.
    destruct Ec as [c [-> [Hc [Hsplit Hnext]]]].
    exists {| type := code; content := c; level := None |},
           {| opening := [TICK]; body := c; closing := [TICK] |}.
    split; [reflexivity|]. split; [|split; [exact Hc|split]].
    - now repeat split.
    - unfold pieceSource. cbn [opening body closing].
      rewrite Hsplit at 1. now rewrite <- !app_assoc.
    - unfold pieceSource. cbn [opening body closing].
      rewrite !length_app. simpl. lia. }
  apply plainText_spec in H; [|exact Hi].
  destruct H as [c [-> [Hc [Hsplit Hnext]]]].
  exists {| type := text; content := c; level := None |},
         {| opening := []; body := c; closing := [] |}.
  split; [reflexivity|]. split; [|split; [exact Hc|split]].
  - now repeat split.
  - unfold pieceSource. cbn [opening body closing app]. now rewrite app_nil_r.
  - unfold pieceSource. cbn [opening body closing app]. now rewrite app_nil_r.
Qed.

(** The cursor strictly advances and stays inside the text. *)
Lemma step_progress : forall txt i,
  i < length txt -> i < snd (step txt i) <= length txt.
Proof.
  intros txt i Hi. destruct (step txt i) as [pushed next] eqn:E.
  apply step_spec in E; [|exact Hi].
  destruct E as [e [p [_ [[Hbody _] [Hc [Hsplit Hnext]]]]]].
  apply skipn_app_cursor in Hsplit; [|lia]. destruct Hsplit as [_ Hle].
  assert (0 < length (pieceSource p)).
  { unfold pieceSource. rewrite !length_app, Hbody.
    destruct (content e); [contradiction | simpl; lia]. }
  simpl. lia.
Qed.

(** *** The loop *)

Lemma sourceOf_app : forall ps p,
  sourceOf (ps ++ [p]) = sourceOf ps ++ pieceSource p.
Proof.
  intros ps p. unfold sourceOf. rewrite map_app, concat_app. simpl.
  now rewrite app_nil_r.
Qed.

Lemma parseLoop_spec : forall fuel txt i els ps,
  i <= length txt -> length txt - i <= fuel ->
  Forall2 markersOf els ps -> sourceOf ps = firstn i txt ->
  exists els' ps',
    parseLoop fuel txt i els = Some els'
    /\ Forall2 markersOf els' ps' /\ sourceOf ps' = txt.
Proof.
  induction fuel as [|fuel IH]; intros txt i els ps Hi Hfuel Hall Hsrc.
  - assert (i = length txt) by lia. subst i.
    exists els, ps. cbn [parseLoop]. rewrite Nat.leb_refl.
    rewrite firstn_all in Hsrc. now repeat split.
  - cbn [parseLoop]. destruct (length txt <=? i) eqn:E.
    + apply Nat.leb_le in E. assert (i = length txt) by lia. subst i.
      exists els, ps. rewrite firstn_all in Hsrc. now repeat split.
    + apply Nat.leb_gt in E.
      pose proof (step_progress txt i E) as Hprog.
      destruct (step txt i) as [pushed next] eqn:Es.
      apply step_spec in Es; [|exact E].
      destruct Es as [e [p [-> [Hm [_ [Hsplit Hnext]]]]]].
      simpl in Hprog.
      apply (IH txt next (els ++ [e]) (ps ++ [p])); try lia.
      * apply Forall2_app; [exact Hall | now constructor].
      * rewrite sourceOf_app, Hsrc, Hnext, firstn_add, Hsplit.
        f_equal. rewrite firstn_app, Nat.sub_diag, firstn_all. simpl.
        now rewrite app_nil_r.
Qed.

Lemma parseLoop_more_fuel : forall fuel txt i els r,
  parseLoop fuel txt i els = Some r -> parseLoop (S fuel) txt i els = Some r.
Proof.
  induction fuel as [|fuel IH]; intros txt i els r H.
  - cbn [parseLoop] in *. now destruct (length txt <=? i).
  - cbn [parseLoop] in H. cbn [parseLoop].
    destruct (length txt <=? i); [exact H|].
    destruct (step txt i) as [pushed next]. now apply IH.
Qed.

Lemma parseLoop_any_fuel : forall extra fuel txt i els r,
  parseLoop fuel txt i els = Some r ->
  parseLoop (extra + fuel) txt i els = Some r.
Proof.
  induction extra as [|extra IH]; intros fuel txt i els r H; [exact H|].
  simpl. apply parseLoop_more_fuel. now apply IH.
Qed.

Lemma markers_contents : forall els ps,
  Forall2 markersOf els ps -> map content els = map body ps.
Proof.
  intros els ps H. induction H as [|e p els ps [Hb _] _ IH]; [reflexivity|].
  simpl. now rewrite Hb, IH.
Qed.

Lemma runs_total : forall txt, exists els, parseMarkdown txt = Some els.
Proof.
  intros txt.
  destruct (parseLoop_spec (length txt) txt 0 [] []) as [els [ps [H _]]];
    try lia; try constructor; try reflexivity.
  now exists els.
Qed.

(** The scenario of the specification. *)
Lemma scenario_tokenize :
  parseMarkdown (lit "**bold** and *italic* and `code`")
  = Some [ {| type := bold; content := lit "bold"; level := None |};
           {| type := text; content := lit " and "; level := None |};
           {| type := italic; content := lit "italic"; level := None |};
           {| type := text; content := lit " and "; level := None |};
           {| type := code; content := lit "code"; level := None |} ].
Proof. reflexivity. Qed.

(** C10.  At every cursor inside the text an iteration of the scan loop
    pushes one run with a non-empty content and advances the cursor by the
    length of that run's markers and content, staying inside the text; so the
    loop ends within as many iterations as the text has characters, and
    [parseMarkdown] returns a result on every input. *)
Theorem tokenizer_terminates : forall txt,
  (forall i, i < length txt -> i < snd (step txt i) <= length txt)
  /\ (forall i, i < length txt ->
        exists e p,
          step txt i = ([e], i + length (pieceSource p))
          /\ markersOf e p /\ content e <> [])
  /\ exists els,
       parseMarkdown txt = Some els
       /\ forall fuel, length txt <= fuel -> parseLoop fuel txt 0 [] = Some els.
Proof.
  intros txt. split; [|split].
  - apply step_progress.
  - intros i Hi. destruct (step txt i) as [pushed next] eqn:E.
    apply step_spec in E; [|exact Hi].
    destruct E as [e [p [-> [Hm [Hc [_ ->]]]]]]. now exists e, p.
  - destruct (runs_total txt) as [els H]. exists els. split; [exact H|].
    intros fuel Hfuel. replace fuel with ((fuel - length txt) + length txt) by lia.
    now apply parseLoop_any_fuel.
Qed.

(** *** Headings *)




Lemma scenario_heading :
  parseMarkdown (lit "## Title" ++ [LF] ++ lit "body")
  = Some [ {| type := header; content := lit "Title"; level := Some 2 |};
           {| type := text; content := [LF] ++ lit "body"; level := None |} ].
Proof. reflexivity. Qed.


(** Three more departures from the wording of the specification: a tab or a
    line feed serves as the separating space, a carriage return in the line
    keeps the heading from being recognised, and so does an empty heading
    text. *)
Lemma heading_after_tab :
  parseMarkdown (lit "#" ++ [ascii_of_nat 9] ++ lit "x")
  = Some [ {| type := header; content := lit "x"; level := Some 1 |} ].
Proof. reflexivity. Qed.

Lemma heading_without_text :
  parseMarkdown (lit "# ")
  = Some [ {| type := text; content := lit "# "; level := None |} ].
Proof. reflexivity. Qed.

Lemma heading_with_carriage_return :
  parseMarkdown (lit "# abc" ++ [CR] ++ lit "def")
  = Some [ {| type := text; content := lit "# abc" ++ [CR] ++ lit "def";
              level := None |} ].
Proof. reflexivity. Qed.

End MarkdownFacts.

(** ** Paginated renderer *)

Module PdfFacts.

Import Markdown Pdf MarkdownFacts.

Local Open Scope Q_scope.

Lemma gtb_true : forall a b, gtb a b = true <-> b < a.
Proof.
  intros a b. unfold gtb. rewrite negb_true_iff.
  split; intros H.
  - apply Qnot_le_lt. intros L. apply Qle_bool_iff in L. congruence.
  - destruct (Qle_bool a b) eqn:E; [|reflexivity].
    apply Qle_bool_iff in E. exfalso. now apply (Qlt_not_le b a).
Qed.

Lemma gtb_false : forall a b, gtb a b = false <-> a <= b.
Proof.
  intros a b. unfold gtb. rewrite negb_false_iff. apply Qle_bool_iff.
Qed.

(** *** The stale font *)

Lemma overflow_found :
  match exportToPdf samplePdf [overflowResult] (lit "i") with
  | Some lines => existsb (overflows samplePdf 20) lines
  | None => false
  end = true.
Proof. vm_compute. reflexivity. Qed.

(** C7 on a failing input.  The found paragraph is one Code run of thirteen
    ten-letter words.  Its seventh word opens the second line; [flushLine] has
    just put the document back to Helvetica, and the word is measured in that
    font although it is drawn in Courier.  The second line then takes seven
    words and is wider than the usable width. *)
Theorem stale_font_overflow :
  exists lines,
    exportToPdf samplePdf [overflowResult] (lit "i") = Some lines
    /\ ~ withinWidth samplePdf 20 lines.
Proof.
  pose proof overflow_found as Hb.
  destruct (exportToPdf samplePdf [overflowResult] (lit "i")) as [lines|];
    [|discriminate].
  exists lines. split; [reflexivity|]. intros Hwithin.
  apply existsb_exists in Hb. destruct Hb as [l [Hin Hover]].
  unfold overflows in Hover. apply andb_true_iff in Hover.
  destruct Hover as [Hmany Hwide].
  apply Nat.ltb_lt in Hmany. apply gtb_true in Hwide.
  specialize (Hwithin l Hin Hmany).
  now apply (Qlt_not_le _ _ Hwide).
Qed.

(** The two lines of that paragraph: six words within the usable width of
    150, then seven words measuring 2413/15, about 160.9. *)
Lemma overflow_lines :
  map (fun l => (length (l_items l), Qred (lineWidth samplePdf l)))
      (out (addFormattedElements samplePdf
              [{| type := code; content := overflowContent; level := None |}]
              10 20 (initial)))
  = [(6%nat, 1651 # 12); (7%nat, 2413 # 15)]
  /\ Qred (usableWidth samplePdf 20) = 150.
Proof. vm_compute. split; reflexivity. Qed.

(** *** What [flushLine] does *)

Section RendererFacts.

Variable pdf : JsPdf.

Lemma pageBreak_same : forall limit st,
  out (pageBreak pdf limit st) = out st
  /\ fontSize (pageBreak pdf limit st) = fontSize st
  /\ currentLine (pageBreak pdf limit st) = currentLine st
  /\ currentLineWidth (pageBreak pdf limit st) = currentLineWidth st
  /\ font (pageBreak pdf limit st) = font st.
Proof.
  intros limit st. unfold pageBreak.
  destruct (gtb (yPosition st) (pageHeight pdf - limit)); now repeat split.
Qed.

(** The loop of [flushLine]: one placement per segment, with the text of
    the segment, in the font the segment is drawn in; the font left active is
    the one left by the last segment. *)
Lemma render_fold : forall segs st x items,
  exists st' x' placed,
    fold_left (renderSegment pdf) segs (st, x, items) = (st', x', items ++ placed)
    /\ out st' = out st /\ fontSize st' = fontSize st
    /\ map (fun p => (p_text p, p_font p, p_size p)) placed
       = map (fun seg => (seg_text seg, drawFont seg, fontSize st)) segs
    /\ font st' = fold_left (fun _ seg => leftFont seg) segs (font st).
Proof.
  induction segs as [|seg segs IH]; intros st x items.
  - exists st, x, []. simpl. rewrite app_nil_r. now repeat split.
  - cbn [fold_left]. unfold renderSegment at 2.
    match goal with
    | |- context [fold_left _ segs (?s, ?y, ?it)] =>
        destruct (IH s y it) as [st' [x' [placed [H1 [H2 [H3 [H4 H5]]]]]]]
    end.
    eexists st', x', (_ :: placed). split; [|split; [|split; [|split]]].
    + rewrite H1, <- app_assoc. reflexivity.
    + rewrite H2. now destruct (isCode seg).
    + rewrite H3. now destruct (isCode seg).
    + cbn [map]. rewrite H4. unfold drawFont.
      now destruct (isCode seg).
    + rewrite H5. unfold leftFont. now destruct (isCode seg).
Qed.

Lemma flushLine_empty : forall indent lineHeight st,
  currentLine st = [] -> flushLine pdf indent lineHeight st = st.
Proof. intros indent lineHeight st H. unfold flushLine. now rewrite H. Qed.

(** A flush of a line that is not empty writes one line and empties the
    current one. *)
Lemma flushLine_line : forall indent lineHeight st,
  currentLine st <> [] ->
  currentLine (flushLine pdf indent lineHeight st) = []
  /\ currentLineWidth (flushLine pdf indent lineHeight st) = 0
  /\ fontSize (flushLine pdf indent lineHeight st) = fontSize st
  /\ font (flushLine pdf indent lineHeight st)
     = fold_left (fun _ seg => leftFont seg) (currentLine st) (font st)
  /\ exists l,
       out (flushLine pdf indent lineHeight st) = out st ++ [l]
       /\ map (fun p => (p_text p, p_font p, p_size p)) (l_items l)
          = map (fun seg => (seg_text seg, drawFont seg, fontSize st))
                (currentLine st).
Proof.
  intros indent lineHeight st Hne. unfold flushLine.
  destruct (currentLine st) as [|seg segs] eqn:Hline; [contradiction|].
  destruct (pageBreak_same 20 st) as [Po [Ps [Pl [_ Pf]]]].
  rewrite Pl, Hline.
  destruct (render_fold (seg :: segs) (pageBreak pdf 20 st) (margin + indent) [])
    as [st' [x' [placed [H1 [H2 [H3 [H4 H5]]]]]]].
  rewrite H1. cbn [currentLine currentLineWidth fontSize font out setLine setY emit app].
  split; [reflexivity|]. split; [reflexivity|]. split; [congruence|].
  split; [now rewrite H5, Pf|].
  eexists. split; [rewrite H2, Po; reflexivity|].
  cbn [l_items]. now rewrite H4, Ps.
Qed.

Lemma flushLine_effect : forall indent lineHeight st,
  currentLine st <> [] ->
  currentLine (flushLine pdf indent lineHeight st) = []
  /\ currentLineWidth (flushLine pdf indent lineHeight st) = 0
  /\ fontSize (flushLine pdf indent lineHeight st) = fontSize st
  /\ exists l,
       out (flushLine pdf indent lineHeight st) = out st ++ [l]
       /\ map p_text (l_items l) = map seg_text (currentLine st).
Proof.
  intros indent lineHeight st Hne.
  destruct (flushLine_line indent lineHeight st Hne)
    as [F1 [F2 [F3 [_ [l [F4 F5]]]]]].
  repeat split; try assumption. exists l. split; [exact F4|].
  apply (f_equal (map (fun t => fst (fst t)))) in F5.
  now rewrite !map_map in F5.
Qed.

(** *** No usable width: one word per line *)

Lemma Good_emit : forall o l, Good o -> oneWord l -> Good (o ++ [l]).
Proof.
  intros o l [Hne Hall] Hl. split.
  - intros E. now apply app_eq_nil in E.
  - apply Forall_app. split; [exact Hall | now constructor].
Qed.

Section NoUsableWidth.

Variable size indent : Q.
Hypothesis no_width : usableWidth pdf indent <= 0.
Hypothesis positive : forall f w, w <> [] -> 0 < getTextWidth pdf f size w.

Lemma Segment_eq_dec : forall a b : Segment, {a = b} + {a <> b}.
Proof.
  decide equality; try apply Bool.bool_dec.
  apply (list_eq_dec ascii_dec).
Qed.

Lemma Inv_setY : forall y st, Inv size st -> Inv size (setY y st).
Proof. intros y st H. exact H. Qed.

Lemma flushLine_Inv : forall lineHeight st,
  Inv size st -> Inv size (flushLine pdf indent lineHeight st)
            /\ currentLine (flushLine pdf indent lineHeight st) = [].
Proof.
  intros lineHeight st Hinv.
  destruct (list_eq_dec Segment_eq_dec (currentLine st) []) as [Hline|Hne].
  - rewrite flushLine_empty by exact Hline. now split.
  - destruct Hinv as [Hgood [Hsize [Hnil Hcons]]].
    destruct (flushLine_effect indent lineHeight st Hne)
      as [F1 [F2 [F3 [l [F4 F5]]]]].
    split; [|exact F1]. unfold Inv. rewrite F1, F2, F3, F4.
    split; [|split; [exact Hsize|split]].
    + apply Good_emit; [exact Hgood|]. unfold oneWord.
      rewrite <- (length_map p_text), F5, length_map.
      now apply Hcons.
    + intros _. reflexivity.
    + intros X. contradiction.
Qed.

Lemma wordStep_Inv : forall isBold isItalic isCode lineHeight st index word,
  word <> [] -> Inv size st ->
  Inv size (wordStep pdf isBold isItalic isCode indent lineHeight st (index, word)).
Proof.
  intros b i c lineHeight st index word Hword [Hgood [Hsize [Hnil Hcons]]].
  unfold wordStep. cbn [currentLine currentLineWidth setFont].
  set (wordWithSpace :=
         if (0 <? length (currentLine st))%nat || (0 <? index)%nat
         then SP :: word else word).
  assert (Hwws : wordWithSpace <> []).
  { unfold wordWithSpace.
    destruct ((0 <? length (currentLine st))%nat || (0 <? index)%nat);
      [discriminate | exact Hword]. }
  set (st0 := setFont _ st).
  assert (Hw : 0 < textWidth pdf st0 wordWithSpace).
  { unfold textWidth. cbn [fontSize st0 setFont]. rewrite Hsize.
    now apply positive. }
  destruct (currentLine st) as [|seg segs] eqn:Hline.
  - (* the line is empty: the word is put on it *)
    cbn [length Nat.ltb Nat.leb andb]. rewrite andb_false_r.
    unfold Inv. cbn [out fontSize currentLine currentLineWidth setLine st0 setFont].
    cbn [app].
    split; [exact Hgood|]. split; [exact Hsize|]. split; [discriminate|].
    intros _. split; [reflexivity|].
    specialize (Hnil eq_refl). rewrite Hnil. lra.
  - (* a word waits: the line is flushed, whatever the widths *)
    destruct Hcons as [Hone Hwidth]; [discriminate|].
    assert (Hflush : gtb (currentLineWidth st + textWidth pdf st0 wordWithSpace)
                         (maxWidth pdf - indent) = true).
    { apply gtb_true. unfold usableWidth in no_width. lra. }
    rewrite Hflush. cbn [length Nat.ltb Nat.leb andb].
    assert (Hinv0 : Inv size st0).
    { unfold Inv, st0. cbn [out fontSize currentLine currentLineWidth setFont].
      rewrite Hline. split; [exact Hgood|]. split; [exact Hsize|].
      split; [discriminate|]. intros _. now split. }
    destruct (flushLine_Inv lineHeight st0 Hinv0) as [[Fg [Fs _]] Fl].
    unfold Inv. cbn [out fontSize currentLine currentLineWidth setLine].
    rewrite Fl. cbn [app].
    split; [exact Fg|]. split; [exact Fs|]. split; [discriminate|].
    intros _. split; [reflexivity|].
    unfold textWidth. cbn [font fontSize setLine]. rewrite Fs.
    now apply positive.
Qed.

Lemma wordsOf_nonempty : forall t, Forall (fun w => w <> []) (wordsOf t).
Proof.
  intros t. unfold wordsOf. apply Forall_forall. intros w Hin.
  apply filter_In in Hin. destruct Hin as [_ Hlen].
  apply Nat.ltb_lt in Hlen. intros ->. simpl in Hlen. lia.
Qed.

Lemma addToLine_Inv : forall t isBold isItalic isCode lineHeight st,
  Inv size st -> Inv size (addToLine pdf t isBold isItalic isCode indent lineHeight st).
Proof.
  intros t b i c lineHeight st Hinv. unfold addToLine, indexed.
  pose proof (wordsOf_nonempty t) as Hwords.
  generalize 0%nat. revert st Hinv.
  induction (wordsOf t) as [|w ws IH]; intros st Hinv start; [exact Hinv|].
  cbn [length seq combine fold_left].
  apply Forall_cons_iff in Hwords. destruct Hwords as [Hw Hws].
  apply IH; [exact Hws|]. now apply wordStep_Inv.
Qed.

Lemma elementStep_Inv : forall lineHeight st element,
  Inv size st -> Inv size (elementStep pdf indent lineHeight st element).
Proof.
  intros lineHeight st element Hinv. unfold elementStep.
  destruct (type element); try now apply addToLine_Inv.
  apply Inv_setY. apply flushLine_Inv. apply addToLine_Inv.
  now apply flushLine_Inv.
Qed.

Lemma elements_Inv : forall lineHeight elements st,
  Inv size st -> Inv size (fold_left (elementStep pdf indent lineHeight) elements st).
Proof.
  intros lineHeight elements. induction elements as [|e es IH]; intros st Hinv;
    [exact Hinv|].
  cbn [fold_left]. apply IH. now apply elementStep_Inv.
Qed.

End NoUsableWidth.

(** A formatted paragraph on a page without usable width. *)
Lemma addFormattedElements_Good : forall elements size indent st,
  usableWidth pdf indent <= 0 ->
  (forall f w, w <> [] -> 0 < getTextWidth pdf f size w) ->
  Good (out st) ->
  Good (out (addFormattedElements pdf elements size indent st)).
Proof.
  intros elements size indent st Hzero Hpos Hgood.
  unfold addFormattedElements. cbn [out setY].
  apply (flushLine_Inv size indent).
  apply (elements_Inv size indent Hzero Hpos).
  unfold Inv. cbn [out fontSize currentLine currentLineWidth setLine setFontSize].
  split; [exact Hgood|]. split; [reflexivity|]. split; [reflexivity|].
  intros X. contradiction.
Qed.

Lemma addWrappedText_Good : forall t size isBold indent st,
  Good (out st) -> Good (out (addWrappedText pdf t size isBold indent st)).
Proof.
  intros t size isBold indent st Hgood. unfold addWrappedText. cbn [out setY].
  set (st0 := setFont _ (setFontSize size st)).
  assert (H0 : Good (out st0)) by exact Hgood.
  generalize (splitTextToSize pdf (font st0) (fontSize st0) t (maxWidth pdf - indent)).
  intros lines. revert H0. generalize st0. clear st0 Hgood.
  induction lines as [|line lines IH]; intros st0 H0; [exact H0|].
  cbn [fold_left]. apply IH. cbn [out setY emit].
  destruct (pageBreak_same 20 st0) as [Po _]. rewrite Po.
  now apply Good_emit.
Qed.

Lemma pageBreak_Good : forall limit st,
  Good (out st) -> Good (out (pageBreak pdf limit st)).
Proof.
  intros limit st H. destruct (pageBreak_same limit st) as [Po _]. now rewrite Po.
Qed.

Section NarrowPage.

Hypothesis no_width : maxWidth pdf <= 0.
Hypothesis positive : forall f w, w <> [] -> 0 < getTextWidth pdf f 10 w.

Lemma paragraphStep_Good : forall st ip,
  Good (out st) ->
  exists st', paragraphStep pdf (Some st) ip = Some st' /\ Good (out st').
Proof.
  intros st [index paragraph] Hgood. unfold paragraphStep, addFormattedText.
  destruct (runs_total (trim paragraph)) as [els ->].
  eexists. split; [reflexivity|].
  apply addFormattedElements_Good; [unfold usableWidth; lra | exact positive |].
  cbn [out setY]. apply addWrappedText_Good. now apply pageBreak_Good.
Qed.

Lemma paragraphs_Good : forall found st,
  Good (out st) ->
  exists st', fold_left (paragraphStep pdf) found (Some st) = Some st'
              /\ Good (out st').
Proof.
  induction found as [|ip found IH]; intros st Hgood.
  - now exists st.
  - cbn [fold_left].
    destruct (paragraphStep_Good st ip Hgood) as [st1 [-> H1]].
    now apply IH.
Qed.

Lemma resultStep_Good : forall st result,
  Good (out st) ->
  exists st', resultStep pdf (Some st) result = Some st' /\ Good (out st').
Proof.
  intros st result Hgood. unfold resultStep.
  set (st1 := setY _ (addWrappedText pdf _ 11 false 0 _)).
  assert (H1 : Good (out st1)).
  { unfold st1. cbn [out setY]. do 2 apply addWrappedText_Good.
    now apply pageBreak_Good. }
  destruct (Search.foundParagraphs result) as [|p ps] eqn:Hfound.
  - eexists. split; [reflexivity|]. cbn [out setY].
    now apply addWrappedText_Good.
  - destruct (paragraphs_Good (indexed (p :: ps)) st1 H1) as [st2 [-> H2]].
    eexists. split; [reflexivity|]. exact H2.
Qed.

Lemma results_Good : forall results st,
  Good (out st) ->
  exists st', fold_left (resultStep pdf) results (Some st) = Some st'
              /\ Good (out st').
Proof.
  induction results as [|r results IH]; intros st Hgood.
  - now exists st.
  - cbn [fold_left].
    destruct (resultStep_Good st r Hgood) as [st1 [-> H1]].
    now apply IH.
Qed.

End NarrowPage.

(** *** Words are never split *)

Lemma forallb_rev : forall (f : ascii -> bool) l,
  forallb f (rev l) = forallb f l.
Proof.
  intros f l. induction l as [|c l IH]; [reflexivity|].
  simpl. rewrite forallb_app, IH. simpl. rewrite andb_true_r. apply andb_comm.
Qed.

Lemma splitWhiteSpace_clean : forall s skip cur,
  forallb notWhiteSpace cur = true ->
  Forall (fun w => forallb notWhiteSpace w = true) (splitWhiteSpace_go s skip cur).
Proof.
  induction s as [|c s IH]; intros skip cur Hcur; cbn [splitWhiteSpace_go].
  - constructor; [|constructor]. now rewrite forallb_rev.
  - destruct skip as [|k]; [|now apply IH].
    destruct (isWhiteSpace c) eqn:E.
    + constructor; [now rewrite forallb_rev | now apply IH].
    + apply IH. simpl. unfold notWhiteSpace at 1. now rewrite E.
Qed.

Lemma wordsOf_clean : forall t,
  Forall (fun w => w <> [] /\ forallb notWhiteSpace w = true) (wordsOf t).
Proof.
  intros t. unfold wordsOf. apply Forall_forall. intros w Hin.
  apply filter_In in Hin. destruct Hin as [Hin Hlen]. split.
  - apply Nat.ltb_lt in Hlen. intros ->. simpl in Hlen. lia.
  - pose proof (splitWhiteSpace_clean t 0 [] eq_refl) as H.
    rewrite Forall_forall in H. now apply H.
Qed.

Lemma wordOf_word : forall w, forallb notWhiteSpace w = true -> wordOf w = w.
Proof.
  intros [|c w] H; [reflexivity|]. simpl in *.
  apply andb_true_iff in H. destruct H as [H _].
  destruct (Ascii.eqb c SP) eqn:E; [|reflexivity].
  apply Ascii.eqb_eq in E. subst c. discriminate.
Qed.

Lemma placedWords_app : forall lines l,
  placedWords (lines ++ [l])
  = placedWords lines ++ map (fun p => wordOf (p_text p)) (l_items l).
Proof.
  intros lines l. unfold placedWords.
  rewrite map_app, concat_app, map_app. simpl. now rewrite app_nil_r.
Qed.

Lemma flushLine_Carries : forall base words indent lineHeight st,
  Carries base words st -> Carries base words (flushLine pdf indent lineHeight st).
Proof.
  intros base words indent lineHeight st [more [Hout Hwords]].
  destruct (currentLine st) as [|seg segs] eqn:Hline.
  - rewrite flushLine_empty by exact Hline. exists more. now rewrite Hline.
  - assert (Hne : currentLine st <> []) by (rewrite Hline; discriminate).
    destruct (flushLine_effect indent lineHeight st Hne)
      as [F1 [_ [_ [l [F4 F5]]]]].
    exists (more ++ [l]). rewrite F1, F4, Hout, <- app_assoc.
    split; [reflexivity|].
    rewrite placedWords_app, app_nil_r, <- Hwords. f_equal.
    rewrite <- (map_map p_text wordOf), F5, map_map, Hline. reflexivity.
Qed.

Lemma wordStep_Carries : forall base words isBold isItalic isCode indent lineHeight
                                st index word,
  forallb notWhiteSpace word = true ->
  Carries base words st ->
  Carries base (words ++ [word])
          (wordStep pdf isBold isItalic isCode indent lineHeight st (index, word)).
Proof.
  intros base words b i c indent lineHeight st index word Hword Hcar.
  unfold wordStep.
  set (wordWithSpace :=
         if (0 <? length (currentLine st))%nat || (0 <? index)%nat
         then SP :: word else word).
  assert (Hw : wordOf wordWithSpace = word).
  { unfold wordWithSpace.
    destruct ((0 <? length (currentLine st))%nat || (0 <? index)%nat);
      [reflexivity | now apply wordOf_word]. }
  set (st0 := setFont _ st).
  assert (H0 : Carries base words st0) by exact Hcar.
  destruct (gtb _ _ && _).
  - apply (flushLine_Carries base words indent lineHeight) in H0.
    destruct H0 as [more [Hout Hwords]].
    exists more. cbn [out currentLine setLine]. split; [exact Hout|].
    rewrite map_app, app_assoc, Hwords. cbn [map seg_text].
    now rewrite (wordOf_word word Hword).
  - destruct H0 as [more [Hout Hwords]].
    exists more. cbn [out currentLine setLine]. split; [exact Hout|].
    rewrite map_app, app_assoc, Hwords. cbn [map seg_text]. now rewrite Hw.
Qed.

Lemma addToLine_Carries : forall base words t isBold isItalic isCode indent
                                 lineHeight st,
  Carries base words st ->
  Carries base (words ++ wordsOf t)
          (addToLine pdf t isBold isItalic isCode indent lineHeight st).
Proof.
  intros base words t b i c indent lineHeight st Hcar. unfold addToLine, indexed.
  pose proof (wordsOf_clean t) as Hclean.
  generalize 0%nat. revert words st Hcar.
  induction (wordsOf t) as [|w ws IH]; intros words st Hcar start.
  - now rewrite app_nil_r.
  - cbn [length seq combine fold_left].
    apply Forall_cons_iff in Hclean. destruct Hclean as [[_ Hw] Hws].
    replace (words ++ w :: ws) with ((words ++ [w]) ++ ws)
      by (now rewrite <- app_assoc).
    apply IH; [exact Hws|]. now apply wordStep_Carries.
Qed.

Lemma elementStep_Carries : forall base words indent lineHeight st element,
  Carries base words st ->
  Carries base (words ++ wordsOf (content element))
          (elementStep pdf indent lineHeight st element).
Proof.
  intros base words indent lineHeight st element Hcar. unfold elementStep.
  destruct (type element); try now apply addToLine_Carries.
  apply (flushLine_Carries base _ indent lineHeight
           (addToLine pdf (content element) true false false indent lineHeight
              (flushLine pdf indent lineHeight st))).
  apply addToLine_Carries. now apply flushLine_Carries.
Qed.

Lemma elements_Carries : forall base indent lineHeight elements words st,
  Carries base words st ->
  Carries base (words ++ concat (map (fun e => wordsOf (content e)) elements))
          (fold_left (elementStep pdf indent lineHeight) elements st).
Proof.
  intros base indent lineHeight elements.
  induction elements as [|e es IH]; intros words st Hcar.
  - simpl. now rewrite app_nil_r.
  - cbn [fold_left map concat]. rewrite app_assoc.
    apply IH. now apply elementStep_Carries.
Qed.

(** X22.  No word is placed across two lines: the placements of the lines
    written for a sequence of runs are, one for one and in order, the words of
    the runs, each after at most one separating space. *)
Lemma words_kept_whole : forall elements size indent st,
  placedWords (newLines st (addFormattedElements pdf elements size indent st))
  = concat (map (fun e => wordsOf (content e)) elements).
Proof.
  intros elements size indent st. unfold addFormattedElements, newLines.
  set (lineHeight := size * (6 # 10)).
  set (st0 := setFontSize size (setLine [] 0 st)).
  assert (H0 : Carries (out st) [] st0) by (exists []; now rewrite app_nil_r).
  apply (elements_Carries (out st) indent lineHeight elements) in H0.
  apply (flushLine_Carries (out st) _ indent lineHeight) in H0.
  cbn [out setY app] in *.
  destruct H0 as [more [Hout Hwords]]. rewrite Hout.
  rewrite skipn_app, skipn_all, Nat.sub_diag. cbn [skipn app].
  rewrite <- Hwords.
  destruct (list_eq_dec Segment_eq_dec
              (currentLine (fold_left (elementStep pdf indent lineHeight) elements st0))
              []) as [E|E].
  - rewrite flushLine_empty by exact E. rewrite E. simpl. now rewrite app_nil_r.
  - destruct (flushLine_effect indent lineHeight _ E) as [-> _].
    simpl. now rewrite app_nil_r.
Qed.

(** *** Runs drawn in one font stay within the usable width *)

Lemma lineSum_app : forall f size segs seg,
  lineSum pdf f size (segs ++ [seg])
  = lineSum pdf f size segs + getTextWidth pdf f size (seg_text seg).
Proof. intros. unfold lineSum. now rewrite fold_left_app. Qed.

Lemma leftFont_last : forall f segs f0,
  segs <> [] ->
  Forall (fun seg => drawFont seg = f /\ leftFont seg = f) segs ->
  fold_left (fun _ seg => leftFont seg) segs f0 = f.
Proof.
  intros f segs. induction segs as [|seg segs IH]; intros f0 Hne Hall;
    [contradiction|].
  apply Forall_cons_iff in Hall. destruct Hall as [[_ Hleft] Hall].
  cbn [fold_left]. destruct segs as [|seg' segs]; [exact Hleft|].
  apply IH; [discriminate | exact Hall].
Qed.

(** The measured width of a flushed line whose segments are all drawn in
    [f] is the width counted for them. *)
Lemma lineWidth_uniform : forall f size segs items acc,
  map (fun p => (p_text p, p_font p, p_size p)) items
  = map (fun seg => (seg_text seg, drawFont seg, size)) segs ->
  Forall (fun seg => drawFont seg = f /\ leftFont seg = f) segs ->
  fold_left (fun w p => w + getTextWidth pdf (p_font p) (p_size p) (p_text p))
            items acc
  = fold_left (fun w seg => w + getTextWidth pdf f size (seg_text seg)) segs acc.
Proof.
  intros f size segs. induction segs as [|seg segs IH]; intros items acc Hmap Hall.
  - destruct items; [reflexivity | discriminate].
  - destruct items as [|p items]; [discriminate|].
    cbn [map] in Hmap. injection Hmap as Ht Hf Hs Hrest.
    apply Forall_cons_iff in Hall. destruct Hall as [[Hdraw _] Hall].
    cbn [fold_left]. rewrite Ht, Hf, Hs, Hdraw. now apply IH.
Qed.

Section OneFont.

Variable size indent : Q.
Variable base : list PlacedLine.

Lemma Uniform_refont : forall f f' st,
  currentLine st = [] -> Uniform pdf size indent base f st ->
  Uniform pdf size indent base f' st.
Proof.
  intros f f' st Hline [Hsize [Hout [_ [Hsum Hfit]]]].
  unfold Uniform. rewrite Hline in *.
  split; [exact Hsize|]. split; [exact Hout|]. split; [constructor|].
  split; [exact Hsum | exact Hfit].
Qed.

Lemma flushLine_Uniform : forall f lineHeight st,
  Uniform pdf size indent base f st ->
  Uniform pdf size indent base f (flushLine pdf indent lineHeight st)
  /\ currentLine (flushLine pdf indent lineHeight st) = []
  /\ (currentLine st <> [] -> font (flushLine pdf indent lineHeight st) = f).
Proof.
  intros f lineHeight st Huni.
  destruct (list_eq_dec Segment_eq_dec (currentLine st) []) as [Hline|Hne].
  - rewrite flushLine_empty by exact Hline.
    split; [exact Huni|]. split; [exact Hline|]. intros X. contradiction.
  - destruct Huni as [Hsize [[more [Hout Hfits]] [Hall [Hsum Hfit]]]].
    destruct (flushLine_line indent lineHeight st Hne)
      as [F1 [F2 [F3 [F4 [l [F5 F6]]]]]].
    split; [|split; [exact F1|]].
    + unfold Uniform. rewrite F1, F2, F3.
      split; [exact Hsize|]. split; [|split; [constructor|split]].
      * exists (more ++ [l]). rewrite F5, Hout, <- app_assoc.
        split; [reflexivity|]. apply Forall_app. split; [exact Hfits|].
        constructor; [|constructor].
        unfold fits. intros Hmany.
        assert (Hlen : length (l_items l) = length (currentLine st)).
        { rewrite <- (length_map (fun p => (p_text p, p_font p, p_size p))), F6.
          apply length_map. }
        unfold lineWidth.
        rewrite (lineWidth_uniform f (fontSize st) (currentLine st) (l_items l) 0 F6 Hall).
        rewrite Hsize. fold (lineSum pdf f size (currentLine st)).
        rewrite <- Hsum. apply Hfit. now rewrite <- Hlen.
      * reflexivity.
      * simpl. lia.
    + intros _. rewrite F4. now apply leftFont_last.
Qed.

Lemma wordStep_Uniform : forall isBold isItalic lineHeight st index word,
  Uniform pdf size indent base (mkFont helvetica (fontStyleOf isBold isItalic)) st ->
  Uniform pdf size indent base (mkFont helvetica (fontStyleOf isBold isItalic))
          (wordStep pdf isBold isItalic false indent lineHeight st (index, word)).
Proof.
  intros b i lineHeight st index word Huni.
  set (f := mkFont helvetica (fontStyleOf b i)) in *.
  unfold wordStep.
  set (wordWithSpace :=
         if (0 <? length (currentLine st))%nat || (0 <? index)%nat
         then SP :: word else word).
  change (mkFont helvetica (fontStyleOf b i)) with f.
  set (st0 := setFont f st).
  assert (H0 : Uniform pdf size indent base f st0) by exact Huni.
  assert (Hseg : forall t, drawFont (mkSegment t b i false) = f
                           /\ leftFont (mkSegment t b i false) = f)
    by (intros t; now split).
  assert (Hw : textWidth pdf st0 wordWithSpace = getTextWidth pdf f size wordWithSpace).
  { unfold textWidth. cbn [font fontSize st0 setFont].
    destruct Huni as [-> _]. reflexivity. }
  destruct (gtb (currentLineWidth st0 + textWidth pdf st0 wordWithSpace)
                (maxWidth pdf - indent)
            && (0 <? length (currentLine st0))%nat) eqn:Hcond.
  - (* the line is flushed and the word starts the next one *)
    apply andb_true_iff in Hcond. destruct Hcond as [_ Hlen].
    apply Nat.ltb_lt in Hlen.
    assert (Hne : currentLine st0 <> [])
      by (intros E; rewrite E in Hlen; simpl in Hlen; lia).
    destruct (flushLine_Uniform f lineHeight st0 H0) as [Hflush [Hline Hfont]].
    specialize (Hfont Hne).
    destruct Hflush as [Fsize [Fout [_ [_ _]]]].
    unfold Uniform. cbn [out fontSize currentLine currentLineWidth setLine].
    rewrite Hline. cbn [app].
    split; [exact Fsize|]. split; [exact Fout|].
    split; [constructor; [apply Hseg | constructor]|]. split.
    + unfold textWidth. cbn [font fontSize setLine]. rewrite Hfont, Fsize.
      unfold lineSum. cbn [fold_left seg_text]. lra.
    + simpl. lia.
  - (* the word is added to the line *)
    destruct H0 as [Hsize [Hout [Hall [Hsum Hfit]]]].
    unfold Uniform. cbn [out fontSize currentLine currentLineWidth setLine].
    split; [exact Hsize|]. split; [exact Hout|]. split; [|split].
    + apply Forall_app. split; [exact Hall|]. constructor; [apply Hseg | constructor].
    + rewrite lineSum_app. cbn [seg_text]. rewrite Hw, Hsum. reflexivity.
    + intros Hmany. rewrite length_app in Hmany. simpl in Hmany.
      apply andb_false_iff in Hcond. destruct Hcond as [Hcond|Hcond].
      * apply gtb_false in Hcond. exact Hcond.
      * apply Nat.ltb_ge in Hcond. unfold st0 in Hcond, Hmany.
        cbn [currentLine setFont] in Hcond, Hmany. lia.
Qed.

Lemma addToLine_Uniform : forall t isBold isItalic lineHeight st,
  Uniform pdf size indent base (mkFont helvetica (fontStyleOf isBold isItalic)) st ->
  Uniform pdf size indent base (mkFont helvetica (fontStyleOf isBold isItalic))
          (addToLine pdf t isBold isItalic false indent lineHeight st).
Proof.
  intros t b i lineHeight st Huni. unfold addToLine, indexed.
  generalize 0%nat. revert st Huni.
  induction (wordsOf t) as [|w ws IH]; intros st Huni start; [exact Huni|].
  cbn [length seq combine fold_left]. apply IH. now apply wordStep_Uniform.
Qed.

(** Plain text and headings: between two runs the waiting segments are
    plain. *)
Lemma elementStep_Uniform : forall lineHeight st element,
  type element = text \/ type element = header ->
  Uniform pdf size indent base (mkFont helvetica Normal) st ->
  Uniform pdf size indent base (mkFont helvetica Normal)
          (elementStep pdf indent lineHeight st element).
Proof.
  intros lineHeight st element Htype Huni. unfold elementStep.
  destruct Htype as [-> | ->].
  - now apply (addToLine_Uniform (content element) false false).
  - destruct (flushLine_Uniform _ lineHeight st Huni) as [H1 [L1 _]].
    apply (Uniform_refont _ (mkFont helvetica Bold) _ L1) in H1.
    apply (addToLine_Uniform (content element) true false lineHeight) in H1.
    destruct (flushLine_Uniform _ lineHeight _ H1) as [H2 [L2 _]].
    apply (Uniform_refont _ (mkFont helvetica Normal) _ L2) in H2.
    exact H2.
Qed.

Lemma elements_Uniform : forall lineHeight elements st,
  Forall (fun e => type e = text \/ type e = header) elements ->
  Uniform pdf size indent base (mkFont helvetica Normal) st ->
  Uniform pdf size indent base (mkFont helvetica Normal)
          (fold_left (elementStep pdf indent lineHeight) elements st).
Proof.
  intros lineHeight elements.
  induction elements as [|e es IH]; intros st Hall Huni; [exact Huni|].
  apply Forall_cons_iff in Hall. destruct Hall as [He Hes].
  cbn [fold_left]. apply IH; [exact Hes|]. now apply elementStep_Uniform.
Qed.

End OneFont.

(** X23.  For runs of plain text and headings the bound on widths holds,
    whatever the measure: no line of more than one word written for them is
    wider than the usable width, every word being measured in the font it is
    drawn in. *)
Lemma plain_runs_within_width : forall elements size indent st,
  Forall (fun e => type e = text \/ type e = header) elements ->
  withinWidth pdf indent
              (newLines st (addFormattedElements pdf elements size indent st)).
Proof.
  intros elements size indent st Hall.
  unfold addFormattedElements, newLines.
  set (lineHeight := size * (6 # 10)).
  set (st0 := setFontSize size (setLine [] 0 st)).
  assert (H0 : Uniform pdf size indent (out st) (mkFont helvetica Normal) st0).
  { unfold Uniform, st0.
    cbn [out fontSize currentLine currentLineWidth setLine setFontSize].
    split; [reflexivity|]. split; [exists []; now rewrite app_nil_r|].
    split; [constructor|]. split; [reflexivity|]. simpl. lia. }
  apply (elements_Uniform size indent (out st) lineHeight elements st0 Hall) in H0.
  destruct (flushLine_Uniform size indent (out st) _ lineHeight _ H0)
    as [[_ [[more [Hout Hfits]] _]] _].
  cbn [out setY]. rewrite Hout, skipn_app, skipn_all, Nat.sub_diag.
  cbn [skipn app]. intros l Hin. rewrite Forall_forall in Hfits.
  now apply Hfits.
Qed.

End RendererFacts.

Lemma plain_runs_within_width_witness :
  withinWidth samplePdf 20
    (newLines initial
       (addFormattedElements samplePdf
          [ {| type := header; content := lit "Title of the notes"; level := Some 2%nat |};
            {| type := text; content := overflowContent; level := None |} ]
          10 20 initial)).
Proof.
  apply plain_runs_within_width.
  constructor; [now right|]. constructor; [now left|]. constructor.
Defined.

(** *** The sample metric *)

Lemma glyphUnits_positive : forall f c, (0 < glyphUnits f c)%Z.
Proof.
  intros [fam sty] c. unfold glyphUnits. cbn [family style].
  destruct fam; [|lia].
  destruct (Ascii.eqb c "i"%char); [destruct sty; lia|].
  destruct (Ascii.eqb c SP); lia.
Qed.

Lemma glyph_sum_grows : forall f w acc,
  (acc <= fold_left (fun a c => a + glyphUnits f c) w acc)%Z.
Proof.
  intros f w. induction w as [|c w IH]; intros acc; simpl; [lia|].
  pose proof (glyphUnits_positive f c). specialize (IH (acc + glyphUnits f c)%Z).
  lia.
Qed.

Lemma sampleWidth_positive : forall f w,
  w <> [] -> 0 < sampleWidth f 10 w.
Proof.
  intros f w Hw. unfold sampleWidth.
  destruct w as [|c w]; [contradiction|]. cbn [fold_left].
  pose proof (glyphUnits_positive f c) as Hc.
  pose proof (glyph_sum_grows f w (0 + glyphUnits f c)%Z) as Hsum.
  set (z := fold_left _ w _) in *.
  assert (Hz : 0 < inject_Z z) by (unfold Qlt; simpl; lia).
  assert (Hk : 0 < 10 * (254 # 720000)) by reflexivity.
  rewrite <- Qmult_assoc. now apply Qmult_lt_0_compat.
Qed.

(** *** A page without usable width *)

(** When the margins leave no usable width (and every non-empty text has a
    positive measure at the size of the paragraphs) the layout is returned all
    the same, and every line of it holds one placement. *)
Lemma no_width_one_placement_per_line : forall pdf results term,
  maxWidth pdf <= 0 ->
  (forall f w, w <> [] -> 0 < getTextWidth pdf f 10 w) ->
  exists lines,
    exportToPdf pdf results term = Some lines
    /\ lines <> []
    /\ Forall (fun l => length (l_items l) = 1%nat) lines.
Proof.
  intros pdf results term Hzero Hpos. unfold exportToPdf.
  match goal with
  | |- context [fold_left (resultStep pdf) results (Some ?s)] => set (st := s)
  end.
  assert (Hgood : Good (out st)).
  { unfold st. cbn [out setY]. do 4 apply addWrappedText_Good.
    cbn [out setY emit setFont setFontSize initial app].
    split; [discriminate|]. now repeat constructor. }
  destruct (results_Good pdf Hzero Hpos results st Hgood) as [st' [-> [H1 H2]]].
  exists (out st'). now repeat split.
Qed.

End PdfFacts.

(** ** Paragraphs: what [splitTextIntoParagraphs] returns *)

Module ParagraphFacts.
Import Segmentation Visible JsFacts SegmentationFacts.

Lemma visible_app : forall a b, visible (a ++ b) = visible a ++ visible b.
Proof. intros. apply filter_app. Qed.

Lemma visible_blank : forall s,
  Forall (fun c => isWhiteSpace c = true) s -> visible s = [].
Proof.
  induction 1 as [|c s Hc _ IH]; [reflexivity|].
  unfold visible in *. cbn. now rewrite Hc.
Qed.

Lemma visible_cons : forall c s,
  visible (c :: s) = if isWhiteSpace c then visible s else c :: visible s.
Proof. intros. unfold visible. cbn [filter]. now destruct (isWhiteSpace c). Qed.

Lemma visible_dropWhile : forall s, visible (dropWhile isWhiteSpace s) = visible s.
Proof.
  induction s as [|c s IH]; [reflexivity|]. cbn [dropWhile].
  destruct (isWhiteSpace c) eqn:Hc; [|reflexivity].
  now rewrite IH, visible_cons, Hc.
Qed.

Lemma visible_rev : forall s, visible (rev s) = rev (visible s).
Proof.
  induction s as [|c s IH]; [reflexivity|]. cbn [rev].
  rewrite visible_app, IH. unfold visible at 2 3. cbn.
  destruct (isWhiteSpace c); cbn; [now rewrite app_nil_r | reflexivity].
Qed.

Lemma visible_trim : forall s, visible (trim s) = visible s.
Proof.
  intros s. unfold trim, trimEnd, trimStart.
  now rewrite visible_rev, visible_dropWhile, visible_rev, rev_involutive,
    visible_dropWhile.
Qed.

(** A string is blank for [trim] exactly when it has no visible
    character. *)
Lemma trim_nil_visible : forall s, trim s = [] <-> visible s = [].
Proof.
  intros s. split; intros H.
  - rewrite <- visible_trim, H. reflexivity.
  - rewrite <- visible_trim in H.
    pose proof (dropWhile_head isWhiteSpace s) as Hd.
    apply trimEnd_head in Hd. fold (trimStart s) in Hd. fold (trim s) in Hd.
    destruct (trim s) as [|c t]; [reflexivity|].
    unfold visible in H. cbn in H. rewrite Hd in H. discriminate.
Qed.

Lemma nonBlank_visible : forall p, nonBlank p = true <-> visible p <> [].
Proof.
  intros p. unfold nonBlank. rewrite <- trim_nil_visible.
  destruct (trim p); cbn; split; congruence.
Qed.

Lemma visible_join : forall sep ps,
  visible sep = [] -> visible (join ps sep) = concat (map visible ps).
Proof.
  intros sep ps Hsep. induction ps as [|p ps IH]; [reflexivity|].
  destruct ps as [|q ps].
  - cbn. now rewrite app_nil_r.
  - change (join (p :: q :: ps) sep) with (p ++ sep ++ join (q :: ps) sep).
    rewrite !visible_app, Hsep, IH. reflexivity.
Qed.

Lemma visible_nonBlank : forall ps,
  concat (map visible (filter nonBlank ps)) = concat (map visible ps).
Proof.
  induction ps as [|p ps IH]; [reflexivity|]. cbn.
  destruct (nonBlank p) eqn:Hp; cbn; [now rewrite IH|].
  rewrite IH.
  assert (visible p = []) as ->; [|reflexivity].
  destruct (visible p) eqn:Hv; [reflexivity|].
  assert (nonBlank p = true) by (apply nonBlank_visible; congruence). congruence.
Qed.

(** Replacing a pattern of white space by white space keeps the visible
    characters. *)
Lemma visible_replaceAll_go : forall pat rep,
  pat <> [] -> visible pat = [] -> visible rep = [] ->
  forall s k, visible (firstn k s) = [] ->
  visible (replaceAll_go pat rep s k) = visible (skipn k s).
Proof.
  intros pat rep Hne Hpat Hrep. induction s as [|c s IH]; intros k Hk.
  - now destruct k.
  - destruct k as [|k]; cbn [replaceAll_go skipn].
    + destruct (startsWith (c :: s) pat) eqn:Hsw.
      * apply startsWith_split in Hsw.
        destruct pat as [|a pat']; [congruence|].
        cbn [length Nat.sub] in *. rewrite Nat.sub_0_r.
        injection Hsw as Ha Hs. cbn [skipn] in Hs.
        rewrite visible_cons in Hpat.
        destruct (isWhiteSpace a) eqn:Hwa; [|discriminate].
        rewrite visible_app, Hrep. cbn [app].
        rewrite IH.
        -- rewrite Hs at 2. rewrite visible_cons. subst c. rewrite Hwa.
           now rewrite visible_app, Hpat.
        -- rewrite Hs. rewrite firstn_app, Nat.sub_diag, firstn_all. cbn [firstn].
           now rewrite app_nil_r.
      * rewrite !visible_cons. destruct (isWhiteSpace c); rewrite (IH 0); auto.
    + cbn [firstn] in Hk. rewrite visible_cons in Hk.
      destruct (isWhiteSpace c); [|discriminate]. now apply IH.
Qed.

Lemma visible_replaceAll : forall s pat rep,
  pat <> [] -> visible pat = [] -> visible rep = [] ->
  visible (replaceAll s pat rep) = visible s.
Proof.
  intros. unfold replaceAll. now rewrite visible_replaceAll_go.
Qed.

Lemma visible_normalize : forall text,
  visible (normalizeLineEndings text) = visible text.
Proof.
  intros. unfold normalizeLineEndings.
  rewrite !visible_replaceAll; (reflexivity || discriminate).
Qed.

Lemma visible_split : forall s sep,
  sep <> [] -> visible sep = [] ->
  concat (map visible (filter nonBlank (split s sep))) = visible s.
Proof.
  intros s sep Hne Hsep.
  rewrite visible_nonBlank, <- (visible_join sep) by assumption.
  now rewrite join_split.
Qed.

(** [split] through [indexOf]: the first piece ends at the first occurrence
    of the separator, and the scan resumes behind it. *)
Lemma split_go_unfold : forall sep, sep <> [] -> forall s cur,
  split_go sep s 0 cur
  = match indexOf s sep with
    | None => [rev cur ++ s]
    | Some i =>
        (rev cur ++ firstn i s) :: split_go sep (skipn (i + length sep) s) 0 []
    end.
Proof.
  intros sep Hne. induction s as [|c s IH]; intros cur.
  - destruct sep; [congruence|]. cbn. now rewrite app_nil_r.
  - cbn [split_go indexOf]. destruct (startsWith (c :: s) sep) eqn:Hsw.
    + cbn [firstn]. rewrite app_nil_r. f_equal.
      pose proof (startsWith_length _ _ Hsw) as Hlen. cbn [length] in Hlen.
      rewrite split_go_skip by lia.
      destruct sep as [|a sep']; [congruence|]. cbn [length Nat.sub Nat.add skipn].
      now rewrite Nat.sub_0_r.
    + rewrite IH. destruct (indexOf s sep) as [i|]; cbn [option_map rev].
      * cbn [firstn Nat.add skipn]. now rewrite <- app_assoc.
      * now rewrite <- app_assoc.
Qed.

Lemma startsWith_prefix : forall p a b,
  startsWith a p = true -> startsWith (a ++ b) p = true.
Proof.
  induction p as [|x p IH]; intros a b H; [apply startsWith_nil|].
  destruct a as [|y a]; [discriminate|]. cbn [startsWith app] in *.
  apply andb_true_iff in H as [-> H]. cbn [andb]. now apply IH.
Qed.

Lemma indexOf_occurrence : forall p a b, exists i, indexOf (a ++ p ++ b) p = Some i.
Proof.
  intros p a b. destruct (indexOf (a ++ p ++ b) p) as [i|] eqn:H; [now exists i|].
  pose proof (indexOf_None _ _ (length a) H) as Hn.
  rewrite skipn_app, skipn_all, Nat.sub_diag in Hn. cbn [skipn app] in Hn.
  now rewrite startsWith_app in Hn.
Qed.

(** The text before the first occurrence contains none. *)
Lemma indexOf_before : forall p s i,
  p <> [] -> indexOf s p = Some i -> indexOf (firstn i s) p = None.
Proof.
  intros p s i Hne H.
  destruct (indexOf (firstn i s) p) as [j|] eqn:Hj; [|reflexivity].
  exfalso. apply indexOf_Some in Hj as [Hlen Hskip].
  assert (Hp : 1 <= length p) by (destruct p; [congruence | cbn; lia]).
  pose proof (firstn_le_length i s) as Hle.
  assert (Hji : j < i) by lia.
  pose proof (indexOf_first _ _ _ j H Hji) as Hno.
  rewrite <- (firstn_skipn i s) in Hno.
  rewrite skipn_app in Hno.
  rewrite (startsWith_prefix p) in Hno; [discriminate|].
  rewrite Hskip. apply startsWith_app.
Qed.

Lemma split_go_pieces : forall sep, sep <> [] -> forall n s,
  length s <= n ->
  Forall (fun p => indexOf p sep = None /\ exists a b, s = a ++ p ++ b)
         (split_go sep s 0 []).
Proof.
  intros sep Hne. induction n as [|n IH]; intros s Hn.
  - destruct s; [|cbn in Hn; lia].
    rewrite split_go_unfold by assumption.
    destruct sep; [congruence|]. cbn. constructor; [|constructor].
    split; [reflexivity|]. now exists [], [].
  - rewrite split_go_unfold by assumption.
    destruct (indexOf s sep) as [i|] eqn:Hi; cbn [rev app].
    + constructor.
      * split; [now apply indexOf_before|].
        exists [], (skipn i s). cbn. now rewrite firstn_skipn.
      * pose proof (indexOf_Some _ _ _ Hi) as [Hlen _].
        assert (Hp : 1 <= length sep) by (destruct sep; [congruence | cbn; lia]).
        assert (Hrest : length (skipn (i + length sep) s) <= n)
          by (rewrite length_skipn; lia).
        specialize (IH _ Hrest).
        eapply Forall_impl; [|exact IH].
        intros p [Hp1 [a [b Hab]]]. split; [exact Hp1|].
        exists (firstn (i + length sep) s ++ a), b.
        rewrite <- app_assoc, <- Hab. now rewrite firstn_skipn.
    + constructor; [|constructor]. split; [exact Hi|].
      exists [], []. cbn. now rewrite app_nil_r.
Qed.

Lemma split_pieces : forall s sep, sep <> [] ->
  Forall (fun p => includes p sep = false /\ exists a b, s = a ++ p ++ b)
         (split s sep).
Proof.
  intros s sep Hne. unfold split. destruct sep as [|c sep']; [congruence|].
  eapply Forall_impl; [|apply (split_go_pieces (c :: sep') Hne (length s) s (le_n _))].
  intros p [H1 H2]. split; [|exact H2]. unfold includes. now rewrite H1.
Qed.

Lemma includes_longer : forall s p q,
  includes s p = false -> includes s (p ++ q) = false.
Proof.
  intros s p q H. unfold includes in *.
  destruct (indexOf s p) eqn:Hp; [discriminate|].
  destruct (indexOf s (p ++ q)) as [i|] eqn:Hpq; [|reflexivity].
  apply indexOf_Some in Hpq as [_ Hs].
  pose proof (indexOf_None _ _ i Hp) as Hn.
  rewrite Hs, <- app_assoc, startsWith_app in Hn. discriminate.
Qed.

Lemma includes_part : forall s a p b c,
  s = a ++ p ++ b -> includes s [c] = false -> includes p [c] = false.
Proof.
  intros s a p b c -> H. rewrite includes_single in *.
  rewrite !existsb_app in H.
  apply orb_false_iff in H as [_ H]. now apply orb_false_iff in H as [H _].
Qed.

Lemma replaceAll_go_CR : forall s k,
  existsb (Ascii.eqb CR) (replaceAll_go [CR] [LF] s k) = false.
Proof.
  induction s as [|c s IH]; intros k; [reflexivity|].
  destruct k; cbn [replaceAll_go]; [|apply IH].
  rewrite startsWith_single. destruct (Ascii.eqb CR c) eqn:Hc.
  - cbn [app existsb length Nat.sub]. rewrite IH. reflexivity.
  - cbn [existsb]. now rewrite Hc, IH.
Qed.

Lemma normalize_no_CR : forall text,
  includes (normalizeLineEndings text) [CR] = false.
Proof.
  intros. rewrite includes_single. apply replaceAll_go_CR.
Qed.

Lemma candidate_well_formed : forall text sep,
  sep <> [] ->
  Forall (fun p => trim p <> []
                   /\ includes p [CR] = false
                   /\ includes p sep = false
                   /\ exists a b, normalizeLineEndings text = a ++ p ++ b)
         (filter nonBlank (split (normalizeLineEndings text) sep)).
Proof.
  intros text sep Hne. apply Forall_forall. intros p Hin.
  apply filter_In in Hin as [Hin Hnb].
  pose proof (split_pieces (normalizeLineEndings text) sep Hne) as Hall.
  rewrite Forall_forall in Hall. destruct (Hall p Hin) as [Hsep [a [b Hab]]].
  split; [|split; [|split]].
  - unfold nonBlank in Hnb. destruct (trim p); [discriminate | congruence].
  - eapply includes_part; [exact Hab | apply normalize_no_CR].
  - exact Hsep.
  - now exists a, b.
Qed.

Lemma candidate_nil_iff_blank : forall text sep,
  sep <> [] -> visible sep = [] ->
  filter nonBlank (split (normalizeLineEndings text) sep) = [] <-> trim text = [].
Proof.
  intros text sep Hne Hsep.
  rewrite trim_nil_visible, <- visible_normalize.
  rewrite <- (visible_split (normalizeLineEndings text) sep Hne Hsep).
  split; intros H.
  - now rewrite H.
  - pose proof (candidate_well_formed text sep Hne) as Hwf.
    destruct (filter nonBlank (split (normalizeLineEndings text) sep)) as [|p ps];
      [reflexivity|].
    inversion Hwf as [|? ? (Hp & _) _]; subst.
    cbn in H. apply app_eq_nil in H as [H _].
    apply trim_nil_visible in H. contradiction.
Qed.

(** X1.  Segmentation loses nothing but white space: the visible characters
    of the paragraphs returned for a text, taken in order, are the visible
    characters of the text. *)
Theorem paragraphs_keep_visible_text : forall text,
  concat (map visible (paragraphs (splitTextIntoParagraphs text))) = visible text.
Proof.
  intros text.
  destruct (selector_two_candidates text) as [-> | ->];
    unfold doubleCandidate, singleCandidate;
    (rewrite visible_split; [apply visible_normalize | discriminate | reflexivity]).
Qed.

(** X2.  Every paragraph returned for a text is non-blank, holds no carriage
    return and no blank line (two line feeds in a row), and is a contiguous
    part of the text with its line endings normalized. *)
Theorem paragraphs_well_formed : forall text,
  Forall (fun p => trim p <> []
                   /\ includes p [CR] = false
                   /\ includes p [LF; LF] = false
                   /\ exists before after,
                        normalizeLineEndings text = before ++ p ++ after)
         (paragraphs (splitTextIntoParagraphs text)).
Proof.
  intros text.
  destruct (selector_two_candidates text) as [-> | ->].
  - apply candidate_well_formed. discriminate.
  - eapply Forall_impl; [|apply (candidate_well_formed text [LF]); discriminate].
    intros p (H1 & H2 & H3 & H4). repeat split; auto.
    now apply (includes_longer p [LF] [LF]).
Qed.

(** X3.  A text yields no paragraph exactly when it is blank (empty or white
    space only). *)
Theorem no_paragraph_iff_blank : forall text,
  paragraphs (splitTextIntoParagraphs text) = [] <-> trim text = [].
Proof.
  intros text.
  destruct (selector_two_candidates text) as [-> | ->];
    apply candidate_nil_iff_blank; (discriminate || reflexivity).
Qed.

End ParagraphFacts.

(** ** Restructuring: what [processFoundParagraph] keeps *)

Module RestructureInvariants.
Import Restructure JsFacts RestructureFacts ParagraphFacts.

Lemma pipeCount_app : forall a b, pipeCount (a ++ b) = pipeCount a + pipeCount b.
Proof. intros. unfold pipeCount. now rewrite filter_app, length_app. Qed.

Lemma pipeCount_zero : forall s, pipeCount s = 0 <-> includes s PIPE = false.
Proof.
  intros s. change PIPE with ["|"%char].
  rewrite includes_single. unfold pipeCount.
  induction s as [|c s IH]; cbn [filter existsb length]; [tauto|].
  destruct (Ascii.eqb "|" c); cbn [orb length]; [split; intros; discriminate | exact IH].
Qed.

Lemma pipeCount_cons : forall c s,
  pipeCount (c :: s) = (if Ascii.eqb "|" c then 1 else 0) + pipeCount s.
Proof.
  intros. unfold pipeCount. cbn [filter]. now destruct (Ascii.eqb "|" c).
Qed.

Lemma pipeCount_rev : forall s, pipeCount (rev s) = pipeCount s.
Proof.
  induction s as [|c s IH]; [reflexivity|]. cbn [rev].
  rewrite pipeCount_app, IH, !pipeCount_cons. cbn [pipeCount filter length]. lia.
Qed.

Lemma pipeCount_dropWhile : forall f s, pipeCount (dropWhile f s) <= pipeCount s.
Proof.
  induction s as [|c s IH]; cbn [dropWhile]; [lia|].
  destruct (f c); [|lia]. rewrite pipeCount_cons. lia.
Qed.

Lemma pipeCount_trim : forall s, pipeCount (trim s) <= pipeCount s.
Proof.
  intros s. unfold trim, trimEnd, trimStart. rewrite pipeCount_rev.
  etransitivity; [apply pipeCount_dropWhile|]. rewrite pipeCount_rev.
  apply pipeCount_dropWhile.
Qed.

Lemma pipeCount_join : forall ps,
  Forall (fun p => pipeCount p = 0) ps -> pipeCount (join ps (lit " ")) = 0.
Proof.
  induction 1 as [|p ps Hp Hps IH]; [reflexivity|].
  destruct ps as [|q ps]; [exact Hp|].
  change (join (p :: q :: ps) (lit " ")) with (p ++ lit " " ++ join (q :: ps) (lit " ")).
  rewrite !pipeCount_app, Hp, IH. reflexivity.
Qed.

Lemma sections_no_pipe : forall paragraph,
  Forall (fun s => pipeCount s = 0) (sections paragraph).
Proof.
  intros paragraph. unfold sections. apply Forall_map.
  eapply Forall_impl; [|apply (split_pieces paragraph PIPE); discriminate].
  intros p [Hp _]. apply pipeCount_zero in Hp.
  pose proof (pipeCount_trim p). lia.
Qed.

Lemma triggered_no_pipe : forall paragraph term,
  2 <= pipeCount paragraph -> pipeCount (restructure paragraph term) = 0.
Proof.
  intros paragraph term H. unfold restructure.
  rewrite processed_triggered by assumption.
  apply pipeCount_join.
  pose proof (sections_no_pipe paragraph) as Hs.
  constructor.
  - destruct (sections paragraph) as [|b r]; [reflexivity|].
    now inversion Hs.
  - rewrite Forall_forall in *. intros s Hin.
    apply filter_In in Hin as [Hin _]. apply Hs.
    destruct (sections paragraph); [contradiction | now right].
Qed.

(** X4.  A restructured paragraph holds at most one pipe, so restructuring it
    again, for the same or any other term, changes nothing. *)
Theorem restructure_idempotent : forall paragraph term term',
  pipeCount (restructure paragraph term) < 2
  /\ restructure (restructure paragraph term) term' = restructure paragraph term.
Proof.
  intros paragraph term term'.
  assert (H : pipeCount (restructure paragraph term) < 2).
  { destruct (le_lt_dec 2 (pipeCount paragraph)) as [Hp | Hp].
    - rewrite triggered_no_pipe by assumption. lia.
    - unfold restructure. now rewrite processed_untriggered. }
  split; [exact H|].
  unfold restructure at 1. now rewrite processed_untriggered.
Qed.

Lemma length_dropWhile : forall f s, length (dropWhile f s) <= length s.
Proof.
  induction s as [|c s IH]; cbn [dropWhile]; [lia|].
  destruct (f c); cbn [length]; lia.
Qed.

Lemma length_trim : forall s, length (trim s) <= length s.
Proof.
  intros s. unfold trim, trimEnd, trimStart. rewrite length_rev.
  etransitivity; [apply length_dropWhile|]. rewrite length_rev.
  apply length_dropWhile.
Qed.

(** The length of a joined list: the pieces, and a separator before each
    piece but the first. *)
Lemma length_join : forall sep p ps,
  length (join (p :: ps) sep)
  = length p + list_sum (map (fun q => length sep + length q) ps).
Proof.
  intros sep p ps. revert p. induction ps as [|q ps IH]; intros p.
  - cbn. lia.
  - change (join (p :: q :: ps) sep) with (p ++ sep ++ join (q :: ps) sep).
    rewrite !length_app, IH. unfold list_sum. cbn [map fold_right]. lia.
Qed.

Lemma selected_shorter : forall f ps,
  list_sum (map (fun q => 1 + length q) (filter f (map trim ps)))
  <= list_sum (map (fun q => 1 + length q) ps).
Proof.
  induction ps as [|p ps IH]; [cbn; lia|]. cbn [map filter].
  pose proof (length_trim p).
  unfold list_sum in *. destruct (f (trim p)); cbn [map fold_right]; lia.
Qed.

(** X5.  A restructured paragraph is never longer than the paragraph it was
    made from. *)
Theorem restructure_never_longer : forall paragraph term,
  length (restructure paragraph term) <= length paragraph.
Proof.
  intros paragraph term.
  destruct (le_lt_dec 2 (pipeCount paragraph)) as [Hp | Hp].
  - unfold restructure. rewrite processed_triggered by assumption.
    unfold sections.
    assert (Hj : join (split paragraph PIPE) PIPE = paragraph)
      by (apply join_split; discriminate).
    destruct (split paragraph PIPE) as [|b r] eqn:Hs.
    + pose proof (split_pipe_length paragraph) as Hl. rewrite Hs in Hl. discriminate.
    + apply (f_equal (@length ascii)) in Hj. rewrite <- Hj. cbn [map nth skipn].
      rewrite !length_join.
      pose proof (length_trim b).
      pose proof (selected_shorter (containsTerm (normalizeTerm term)) r).
      change (length (lit " ")) with 1.
      change (length PIPE) with 1. lia.
  - unfold restructure. now rewrite processed_untriggered.
Qed.


(** *** The term survives the restructuring *)

Lemma includes_occurs : forall s m,
  includes s m = true <-> exists a b, s = a ++ m ++ b.
Proof.
  intros s m. unfold includes. split.
  - destruct (indexOf s m) as [i|] eqn:Hi; [|discriminate]. intros _.
    apply indexOf_Some in Hi as [_ Hs].
    exists (firstn i s), (skipn (i + length m) s).
    now rewrite <- Hs, firstn_skipn.
  - intros [a [b ->]]. destruct (indexOf_occurrence m a b) as [i ->]. reflexivity.
Qed.

Lemma occurs_around : forall (c : ascii) (x y m : str),
  ~ In c m ->
  (exists a b, x ++ c :: y = a ++ m ++ b) ->
  (exists a b, x = a ++ m ++ b) \/ (exists a b, y = a ++ m ++ b).
Proof.
  intros c x y m Hc [a [b H]].
  apply app_eq_app in H as [l [[Hx Hm] | [Ha Hy]]].
  - symmetry in Hm. apply app_eq_app in Hm as [l' [[Hl Hb] | [Hm Hy]]].
    + left. exists a, l'. now rewrite Hx, Hl.
    + destruct l' as [|d l'].
      * left. exists a, []. rewrite app_nil_r in *. now rewrite Hx, Hm.
      * exfalso. apply Hc. injection Hy as -> _. rewrite Hm.
        apply in_or_app. right. now left.
  - destruct l as [|d l].
    + cbn in Hy. destruct m as [|e m].
      * left. exists x, []. now rewrite app_nil_r.
      * exfalso. apply Hc. injection Hy as -> _. now left.
    + right. injection Hy as _ Hy. now exists l, b.
Qed.

Lemma occurs_join : forall (c : ascii) (m : str) ps p0,
  ~ In c m ->
  (exists a b, join (p0 :: ps) [c] = a ++ m ++ b) ->
  exists p, In p (p0 :: ps) /\ exists a b, p = a ++ m ++ b.
Proof.
  intros c m ps p0 Hc. revert p0. induction ps as [|q ps IH]; intros p0 H.
  - exists p0. split; [now left | exact H].
  - change (join (p0 :: q :: ps) [c]) with (p0 ++ c :: join (q :: ps) [c]) in H.
    apply occurs_around in H as [H | H]; [| |exact Hc].
    + exists p0. split; [now left | exact H].
    + destruct (IH q H) as [p [Hin Hp]]. exists p. split; [now right | exact Hp].
Qed.

Lemma join_part : forall (sep : str) ps p,
  In p ps -> exists a b, join ps sep = a ++ p ++ b.
Proof.
  intros sep. induction ps as [|q ps IH]; intros p Hin; [contradiction|].
  destruct ps as [|r ps].
  - destruct Hin as [-> | []]. exists [], []. cbn. now rewrite app_nil_r.
  - change (join (q :: r :: ps) sep) with (q ++ sep ++ join (r :: ps) sep).
    destruct Hin as [-> | Hin].
    + exists [], (sep ++ join (r :: ps) sep). reflexivity.
    + destruct (IH p Hin) as [a [b ->]].
      exists (q ++ sep ++ a), b. now rewrite <- !app_assoc.
Qed.

Lemma toLowerCase_app : forall a b,
  toLowerCase (a ++ b) = toLowerCase a ++ toLowerCase b.
Proof. intros. apply map_app. Qed.

Lemma toLowerCase_join : forall ps sep,
  toLowerCase (join ps sep) = join (map toLowerCase ps) (toLowerCase sep).
Proof.
  induction ps as [|p ps IH]; intros sep; [reflexivity|].
  destruct ps as [|q ps]; [reflexivity|].
  change (join (p :: q :: ps) sep) with (p ++ sep ++ join (q :: ps) sep).
  rewrite !toLowerCase_app, IH. reflexivity.
Qed.

Lemma dropWhile_stop : forall f a (c : ascii) r,
  f c = false -> dropWhile f (a ++ c :: r) = dropWhile f a ++ c :: r.
Proof.
  intros f a c r Hc. induction a as [|d a IH]; cbn [app dropWhile].
  - now rewrite Hc.
  - destruct (f d); [exact IH | reflexivity].
Qed.

(** A string with no white space at either end that occurs in a text
    occurs in the trimmed text. *)
Lemma occurs_trim : forall s m,
  trim m = m ->
  (exists a b, s = a ++ m ++ b) -> exists a b, trim s = a ++ m ++ b.
Proof.
  intros s m Hm [a [b ->]].
  destruct m as [|c m'] eqn:Em.
  { exists [], (trim (a ++ b)). reflexivity. }
  rewrite <- Em in *.
  assert (Hhead : isWhiteSpace c = false).
  { pose proof (dropWhile_head isWhiteSpace m) as Hd.
    apply trimEnd_head in Hd. fold (trimStart m) in Hd. fold (trim m) in Hd.
    rewrite Hm, Em in Hd. exact Hd. }
  assert (Hlast : exists d r, rev m = d :: r /\ isWhiteSpace d = false).
  { pose proof (dropWhile_head isWhiteSpace (rev (trimStart m))) as Hd.
    assert (Hr : dropWhile isWhiteSpace (rev (trimStart m)) = rev m).
    { unfold trim, trimEnd in Hm. rewrite <- Hm at 2. now rewrite rev_involutive. }
    rewrite Hr in Hd. destruct (rev m) as [|d r] eqn:Er.
    - apply (f_equal (@rev ascii)) in Er. rewrite rev_involutive in Er.
      rewrite Em in Er. discriminate.
    - now exists d, r. }
  destruct Hlast as [d [r [Er Hd]]].
  unfold trim, trimEnd, trimStart.
  assert (E1 : dropWhile isWhiteSpace (a ++ m ++ b)
               = dropWhile isWhiteSpace a ++ m ++ b).
  { rewrite Em. cbn [app]. now apply dropWhile_stop. }
  assert (E2 : rev (dropWhile isWhiteSpace a ++ m ++ b)
               = rev b ++ d :: (r ++ rev (dropWhile isWhiteSpace a))).
  { rewrite !rev_app_distr, Er, <- app_assoc. reflexivity. }
  rewrite E1, E2, dropWhile_stop by assumption.
  exists (dropWhile isWhiteSpace a), (rev (dropWhile isWhiteSpace (rev b))).
  rewrite rev_app_distr.
  change (d :: r ++ rev (dropWhile isWhiteSpace a))
    with ((d :: r) ++ rev (dropWhile isWhiteSpace a)).
  rewrite <- Er, rev_app_distr, !rev_involutive.
  now rewrite app_assoc.
Qed.

(** X6.  The term survives the restructuring: for a term without a pipe, a
    paragraph that contains the normalized term, case ignored, still does
    after it has been restructured. *)
Theorem restructure_keeps_term : forall paragraph term,
  includes (normalizeTerm term) PIPE = false ->
  includes (toLowerCase paragraph) (normalizeTerm term) = true ->
  includes (toLowerCase (restructure paragraph term)) (normalizeTerm term) = true.
Proof.
  intros paragraph term Hpipe Hin.
  destruct (le_lt_dec 2 (pipeCount paragraph)) as [Hp | Hp];
    [|unfold restructure; now rewrite processed_untriggered].
  unfold restructure. rewrite processed_triggered by assumption.
  set (nt := normalizeTerm term) in *.
  assert (Hnt : trim nt = nt).
  { unfold nt, normalizeTerm. now rewrite trim_toLowerCase, trim_idem. }
  assert (Hno : ~ In "|"%char nt).
  { change PIPE with ["|"%char] in Hpipe. rewrite includes_single in Hpipe.
    intros Hc.
    assert (existsb (Ascii.eqb "|") nt = true); [|congruence].
    apply existsb_exists. exists "|"%char. split; [exact Hc | apply Ascii.eqb_refl]. }
  apply includes_occurs in Hin.
  assert (Hj : join (split paragraph PIPE) PIPE = paragraph)
    by (apply join_split; discriminate).
  rewrite <- Hj, toLowerCase_join in Hin.
  unfold sections.
  destruct (split paragraph PIPE) as [|b0 r0] eqn:Hs.
  { pose proof (split_pipe_length paragraph) as Hl. rewrite Hs in Hl. discriminate. }
  cbn [map] in Hin. change (toLowerCase PIPE) with ["|"%char] in Hin.
  apply occurs_join in Hin as [p' [Hp' Hocc]]; [|exact Hno].
  change (toLowerCase b0 :: map toLowerCase r0) with (map toLowerCase (b0 :: r0)) in Hp'.
  apply in_map_iff in Hp' as [p [<- Hpin]].
  apply (occurs_trim _ _ Hnt) in Hocc. rewrite trim_toLowerCase in Hocc.
  cbn [map nth skipn].
  assert (Hsel : In (trim p) (trim b0 :: filter (containsTerm nt) (map trim r0))).
  { destruct Hpin as [-> | Hpin]; [now left|]. right.
    apply filter_In. split; [now apply in_map|].
    unfold containsTerm. now apply includes_occurs. }
  destruct (join_part (lit " ") _ _ Hsel) as [a [b ->]].
  destruct Hocc as [a' [b' Hocc]].
  rewrite !toLowerCase_app, Hocc.
  apply includes_occurs.
  exists (toLowerCase a ++ a'), (b' ++ toLowerCase b).
  now rewrite <- !app_assoc.
Qed.

Lemma restructure_keeps_term_witness :
  includes (toLowerCase
              (restructure (lit "Intro | has SearchTerm here | no match | also searchterm")
                           (lit " SEARCHTERM ")))
           (normalizeTerm (lit " SEARCHTERM ")) = true.
Proof.
  apply restructure_keeps_term; reflexivity.
Defined.

End RestructureInvariants.

(** ** The search: what [handleSearch] returns, and [handleSubmit] before it *)

Module SearchInvariants.
Import Segmentation Restructure Search Sources JsFacts RestructureFacts SearchFacts MarkdownFacts.

Lemma strEq_refl : forall a, strEq a a = true.
Proof.
  induction a as [|x a IH]; [reflexivity|]. cbn [strEq].
  now rewrite Ascii.eqb_refl, IH.
Qed.

Lemma requested_length : forall files ids,
  length (requested files ids) <= length ids.
Proof.
  intros files. induction ids as [|fileId ids IH]; [cbn; lia|].
  unfold requested in *. cbn [flat_map]. rewrite length_app.
  destruct (findFile files fileId); cbn [length]; lia.
Qed.

Lemma requested_in : forall files ids f,
  In f (requested files ids) -> In f files /\ In (file_id f) ids.
Proof.
  intros files ids f H. unfold requested in H.
  apply in_flat_map in H as [fileId [Hid Hf]].
  destruct (findFile files fileId) as [g|] eqn:Hg; [|contradiction].
  destruct Hf as [-> | []]. unfold findFile in Hg.
  apply find_some in Hg as [Hin Heq]. apply strEq_eq in Heq.
  split; [exact Hin | now rewrite Heq].
Qed.

Lemma positive_count : forall (count : str -> nat) ps,
  length (filter (fun p => 0 <? count p) ps) <= list_sum (map count ps).
Proof.
  intros count. induction ps as [|p ps IH]; [cbn; lia|].
  cbn [filter map]. unfold list_sum in *. cbn [fold_right].
  destruct (0 <? count p) eqn:Hp; cbn [length].
  - apply Nat.ltb_lt in Hp. lia.
  - lia.
Qed.

Lemma matchResult_counters : forall term file,
  let r := matchResult term file in
  length (foundParagraphs r) <= totalParagraphs r
  /\ length (foundParagraphs r) <= occurrenceCount r.
Proof.
  intros term file. cbn. rewrite length_map. split.
  - apply filter_length_le.
  - apply positive_count.
Qed.

Lemma handleSearch_completed : forall stringify files term ids,
  trim term <> [] -> ids <> [] ->
  exists allDebugInfo,
    handleSearch stringify files term ids
    = Some (Completed (map (matchResult term) (requested files ids)) allDebugInfo).
Proof.
  intros stringify files term ids Hterm Hids.
  unfold handleSearch. rewrite (guard_passes term ids Hterm Hids).
  destruct (file_loop stringify files term Hterm ids [] []) as [dbg [H _]].
  change (toLowerCase (trim term)) with (normalizeTerm term).
  rewrite H. now exists dbg.
Qed.

Lemma handleSearch_ignored : forall stringify files term ids,
  trim term = [] \/ ids = [] ->
  handleSearch stringify files term ids = Some Ignored.
Proof.
  intros stringify files term ids H. unfold handleSearch.
  destruct H as [-> | ->]; [reflexivity|].
  cbn [length Nat.eqb]. now rewrite orb_true_r.
Qed.

(** X7.  A search always returns, whatever the term (no term makes the
    regular expression built from it fail), and it leaves the component's state
    alone exactly when the term is blank or no identifier was requested. *)
Theorem search_always_returns : forall stringify files term ids,
  exists outcome,
    handleSearch stringify files term ids = Some outcome
    /\ (outcome = Ignored <-> trim term = [] \/ ids = []).
Proof.
  intros stringify files term ids.
  destruct (trim term) as [|c t] eqn:Ht.
  - exists Ignored. split; [|tauto]. apply handleSearch_ignored. now left.
  - destruct ids as [|i ids].
    + exists Ignored. split; [|tauto]. apply handleSearch_ignored. now right.
    + destruct (handleSearch_completed stringify files term (i :: ids))
        as [dbg H]; [congruence | discriminate |].
      eexists. split; [exact H|].
      split; [discriminate | intros [|]; discriminate].
Qed.

(** X8.  In the results of a completed search there is at most one result per
    requested identifier; each result bears the name of a requested stored
    file, has no more found paragraphs than paragraphs, and counts at least one
    occurrence per found paragraph. *)
Theorem result_counters : forall stringify files term ids results allDebugInfo,
  handleSearch stringify files term ids = Some (Completed results allDebugInfo) ->
  length results <= length ids
  /\ Forall (fun r =>
               length (foundParagraphs r) <= totalParagraphs r
               /\ length (foundParagraphs r) <= occurrenceCount r
               /\ exists f, In f files /\ In (file_id f) ids
                            /\ res_fileName r = file_name f)
            results.
Proof.
  intros stringify files term ids results allDebugInfo H.
  destruct (trim term) as [|c t] eqn:Ht.
  { rewrite handleSearch_ignored in H by now left. discriminate. }
  destruct ids as [|i ids].
  { rewrite handleSearch_ignored in H by now right. discriminate. }
  destruct (handleSearch_completed stringify files term (i :: ids))
    as [dbg H']; [congruence | discriminate |].
  rewrite H' in H. injection H as <- _.
  split.
  - rewrite length_map. exact (requested_length files (i :: ids)).
  - apply Forall_forall. intros r Hr. apply in_map_iff in Hr as [f [<- Hf]].
    destruct (matchResult_counters term f) as [H1 H2].
    split; [exact H1 | split; [exact H2|]].
    apply (requested_in files (i :: ids)) in Hf as [Hf1 Hf2]. now exists f.
Qed.

Lemma result_counters_witness :
  length [matchResult (lit "a.b") sampleFile] <= length [lit "doc-1"]
  /\ Forall (fun r =>
               length (foundParagraphs r) <= totalParagraphs r
               /\ length (foundParagraphs r) <= occurrenceCount r
               /\ exists f, In f [sampleFile] /\ In (file_id f) [lit "doc-1"]
                            /\ res_fileName r = file_name f)
            [matchResult (lit "a.b") sampleFile].
Proof.
  eapply (result_counters noStringify [sampleFile] (lit "a.b") [lit "doc-1"]).
  vm_compute. reflexivity.
Defined.

Lemma fold_left_pointwise : forall (A B : Type) (f g : A -> B -> A) l a,
  (forall a b, f a b = g a b) -> fold_left f l a = fold_left g l a.
Proof.
  intros A B f g l. induction l as [|b l IH]; intros a H; [reflexivity|].
  cbn. rewrite H. now apply IH.
Qed.

Lemma normalizeTerm_blank : forall term, normalizeTerm term = [] <-> trim term = [].
Proof.
  intros term. unfold normalizeTerm, toLowerCase.
  destruct (trim term); cbn; split; congruence.
Qed.

(** X9.  A search depends on the term only through its normalized form: two
    terms that differ in case or in surrounding white space give the same
    results and the same diagnostic entries. *)
Theorem search_term_normal_form : forall stringify files term1 term2 ids,
  normalizeTerm term1 = normalizeTerm term2 ->
  handleSearch stringify files term1 ids = handleSearch stringify files term2 ids.
Proof.
  intros stringify files term1 term2 ids H.
  unfold handleSearch.
  assert (Hguard : truthy (trim term1) = truthy (trim term2)).
  { unfold normalizeTerm, toLowerCase in H.
    destruct (trim term1), (trim term2); (reflexivity || discriminate). }
  rewrite Hguard.
  change (toLowerCase (trim term1)) with (normalizeTerm term1).
  change (toLowerCase (trim term2)) with (normalizeTerm term2).
  rewrite H.
  rewrite (fold_left_pointwise _ _
             (fileStep stringify files term1 (normalizeTerm term2))
             (fileStep stringify files term2 (normalizeTerm term2)));
    [reflexivity|].
  intros st fileId. unfold fileStep.
  destruct st as [[results dbg]|]; [|reflexivity].
  destruct (findFile files fileId) as [file|]; [|reflexivity].
  rewrite (fold_left_pointwise _ _
             (paragraphStep file term1 (normalizeTerm term2)
                (paragraphs (splitTextIntoParagraphs (file_content file))))
             (paragraphStep file term2 (normalizeTerm term2)
                (paragraphs (splitTextIntoParagraphs (file_content file)))));
    [reflexivity|].
  intros pst i. unfold paragraphStep, processFoundParagraph. now rewrite H.
Qed.

Lemma search_term_normal_form_witness :
  handleSearch noStringify [sampleFile] (lit " A.B ") [lit "doc-1"]
  = handleSearch noStringify [sampleFile] (lit "a.b") [lit "doc-1"].
Proof.
  apply search_term_normal_form. reflexivity.
Defined.

Lemma findFile_own : forall files f,
  NoDup (map file_id files) -> In f files -> findFile files (file_id f) = Some f.
Proof.
  induction files as [|g files IH]; intros f Hnd Hin; [contradiction|].
  cbn [map] in Hnd. inversion Hnd as [|? ? Hnot Hnd']; subst.
  unfold findFile in *. cbn [find].
  destruct (strEq (file_id g) (file_id f)) eqn:Heq.
  - apply strEq_eq in Heq. destruct Hin as [-> | Hin]; [reflexivity|].
    exfalso. apply Hnot. rewrite Heq. now apply in_map.
  - destruct Hin as [-> | Hin]; [now rewrite strEq_refl in Heq|].
    now apply IH.
Qed.

Lemma requested_all : forall files l,
  NoDup (map file_id files) -> incl l files ->
  requested files (map file_id l) = l.
Proof.
  intros files l Hnd. induction l as [|f l IH]; intros Hincl; [reflexivity|].
  unfold requested in *. cbn [map flat_map].
  rewrite findFile_own; [|exact Hnd | apply Hincl; now left].
  cbn [app]. f_equal. apply IH. intros x Hx. apply Hincl. now right.
Qed.

Lemma submit_arguments : forall searchTerm files term ids,
  handleSubmit searchTerm files = Some (term, ids) ->
  term = trim searchTerm /\ ids = map file_id files
  /\ trim term <> [] /\ files <> [].
Proof.
  intros searchTerm files term ids H. unfold handleSubmit in H.
  destruct (truthy (trim searchTerm)) eqn:Ht; [|discriminate].
  destruct (0 <? length files) eqn:Hlen; [|discriminate].
  cbn [andb] in H. injection H as <- <-.
  split; [reflexivity|]. split; [reflexivity|]. split.
  - rewrite trim_idem. destruct (trim searchTerm); [discriminate | congruence].
  - destruct files; [discriminate | congruence].
Qed.

Lemma search_all_files : forall stringify files term,
  trim term <> [] -> files <> [] -> NoDup (map file_id files) ->
  exists allDebugInfo,
    handleSearch stringify files term (map file_id files)
    = Some (Completed (map (matchResult term) files) allDebugInfo).
Proof.
  intros stringify files term Hterm Hfiles Hnd.
  destruct (handleSearch_completed stringify files term (map file_id files))
    as [dbg Hs]; [exact Hterm | now destruct files |].
  exists dbg. rewrite Hs, requested_all; [reflexivity | exact Hnd | apply incl_refl].
Qed.

(** X10.  When the form submits and the stored files have distinct
    identifiers, the search it starts completes and holds one result per stored
    file, in the order of the files. *)
Theorem submit_searches_every_file : forall stringify files searchTerm term ids,
  NoDup (map file_id files) ->
  handleSubmit searchTerm files = Some (term, ids) ->
  exists allDebugInfo,
    handleSearch stringify files term ids
    = Some (Completed (map (matchResult term) files) allDebugInfo).
Proof.
  intros stringify files searchTerm term ids Hnd H.
  destruct (submit_arguments _ _ _ _ H) as (_ & -> & Hterm & Hfiles).
  now apply search_all_files.
Qed.

Lemma submit_searches_every_file_witness :
  exists allDebugInfo,
    handleSearch noStringify [sampleFile] (lit "a.b") [lit "doc-1"]
    = Some (Completed (map (matchResult (lit "a.b")) [sampleFile]) allDebugInfo).
Proof.
  apply (submit_searches_every_file noStringify [sampleFile] (lit "  a.b ")).
  - repeat constructor. intros [].
  - reflexivity.
Defined.

End SearchInvariants.

(** ** Highlighting: the two [highlightSearchTerm] *)

Module HighlightFacts.
Import Restructure Search Highlight JsFacts SearchFacts ParagraphFacts.

(** *** The flag [i] and [toLowerCase] below code unit 256 *)

(** Every code unit of the model is in [allAscii]. *)
Lemma allAscii_complete : forall c, In c allAscii.
Proof.
  intros c. unfold allAscii. rewrite <- (ascii_nat_embedding c).
  apply in_map, in_seq. pose proof (nat_ascii_bounded c). lia.
Qed.

Lemma by_cases : forall f : ascii -> bool,
  forallb f allAscii = true -> forall c, f c = true.
Proof.
  intros f H c. rewrite forallb_forall in H. apply H, allAscii_complete.
Qed.

(** The lower-case form is read back from the canonical form. *)
Lemma lowerChar_canonicalize : forall c,
  lowerChar c = lowerOfCanonical (canonicalize c).
Proof.
  intros c. apply Ascii.eqb_eq. revert c. apply by_cases.
  vm_compute. reflexivity.
Qed.

Lemma canonicalize_lowerChar : forall c, canonicalize (lowerChar c) = canonicalize c.
Proof.
  intros c. apply Nat.eqb_eq. revert c. apply by_cases.
  vm_compute. reflexivity.
Qed.

(** On code units below 256 two code units have the same canonical form
    exactly when they have the same lower-case form. *)
Lemma canonEq_lower : forall a b,
  canonEq a b = Ascii.eqb (lowerChar a) (lowerChar b).
Proof.
  intros a b. unfold canonEq. apply eq_true_iff_eq.
  rewrite Nat.eqb_eq, Ascii.eqb_eq. split; intros H.
  - rewrite (lowerChar_canonicalize a), (lowerChar_canonicalize b), H. reflexivity.
  - rewrite <- (canonicalize_lowerChar a), <- (canonicalize_lowerChar b), H.
    reflexivity.
Qed.

Lemma startsWithCI_lower : forall pat s,
  startsWithCI s pat = startsWith (toLowerCase s) (toLowerCase pat).
Proof.
  induction pat as [|a pat IH]; intros s; [now destruct s|].
  destruct s as [|b s]; [reflexivity|].
  cbn [startsWithCI toLowerCase map startsWith]. rewrite canonEq_lower.
  now rewrite IH.
Qed.

Lemma indexOfCI_lower : forall pat s,
  indexOfCI s pat = indexOf (toLowerCase s) (toLowerCase pat).
Proof.
  intros pat. induction s as [|c s IH].
  - cbn [indexOfCI indexOf]. rewrite startsWithCI_lower. reflexivity.
  - cbn [indexOfCI]. rewrite startsWithCI_lower, IH. reflexivity.
Qed.

Lemma toLowerCase_nil : forall s, toLowerCase s = [] -> s = [].
Proof. now destruct s. Qed.

Lemma toLowerCase_skipn : forall k s, toLowerCase (skipn k s) = skipn k (toLowerCase s).
Proof. intros. unfold toLowerCase. now rewrite skipn_map. Qed.

Lemma toLowerCase_firstn : forall k s, toLowerCase (firstn k s) = firstn k (toLowerCase s).
Proof. intros. unfold toLowerCase. now rewrite firstn_map. Qed.

Lemma newCaptureRegExp_escape : forall term,
  newCaptureRegExp (lit "(" ++ escapeRegExp term ++ lit ")") = Some term.
Proof.
  intros term. unfold newCaptureRegExp.
  change (lit "(" ++ escapeRegExp term ++ lit ")")
    with ("("%char :: (escapeRegExp term ++ [")"%char])).
  cbv iota. rewrite Ascii.eqb_refl, rev_app_distr. cbn [rev app].
  rewrite Ascii.eqb_refl, rev_involutive. apply newRegExp_escape.
Qed.

Lemma splitCapture_go_skip : forall pat s k cur,
  k <= length s -> splitCapture_go pat s k cur = splitCapture_go pat (skipn k s) 0 cur.
Proof.
  intros pat. induction s as [|c s IH]; intros k cur Hk.
  - destruct k; [reflexivity | cbn in Hk; lia].
  - destruct k as [|k]; [reflexivity|]. cbn [splitCapture_go skipn].
    apply IH. cbn in Hk. lia.
Qed.

Lemma indexOfCI_Some : forall pat s i,
  indexOfCI s pat = Some i ->
  i + length pat <= length s
  /\ toLowerCase (firstn (length pat) (skipn i s)) = toLowerCase pat.
Proof.
  intros pat s i H. rewrite indexOfCI_lower in H.
  apply indexOf_Some in H as [Hlen Hs].
  rewrite !toLowerCase_length in Hlen. split; [exact Hlen|].
  rewrite toLowerCase_firstn, toLowerCase_skipn, Hs.
  rewrite <- (toLowerCase_length pat), firstn_app, Nat.sub_diag, firstn_all.
  cbn [firstn]. now rewrite app_nil_r.
Qed.

(** [split] with the capture, through [indexOfCI]. *)
Lemma splitCapture_go_unfold : forall pat, pat <> [] -> forall s cur,
  splitCapture_go pat s 0 cur
  = match indexOfCI s pat with
    | None => [rev cur ++ s]
    | Some i =>
        (rev cur ++ firstn i s) :: firstn (length pat) (skipn i s)
        :: splitCapture_go pat (skipn (i + length pat) s) 0 []
    end.
Proof.
  intros pat Hne. induction s as [|c s IH]; intros cur.
  - destruct pat; [congruence|]. cbn. now rewrite app_nil_r.
  - cbn [splitCapture_go indexOfCI]. destruct (startsWithCI (c :: s) pat) eqn:Hsw.
    + cbn [firstn skipn]. rewrite app_nil_r. f_equal. f_equal.
      assert (Hlen : length pat <= length (c :: s)).
      { rewrite startsWithCI_lower in Hsw. apply startsWith_length in Hsw.
        now rewrite !toLowerCase_length in Hsw. }
      cbn [length] in Hlen.
      rewrite splitCapture_go_skip by lia.
      destruct pat as [|a pat']; [congruence|]. cbn [length Nat.sub Nat.add skipn].
      now rewrite Nat.sub_0_r.
    + rewrite IH. destruct (indexOfCI s pat) as [i|]; cbn [option_map rev].
      * cbn [firstn Nat.add skipn]. now rewrite <- app_assoc.
      * now rewrite <- app_assoc.
Qed.

(** No occurrence in a text: none in any of its ends. *)
Lemma indexOfCI_suffix : forall pat s k,
  indexOfCI s pat = None -> indexOfCI (skipn k s) pat = None.
Proof.
  intros pat s k H. rewrite indexOfCI_lower in *. rewrite toLowerCase_skipn.
  destruct (indexOf (skipn k (toLowerCase s)) (toLowerCase pat)) as [j|] eqn:Hj;
    [|reflexivity].
  apply indexOf_Some in Hj as [_ Hj]. rewrite skipn_skipn in Hj.
  pose proof (indexOf_None _ _ (j + k) H) as Hn.
  rewrite Hj, startsWith_app in Hn. discriminate.
Qed.

Lemma indexOfCI_before : forall pat s i,
  pat <> [] -> indexOfCI s pat = Some i -> indexOfCI (firstn i s) pat = None.
Proof.
  intros pat s i Hne H. rewrite indexOfCI_lower in *. rewrite toLowerCase_firstn.
  apply indexOf_before; [|exact H].
  intros E. apply Hne. now apply toLowerCase_nil.
Qed.

Lemma indexOfCI_capture : forall pat s i,
  indexOfCI s pat = Some i ->
  indexOfCI (firstn (length pat) (skipn i s)) pat = Some 0.
Proof.
  intros pat s i H. apply indexOfCI_Some in H as [_ H].
  set (cap := firstn (length pat) (skipn i s)) in *.
  assert (Hsw : startsWithCI cap pat = true).
  { rewrite startsWithCI_lower, H.
    rewrite <- (app_nil_r (toLowerCase pat)) at 1. apply startsWith_app. }
  destruct cap; cbn [indexOfCI]; now rewrite Hsw.
Qed.

(** A piece without occurrence fails the test wherever the search starts,
    and the test leaves [lastIndex] at 0. *)
Lemma test_plain : forall pat part lastIndex,
  indexOfCI part pat = None -> test pat part lastIndex = (false, 0).
Proof.
  intros pat part lastIndex H. unfold test.
  destruct (length part <? lastIndex); [reflexivity|].
  now rewrite indexOfCI_suffix.
Qed.

Lemma test_capture : forall pat s i,
  indexOfCI s pat = Some i ->
  test pat (firstn (length pat) (skipn i s)) 0 = (true, length pat).
Proof.
  intros pat s i H. unfold test. cbn [Nat.ltb Nat.leb skipn].
  destruct (length (firstn (length pat) (skipn i s)) <? 0) eqn:E;
    [apply Nat.ltb_lt in E; lia|].
  now rewrite (indexOfCI_capture pat s i H).
Qed.

(** The loop of DebugPanel.tsx over the parts, from any [lastIndex]. *)
Lemma mark_loop : forall pat, pat <> [] -> forall fuel s nodes lastIndex,
  length s <= fuel ->
  fold_left (markStep pat) (splitCapture_go pat s 0 []) (nodes, lastIndex)
  = (nodes ++ markOccurrences fuel s pat, 0).
Proof.
  intros pat Hne. induction fuel as [|fuel IH]; intros s nodes lastIndex Hlen.
  - destruct s; [|cbn in Hlen; lia].
    rewrite splitCapture_go_unfold by assumption.
    assert (Hnone : indexOfCI [] pat = None) by (destruct pat; [congruence | reflexivity]).
    rewrite Hnone. cbn [rev app fold_left markStep markOccurrences].
    now rewrite test_plain.
  - rewrite splitCapture_go_unfold by assumption. cbn [markOccurrences].
    destruct (indexOfCI s pat) as [i|] eqn:Hi; cbn [rev app fold_left].
    + unfold markStep at 2 3.
      rewrite test_plain by now apply indexOfCI_before.
      rewrite (test_capture pat s i Hi).
      pose proof (indexOfCI_Some _ _ _ Hi) as [Hi1 _].
      assert (Hp : 1 <= length pat) by (destruct pat; [congruence | cbn; lia]).
      rewrite IH by (rewrite length_skipn; lia).
      now rewrite <- !app_assoc.
    + unfold markStep. now rewrite test_plain.
Qed.

(** The loop of SearchResults.tsx, which resets [lastIndex] after a
    match. *)
Lemma rebuild_loop : forall pat, pat <> [] -> forall fuel s result,
  length s <= fuel ->
  fold_left (rebuildStep pat) (splitCapture_go pat s 0 []) (result, 0)
  = (result ++ concat (map render (markOccurrences fuel s pat)), 0).
Proof.
  intros pat Hne. induction fuel as [|fuel IH]; intros s result Hlen.
  - destruct s; [|cbn in Hlen; lia].
    rewrite splitCapture_go_unfold by assumption.
    assert (Hnone : indexOfCI [] pat = None) by (destruct pat; [congruence | reflexivity]).
    rewrite Hnone. cbn [rev app fold_left rebuildStep markOccurrences].
    now rewrite test_plain.
  - rewrite splitCapture_go_unfold by assumption. cbn [markOccurrences].
    destruct (indexOfCI s pat) as [i|] eqn:Hi; cbn [rev app fold_left].
    + unfold rebuildStep at 2 3.
      rewrite test_plain by now apply indexOfCI_before.
      rewrite (test_capture pat s i Hi).
      pose proof (indexOfCI_Some _ _ _ Hi) as [Hi1 _].
      assert (Hp : 1 <= length pat) by (destruct pat; [congruence | cbn; lia]).
      rewrite IH by (rewrite length_skipn; lia).
      cbn [map concat render]. now rewrite <- !app_assoc.
    + unfold rebuildStep. rewrite test_plain by assumption.
      cbn [map concat render]. now rewrite app_nil_r.
Qed.

Lemma nonblank_truthy : forall term, trim term <> [] -> negb (truthy (trim term)) = false.
Proof. intros term H. now destruct (trim term). Qed.

Lemma highlightNodes_spec : forall txt term,
  trim term <> [] ->
  highlightNodes txt term = Some (markOccurrences (length txt) txt (trim term)).
Proof.
  intros txt term H. unfold highlightNodes.
  rewrite nonblank_truthy, newCaptureRegExp_escape by assumption.
  unfold splitCapture. destruct (trim term) as [|c t] eqn:Ht; [congruence|].
  rewrite (mark_loop (c :: t)) with (fuel := length txt) by (discriminate || lia).
  reflexivity.
Qed.

Lemma highlightSearchTerm_spec : forall txt term,
  trim term <> [] ->
  highlightSearchTerm txt term
  = Some (concat (map render (markOccurrences (length txt) txt (trim term)))).
Proof.
  intros txt term H. unfold highlightSearchTerm.
  rewrite nonblank_truthy, newCaptureRegExp_escape by assumption.
  unfold splitCapture. destruct (trim term) as [|c t] eqn:Ht; [congruence|].
  rewrite (rebuild_loop (c :: t)) with (fuel := length txt) by (discriminate || lia).
  reflexivity.
Qed.


(** X11.  The two highlighters always return and mark the same parts of a
    text: what SearchResults.tsx builds is what DebugPanel.tsx renders with
    every highlighted part put between two [**], although only the former
    resets [lastIndex] after a successful test. *)
Theorem highlighters_agree : forall txt term,
  exists nodes,
    highlightNodes txt term = Some nodes
    /\ highlightSearchTerm txt term = Some (concat (map render nodes)).
Proof.
  intros txt term. destruct (trim term) as [|c t] eqn:Ht.
  - exists [Plain txt]. unfold highlightNodes, highlightSearchTerm. rewrite Ht.
    cbn. now rewrite app_nil_r.
  - exists (markOccurrences (length txt) txt (trim term)). split.
    + apply highlightNodes_spec. congruence.
    + apply highlightSearchTerm_spec. congruence.
Qed.

Lemma markOccurrences_text : forall pat fuel s,
  concat (map nodeText (markOccurrences fuel s pat)) = s.
Proof.
  intros pat. induction fuel as [|fuel IH]; intros s; cbn [markOccurrences].
  - cbn. apply app_nil_r.
  - destruct (indexOfCI s pat) as [i|] eqn:Hi.
    + cbn [map concat nodeText]. rewrite IH.
      rewrite <- (firstn_skipn i s) at 4. f_equal.
      rewrite <- (firstn_skipn (length pat) (skipn i s)) at 2. f_equal.
      now rewrite skipn_skipn, Nat.add_comm.
    + cbn. apply app_nil_r.
Qed.

Lemma markOccurrences_exact : forall pat, pat <> [] -> forall fuel s,
  length s <= fuel ->
  Forall (fun n => match n with
                   | Span part => toLowerCase part = toLowerCase pat
                   | Plain part => includes (toLowerCase part) (toLowerCase pat) = false
                   end)
         (markOccurrences fuel s pat).
Proof.
  intros pat Hne. induction fuel as [|fuel IH]; intros s Hlen; cbn [markOccurrences].
  - destruct s; [|cbn in Hlen; lia]. constructor; [|constructor].
    destruct pat; [congruence | reflexivity].
  - destruct (indexOfCI s pat) as [i|] eqn:Hi.
    + pose proof (indexOfCI_Some _ _ _ Hi) as [Hi1 Hi2].
      assert (Hp : 1 <= length pat) by (destruct pat; [congruence | cbn; lia]).
      constructor; [|constructor].
      * unfold includes. rewrite <- indexOfCI_lower.
        now rewrite (indexOfCI_before pat s i Hne Hi).
      * exact Hi2.
      * apply IH. rewrite length_skipn. lia.
    + constructor; [|constructor].
      unfold includes. now rewrite <- indexOfCI_lower, Hi.
Qed.

(** X12.  For a text and a non-blank term made of code units below 256
    (Latin-1, the strings of this model), the nodes of DebugPanel.tsx, put
    end to end, are the text; every highlighted part is the normalized term
    up to case, and no other part contains the normalized term, case
    ignored.  The flag [i] compares canonical (upper-case) forms and the
    search compares lower-case forms; below 256 the two agree
    ([canonEq_lower]), beyond they do not (the two small sigmas, the Kelvin
    sign), and nothing is stated there. *)
Theorem highlight_nodes_exact : forall txt term,
  trim term <> [] ->
  exists nodes,
    highlightNodes txt term = Some nodes
    /\ concat (map nodeText nodes) = txt
    /\ Forall (fun n =>
                 match n with
                 | Span part => toLowerCase part = normalizeTerm term
                 | Plain part =>
                     includes (toLowerCase part) (normalizeTerm term) = false
                 end) nodes.
Proof.
  intros txt term H.
  exists (markOccurrences (length txt) txt (trim term)).
  split; [now apply highlightNodes_spec|].
  split; [apply markOccurrences_text|].
  now apply markOccurrences_exact.
Qed.

Lemma highlight_nodes_exact_witness :
  exists nodes,
    highlightNodes (lit "x a.b axb A.B") (lit " a.b ") = Some nodes
    /\ concat (map nodeText nodes) = lit "x a.b axb A.B"
    /\ Forall (fun n =>
                 match n with
                 | Span part => toLowerCase part = normalizeTerm (lit " a.b ")
                 | Plain part =>
                     includes (toLowerCase part) (normalizeTerm (lit " a.b ")) = false
                 end) nodes.
Proof.
  apply highlight_nodes_exact. vm_compute. discriminate.
Defined.

Lemma markOccurrences_count : forall pat fuel s,
  length (concat (map render (markOccurrences fuel s pat)))
  = length s + 4 * scanCount fuel (toLowerCase s) (toLowerCase pat)
  /\ length (filter isSpan (markOccurrences fuel s pat))
     = scanCount fuel (toLowerCase s) (toLowerCase pat).
Proof.
  intros pat. induction fuel as [|fuel IH]; intros s;
    cbn [markOccurrences scanCount].
  - cbn. rewrite app_nil_r. split; lia.
  - rewrite <- indexOfCI_lower.
    destruct (indexOfCI s pat) as [i|] eqn:Hi.
    + pose proof (indexOfCI_Some _ _ _ Hi) as [Hi1 _].
      cbn [map concat render filter isSpan length].
      rewrite toLowerCase_length, <- toLowerCase_skipn.
      destruct (IH (skipn (i + length pat) s)) as [IH1 IH2].
      rewrite !length_app, IH1, IH2, length_skipn.
      rewrite !length_firstn, length_skipn.
      change (length BOLD) with 2. split; lia.
    + cbn. rewrite app_nil_r. split; lia.
Qed.

(** X13.  For a text and a non-blank term made of code units below 256
    (Latin-1, the strings of this model), the number of highlighted parts of
    the text is the number of occurrences the search counts in it, and the
    text built by SearchResults.tsx is four characters longer per
    occurrence.  Beyond code unit 255 the upper-case comparison of the flag
    [i] and the lower-case comparison of the search can differ, and nothing
    is stated there. *)
Theorem highlight_count : forall txt term,
  trim term <> [] ->
  exists nodes result,
    highlightNodes txt term = Some nodes
    /\ highlightSearchTerm txt term = Some result
    /\ length (filter isSpan nodes) = count_occurrences txt (normalizeTerm term)
    /\ length result = length txt + 4 * count_occurrences txt (normalizeTerm term).
Proof.
  intros txt term H.
  exists (markOccurrences (length txt) txt (trim term)).
  exists (concat (map render (markOccurrences (length txt) txt (trim term)))).
  split; [now apply highlightNodes_spec|].
  split; [now apply highlightSearchTerm_spec|].
  destruct (markOccurrences_count (trim term) (length txt) txt) as [H1 H2].
  split; [exact H2 | exact H1].
Qed.

Lemma highlight_count_witness :
  exists nodes result,
    highlightNodes (lit "x a.b axb A.B") (lit " a.b ") = Some nodes
    /\ highlightSearchTerm (lit "x a.b axb A.B") (lit " a.b ") = Some result
    /\ length (filter isSpan nodes)
       = count_occurrences (lit "x a.b axb A.B") (normalizeTerm (lit " a.b "))
    /\ length result
       = length (lit "x a.b axb A.B")
         + 4 * count_occurrences (lit "x a.b axb A.B") (normalizeTerm (lit " a.b ")).
Proof.
  apply highlight_count. vm_compute. discriminate.
Defined.

End HighlightFacts.

(** ** The structured export: [createDocxTextRuns], [exportToDocx] *)

Module DocxFacts.
Import Markdown Docx JsFacts MarkdownFacts.

Lemma parse_markers : forall txt,
  exists els ps,
    parseMarkdown txt = Some els /\ Forall2 markersOf els ps /\ sourceOf ps = txt.
Proof.
  intros txt.
  destruct (parseLoop_spec (length txt) txt 0 [] []) as [els [ps [H [H1 H2]]]];
    try lia; try constructor; try reflexivity.
  now exists els, ps.
Qed.

Lemma indexOfObject_nonneg : forall results r,
  (indexOfObject results r = -1 \/ 0 <= indexOfObject results r)%Z.
Proof.
  induction results as [|x results IH]; intros r; cbn [indexOfObject]; [now left|].
  destruct (ref x =? ref r); [right; lia|].
  destruct (IH r) as [-> | H]; [now left|].
  destruct (indexOfObject results r); [right | right | lia]; lia.
Qed.

(** Among objects of distinct identity, [indexOf] finds the position of the
    object itself. *)
Lemma indexOfObject_position : forall pre r post,
  NoDup (map ref (pre ++ r :: post)) ->
  indexOfObject (pre ++ r :: post) r = Z.of_nat (length pre).
Proof.
  induction pre as [|x pre IH]; intros r post Hnd.
  - cbn [app indexOfObject length]. now rewrite Nat.eqb_refl.
  - cbn [app map] in Hnd. inversion Hnd as [|? ? Hnot Hnd']; subst.
    cbn [app indexOfObject].
    destruct (ref x =? ref r) eqn:E.
    + apply Nat.eqb_eq in E. exfalso. apply Hnot. rewrite E.
      apply in_map. apply in_or_app. right. now left.
    + rewrite IH by assumption. cbn [length].
      destruct (Z.of_nat (length pre)) eqn:Ez; lia.
Qed.

Lemma numbered_paragraphs : forall found k children,
  exists body,
    fold_left paragraphBlock (combine (seq k (length found)) found) (Some children)
    = Some (children ++ body)
    /\ Forall (fun p => par_pageBreakBefore p = false) body
    /\ Forall2 (fun ip par =>
                  exists elements,
                    parseMarkdown (trim (snd ip)) = Some elements
                    /\ par_children par
                       = boldRun (showNat (fst ip + 1) ++ lit ". ")
                         :: createDocxTextRuns elements)
               (combine (seq k (length found)) found) body.
Proof.
  induction found as [|p found IH]; intros k children.
  - exists []. cbn. rewrite app_nil_r. repeat split; constructor.
  - cbn [length seq combine fold_left paragraphBlock].
    destruct (runs_total (trim p)) as [els Hels]. rewrite Hels.
    destruct (IH (S k)
                (children
                 ++ [runsParagraph
                       (boldRun (showNat (k + 1) ++ lit ". ") :: createDocxTextRuns els)
                       200])) as [body [H1 [H2 H3]]].
    exists (runsParagraph
              (boldRun (showNat (k + 1) ++ lit ". ") :: createDocxTextRuns els) 200
            :: body).
    split; [|split].
    + rewrite H1, <- app_assoc. reflexivity.
    + constructor; [reflexivity | exact H2].
    + constructor; [|exact H3]. exists els. split; [exact Hels | reflexivity].
Qed.

Lemma resultBlock_spec : forall results r children,
  exists group,
    fileGroup r group
    /\ resultBlock results (Some children) r
       = Some (children ++ group
               ++ (if (indexOfObject results r <? Z.of_nat (length results) - 1)%Z
                   then [pageBreak] else [])).
Proof.
  intros results r children. unfold resultBlock, fileGroup.
  set (fnd := Search.foundParagraphs (value r)).
  destruct (length fnd =? 0) eqn:E.
  - assert (Hf : fnd = []) by (destruct fnd; [reflexivity | discriminate]).
    eexists (_ :: _ :: [_]). split; cycle 1.
    + destruct (indexOfObject results r <? Z.of_nat (length results) - 1)%Z;
        rewrite <- ?app_assoc; cbn [app]; rewrite ?app_nil_r; reflexivity.
    + eexists _, _, _. split; [reflexivity|].
      split; [reflexivity|]. split.
      * repeat constructor.
      * rewrite Hf. eexists. split; reflexivity.
  - unfold Pdf.indexed.
    match goal with
    | |- context [fold_left paragraphBlock _ (Some ?c)] =>
        destruct (numbered_paragraphs fnd 0 c) as [body [H1 [H2 H3]]]
    end.
    rewrite H1.
    eexists (_ :: _ :: body). split; cycle 1.
    + destruct (indexOfObject results r <? Z.of_nat (length results) - 1)%Z;
        rewrite <- ?app_assoc; cbn [app]; rewrite ?app_nil_r; reflexivity.
    + eexists _, _, body. split; [reflexivity|].
      split; [reflexivity|]. split.
      * constructor; [reflexivity|]. constructor; [reflexivity | exact H2].
      * destruct fnd as [|p found]; [discriminate | exact H3].
Qed.

Lemma result_groups : forall results, NoDup (map ref results) ->
  forall post pre children,
  results = pre ++ post ->
  exists groups,
    Forall2 fileGroup post groups
    /\ fold_left (resultBlock results) post (Some children)
       = Some (children ++ joinGroups groups).
Proof.
  intros results Hnd. induction post as [|r post IH]; intros pre children Hres.
  - exists []. split; [constructor|]. cbn. now rewrite app_nil_r.
  - cbn [fold_left].
    destruct (resultBlock_spec results r children) as [group [Hg Hstep]].
    rewrite Hstep.
    assert (Hidx : indexOfObject results r = Z.of_nat (length pre)).
    { rewrite Hres. apply indexOfObject_position. now rewrite <- Hres. }
    assert (Hlen : length results = length pre + S (length post)).
    { rewrite Hres, length_app. reflexivity. }
    rewrite Hidx, Hlen.
    destruct (IH (pre ++ [r])
                 (children ++ group
                  ++ (if (Z.of_nat (length pre)
                          <? Z.of_nat (length pre + S (length post)) - 1)%Z
                      then [pageBreak] else [])))
      as [groups [Hgs Hfold]].
    { rewrite <- app_assoc. exact Hres. }
    exists (group :: groups). split; [now constructor|].
    rewrite Hfold. f_equal.
    pose proof (Forall2_length Hgs) as Hl.
    destruct post as [|r' post']; destruct groups as [|g' gs']; try discriminate.
    + match goal with
      | |- context [(?a <? ?b)%Z] => destruct (Z.ltb_spec a b)
      end; [cbn [length] in *; lia|].
      cbn [joinGroups]. now rewrite !app_nil_r.
    + match goal with
      | |- context [(?a <? ?b)%Z] => destruct (Z.ltb_spec a b)
      end; [|cbn [length] in *; lia].
      change (joinGroups (group :: g' :: gs'))
        with (group ++ pageBreak :: joinGroups (g' :: gs')).
      rewrite <- !app_assoc. reflexivity.
Qed.

(** X14.  For results that are distinct objects the structured export always
    builds its document: after the title and the summary it holds one group of
    paragraphs per result, in order (the heading with the file name, the line
    of counts, then one numbered paragraph per found paragraph or the line
    saying that none was found), a page break between two groups and none
    after the last. *)
Theorem docx_one_group_per_result : forall results searchTerm,
  NoDup (map ref results) ->
  exists groups,
    Forall2 fileGroup results groups
    /\ exportToDocx results searchTerm
       = Some (preamble results searchTerm ++ joinGroups groups).
Proof.
  intros results searchTerm Hnd. unfold exportToDocx.
  apply (result_groups results Hnd results []). reflexivity.
Qed.

Lemma docx_one_group_per_result_witness :
  exists groups,
    Forall2 fileGroup
            [ {| ref := 0; value := Pdf.sampleResult |};
              {| ref := 1; value := Pdf.overflowResult |} ] groups
    /\ exportToDocx [ {| ref := 0; value := Pdf.sampleResult |};
                      {| ref := 1; value := Pdf.overflowResult |} ] (lit "alpha")
       = Some (preamble [ {| ref := 0; value := Pdf.sampleResult |};
                          {| ref := 1; value := Pdf.overflowResult |} ] (lit "alpha")
               ++ joinGroups groups).
Proof.
  apply docx_one_group_per_result. cbn [map ref].
  constructor; [intros [H | []]; discriminate|].
  constructor; [intros []|]. constructor.
Defined.

(** X15.  The runs made from the tokens of a text carry the contents of the
    tokens, in order; a heading token of level [k] gives a bold run of size
    [28 - 2k], the level being between 1 and 6 (the fallback level is never
    used), and no other run has a size. *)
Theorem docx_runs_of_tokens : forall txt,
  exists elements,
    parseMarkdown txt = Some elements
    /\ map run_text (createDocxTextRuns elements) = map content elements
    /\ Forall (fun e =>
                 match type e with
                 | header =>
                     exists k, level e = Some k /\ 1 <= k <= 6
                               /\ run_bold (textRunOf e) = true
                               /\ run_size (textRunOf e)
                                  = Some (28 - 2 * Z.of_nat k)%Z
                 | _ => run_size (textRunOf e) = None
                 end) elements.
Proof.
  intros txt. destruct (parse_markers txt) as [els [ps [H [Hm _]]]].
  exists els. split; [exact H|]. split.
  - unfold createDocxTextRuns. rewrite map_map. apply map_ext.
    intros e. unfold textRunOf. now destruct (type e).
  - clear H. induction Hm as [|e p els ps He _ IH]; constructor; [|exact IH].
    destruct He as [_ He]. unfold textRunOf.
    destruct (type e); try reflexivity.
    destruct He as [k [ws [Hk [Hr _]]]]. exists k. rewrite Hk.
    split; [reflexivity|]. split; [exact Hr|]. split; [reflexivity|].
    cbn [run_size]. unfold levelOr1. destruct k as [|k]; [lia|]. f_equal. lia.
Qed.

End DocxFacts.

(** ** File sources: uploads, the data folder, the form *)

Module SourcesFacts.
Import Search Sources JsFacts RestructureFacts MarkdownFacts SearchInvariants.

(** *** Decimal numerals *)

Lemma to_uint_not_Nil : forall n, Nat.to_uint n <> Decimal.Nil.
Proof.
  intros n H.
  assert (Hn : n = 0).
  { rewrite <- (DecimalNat.Unsigned.of_to n), H. reflexivity. }
  subst n. discriminate.
Qed.

Lemma showNat_inj : forall n m, showNat n = showNat m -> n = m.
Proof.
  intros n m H. unfold showNat, lit in H.
  apply (f_equal string_of_list_ascii) in H.
  rewrite !string_of_list_ascii_of_string in H.
  apply (f_equal NilZero.uint_of_string) in H.
  rewrite !NilZero.usu in H by apply to_uint_not_Nil.
  injection H as H. now apply DecimalNat.Unsigned.to_uint_inj.
Qed.

Lemma digits_no_dash : forall d,
  ~ In "-"%char (list_ascii_of_string (NilEmpty.string_of_uint d)).
Proof.
  induction d; cbn [NilEmpty.string_of_uint list_ascii_of_string];
    intros H; try (destruct H as [H | H]; [discriminate | now apply IHd]).
  contradiction.
Qed.

Lemma showNat_no_dash : forall n, ~ In "-"%char (showNat n).
Proof.
  intros n. unfold showNat, lit, NilZero.string_of_uint.
  destruct (Nat.to_uint n) eqn:E; try (rewrite <- E; apply digits_no_dash).
  cbn. intros [H | []]. discriminate.
Qed.

(** Two texts that agree are cut alike at their first separator. *)
Lemma first_separator : forall (d : ascii) (x y a b : str),
  ~ In d x -> ~ In d y -> x ++ d :: a = y ++ d :: b -> x = y /\ a = b.
Proof.
  intros d. induction x as [|c x IH]; intros y a b Hx Hy H.
  - destruct y as [|e y]; cbn in H.
    + injection H as H. now split.
    + injection H as H1 H2. exfalso. apply Hy. now left.
  - destruct y as [|e y]; cbn in H.
    + injection H as H1 H2. exfalso. apply Hx. now left.
    + injection H as H1 H2.
      destruct (IH y a b) as [-> ->]; auto.
      * intros Hin. apply Hx. now right.
      * intros Hin. apply Hy. now right.
      * now subst.
Qed.

(** And at their last separator. *)
Lemma last_separator : forall (d : ascii) (x y a b : str),
  ~ In d x -> ~ In d y -> a ++ d :: x = b ++ d :: y -> a = b /\ x = y.
Proof.
  intros d x y a b Hx Hy H.
  apply (f_equal (@rev ascii)) in H.
  rewrite !rev_app_distr in H. cbn [rev] in H. rewrite <- !app_assoc in H.
  cbn [app] in H.
  apply first_separator in H as [H1 H2].
  - apply (f_equal (@rev ascii)) in H1, H2. rewrite !rev_involutive in H1, H2.
    now split.
  - intros Hin. apply Hx. now apply in_rev.
  - intros Hin. apply Hy. now apply in_rev.
Qed.

(** *** FileUpload.tsx *)

Lemma uploadStep_spec : forall now fileList processed errors i,
  let file := nth i fileList noFile in
  uploadStep now fileList (processed, errors) i
  = if accepted file
    then (processed ++ [uploadEntry now (i, file)], errors)
    else (processed, errors ++ [uploadError file]).
Proof.
  intros now fileList processed errors i file.
  unfold uploadStep, accepted, uploadError, supportedType, uploadEntry.
  fold file.
  destruct (includes (bf_type file) (lit "text"));
    destruct (endsWith (bf_name file) (lit ".md"));
    destruct (endsWith (bf_name file) (lit ".txt"));
    cbn [negb andb orb]; try reflexivity;
    (destruct (maxSize <? bf_size file) eqn:E4;
     [ apply Nat.ltb_lt in E4;
       replace (bf_size file <=? maxSize) with false
         by (symmetry; apply Nat.leb_gt; exact E4);
       reflexivity
     | apply Nat.ltb_ge in E4;
       replace (bf_size file <=? maxSize) with true
         by (symmetry; apply Nat.leb_le; exact E4);
       destruct (bf_text file); reflexivity ]).
Qed.

Lemma upload_loop : forall now l pre processed errors,
  fold_left (uploadStep now (pre ++ l)) (seq (length pre) (length l))
            (processed, errors)
  = (processed
     ++ map (uploadEntry now)
            (filter (fun ifile => accepted (snd ifile))
                    (combine (seq (length pre) (length l)) l)),
     errors
     ++ map (fun ifile => uploadError (snd ifile))
            (filter (fun ifile => negb (accepted (snd ifile)))
                    (combine (seq (length pre) (length l)) l))).
Proof.
  intros now. induction l as [|file l IH]; intros pre processed errors.
  - cbn. now rewrite !app_nil_r.
  - cbn [length seq fold_left combine filter snd].
    rewrite uploadStep_spec, nth_middle.
    assert (Hpre : pre ++ file :: l = (pre ++ [file]) ++ l)
      by now rewrite <- app_assoc.
    assert (Hlen : S (length pre) = length (pre ++ [file]))
      by (rewrite length_app; cbn; lia).
    rewrite Hpre, Hlen.
    destruct (accepted file); cbn [negb]; rewrite IH, <- !app_assoc; reflexivity.
Qed.

Lemma upload_result : forall now fileList,
  processedFiles now fileList
  = map (uploadEntry now)
        (filter (fun ifile => accepted (snd ifile))
                (combine (seq 0 (length fileList)) fileList))
  /\ uploadErrors now fileList
     = map (fun ifile => uploadError (snd ifile))
           (filter (fun ifile => negb (accepted (snd ifile)))
                   (combine (seq 0 (length fileList)) fileList)).
Proof.
  intros now fileList. unfold processedFiles, uploadErrors.
  pose proof (upload_loop now fileList [] [] []) as H. cbn [app length] in H.
  rewrite H. now split.
Qed.

Lemma filter_partition_length : forall (A : Type) (f : A -> bool) l,
  length (filter f l) + length (filter (fun x => negb (f x)) l) = length l.
Proof.
  intros A f. induction l as [|x l IH]; [reflexivity|]. cbn [filter].
  destruct (f x); cbn [negb length]; lia.
Qed.

Lemma join_nonempty : forall (sep p : str) ps,
  p <> [] -> join (p :: ps) sep <> [].
Proof.
  intros sep p ps Hp. destruct ps as [|q ps]; [exact Hp|].
  change (join (p :: q :: ps) sep) with (p ++ sep ++ join (q :: ps) sep).
  destruct p; [congruence | discriminate].
Qed.

Lemma uploadError_nonempty : forall file, uploadError file <> [].
Proof.
  intros file. unfold uploadError. intros H.
  apply app_eq_nil in H as [_ H].
  destruct (negb (supportedType file)); [discriminate|].
  destruct (maxSize <? bf_size file); discriminate.
Qed.

Lemma refused_none : forall (l : list (nat * BrowserFile)),
  filter (fun ifile => negb (accepted (snd ifile))) l = []
  <-> forallb accepted (map snd l) = true.
Proof.
  induction l as [|x l IH]; [cbn; tauto|]. cbn [filter map forallb].
  destruct (accepted (snd x)); cbn [negb andb]; [exact IH|].
  split; discriminate.
Qed.

Lemma combine_seq_snd : forall (A : Type) (l : list A) k,
  map snd (combine (seq k (length l)) l) = l.
Proof.
  intros A. induction l as [|x l IH]; intros k; [reflexivity|].
  cbn. now rewrite IH.
Qed.

Lemma combine_seq_fst : forall (A : Type) (l : list A) k,
  map fst (combine (seq k (length l)) l) = seq k (length l).
Proof.
  intros A. induction l as [|x l IH]; intros k; [reflexivity|].
  cbn. now rewrite IH.
Qed.

(** X16.  An upload keeps the stored files and appends, in order, one entry
    for each file of the batch that passes the three checks (a supported type,
    at most 10 MB, a readable content); every other file of the batch gives one
    error message; the parent is notified exactly when an entry was added, and
    the error text is empty exactly when every file was accepted. *)
Theorem upload_accepts_checked_files : forall now files fileList,
  let batch := processedFiles now fileList in
  let done := processFiles now files fileList in
  batch = map (uploadEntry now)
              (filter (fun ifile => accepted (snd ifile))
                      (combine (seq 0 (length fileList)) fileList))
  /\ length batch + length (uploadErrors now fileList) = length fileList
  /\ up_files done = files ++ batch
  /\ up_notified done = (if 0 <? length batch then Some (files ++ batch) else None)
  /\ (up_error done = [] <-> forallb accepted fileList = true).
Proof.
  intros now files fileList batch done.
  destruct (upload_result now fileList) as [Hb He].
  fold batch in Hb.
  assert (Hdone : done
                  = let error := if 0 <? length (uploadErrors now fileList)
                                 then join (uploadErrors now fileList) [LF] else [] in
                    if 0 <? length batch
                    then {| up_files := files ++ batch; up_error := error;
                            up_notified := Some (files ++ batch) |}
                    else {| up_files := files; up_error := error;
                            up_notified := None |}).
  { unfold done, processFiles, batch, processedFiles, uploadErrors.
    now destruct (fold_left (uploadStep now fileList) (seq 0 (length fileList)) ([], [])). }
  split; [exact Hb|]. split; [|split; [|split]].
  - rewrite Hb, He, !length_map.
    rewrite filter_partition_length, length_combine, length_seq. lia.
  - rewrite Hdone. cbv zeta. destruct batch; cbn.
    + now rewrite app_nil_r.
    + reflexivity.
  - rewrite Hdone. cbv zeta. now destruct (0 <? length batch).
  - assert (Herr : up_error done
                   = if 0 <? length (uploadErrors now fileList)
                     then join (uploadErrors now fileList) [LF] else [])
      by (rewrite Hdone; cbv zeta; now destruct (0 <? length batch)).
    rewrite Herr, He.
    pose proof (refused_none (combine (seq 0 (length fileList)) fileList)) as Hall.
    rewrite combine_seq_snd in Hall. rewrite <- Hall.
    destruct (filter (fun ifile => negb (accepted (snd ifile)))
                     (combine (seq 0 (length fileList)) fileList)) as [|x l].
    + cbn. tauto.
    + cbn [map length Nat.ltb Nat.leb]. split; [|discriminate].
      intros H. exfalso. revert H. apply join_nonempty, uploadError_nonempty.
Qed.

Lemma NoDup_map_filter : forall (A B : Type) (f : A -> B) (p : A -> bool) l,
  NoDup (map f l) -> NoDup (map f (filter p l)).
Proof.
  intros A B f p. induction l as [|x l IH]; intros H; [constructor|].
  cbn [map] in H. inversion H as [|? ? Hnot Hnd]; subst. cbn [filter].
  destruct (p x); [|now apply IH]. cbn [map]. constructor; [|now apply IH].
  intros Hin. apply Hnot. apply in_map_iff in Hin as [y [Hy Hin]].
  apply filter_In in Hin as [Hin _]. rewrite <- Hy. now apply in_map.
Qed.

Lemma NoDup_map_through : forall (A B C : Type) (f : A -> B) (g : A -> C) l,
  (forall x y, g x = g y -> f x = f y) ->
  NoDup (map f l) -> NoDup (map g l).
Proof.
  intros A B C f g l Hinj. induction l as [|x l IH]; intros H; [constructor|].
  cbn [map] in *. inversion H as [|? ? Hnot Hnd]; subst.
  constructor; [|now apply IH].
  intros Hin. apply Hnot. apply in_map_iff in Hin as [y [Hy Hin]].
  rewrite <- (Hinj _ _ Hy). now apply in_map.
Qed.

Lemma uploadEntry_id_inj : forall now x y,
  file_id (uploadEntry now x) = file_id (uploadEntry now y) -> fst x = fst y.
Proof.
  intros now [i f] [j g] H. cbn [uploadEntry file_id fst] in *.
  change DASH with ["-"%char] in H.
  rewrite !(app_assoc (bf_name _)), !app_assoc in H.
  rewrite <- !(app_assoc _ ["-"%char] (showNat _)) in H. cbn [app] in H.
  apply last_separator in H as [_ H]; try apply showNat_no_dash.
  now apply showNat_inj.
Qed.

Lemma accepted_positions_NoDup : forall (fileList : list BrowserFile),
  NoDup (map fst (filter (fun ifile => accepted (snd ifile))
                         (combine (seq 0 (length fileList)) fileList))).
Proof.
  intros fileList. apply NoDup_map_filter. rewrite combine_seq_fst. apply seq_NoDup.
Qed.

(** X17.  The entries made by one upload have pairwise distinct identifiers,
    whatever the names of the files and the readings of the clock. *)
Theorem upload_ids_distinct : forall now fileList,
  NoDup (map file_id (processedFiles now fileList)).
Proof.
  intros now fileList. destruct (upload_result now fileList) as [-> _].
  rewrite map_map.
  apply (NoDup_map_through _ _ _ fst).
  - intros x y. apply uploadEntry_id_inj.
  - apply accepted_positions_NoDup.
Qed.

(** X18.  After a file has been removed, the search finds no file under its
    identifier, and finds under every other identifier the file it found
    before. *)
Theorem removed_file_unknown : forall files fileId,
  findFile (removeFile files fileId) fileId = None
  /\ forall other,
       other <> fileId ->
       findFile (removeFile files fileId) other = findFile files other.
Proof.
  intros files fileId. unfold findFile, removeFile. split.
  - induction files as [|f files IH]; [reflexivity|]. cbn [filter].
    destruct (strEq (file_id f) fileId) eqn:E; cbn [negb]; [exact IH|].
    cbn [find]. now rewrite E.
  - intros other Hne. induction files as [|f files IH]; [reflexivity|].
    cbn [filter find].
    destruct (strEq (file_id f) fileId) eqn:E; cbn [negb].
    + apply strEq_eq in E.
      destruct (strEq (file_id f) other) eqn:E'; [|exact IH].
      apply strEq_eq in E'. congruence.
    + cbn [find]. destruct (strEq (file_id f) other); [reflexivity | exact IH].
Qed.

(** *** DataFolderSelector.tsx *)




(** *** Sets of names *)

Lemma has_In : forall s x, has s x = true <-> In x s.
Proof.
  intros s x. unfold has. rewrite existsb_exists. split.
  - intros [y [Hin Heq]]. apply strEq_eq in Heq. now subst.
  - intros Hin. exists x. split; [exact Hin | apply strEq_refl].
Qed.

Lemma add_In : forall s x y, In y (add s x) <-> In y s \/ y = x.
Proof.
  intros s x y. unfold add. destruct (has s x) eqn:E.
  - apply has_In in E. split; [now left | intros [H | ->]; assumption].
  - rewrite in_app_iff. cbn [In]. intuition congruence.
Qed.

Lemma delete_In : forall s x y, In y (delete s x) <-> In y s /\ y <> x.
Proof.
  intros s x y. unfold delete. rewrite filter_In. split; intros [H1 H2]; split; auto.
  - intros ->. now rewrite strEq_refl in H2.
  - destruct (strEq x y) eqn:E; [|reflexivity].
    apply strEq_eq in E. congruence.
Qed.

Lemma str_eq_dec : forall a b : str, {a = b} + {a <> b}.
Proof. apply list_eq_dec, ascii_dec. Qed.

(** X20.  Toggling a name flips its membership in the set and no other
    name's; toggling it twice gives back the membership of every name. *)
Theorem toggle_flips_one_name : forall selectedFiles fileName other,
  has (handleFileToggle selectedFiles fileName) fileName
  = negb (has selectedFiles fileName)
  /\ (other <> fileName ->
      has (handleFileToggle selectedFiles fileName) other = has selectedFiles other)
  /\ has (handleFileToggle (handleFileToggle selectedFiles fileName) fileName) other
     = has selectedFiles other.
Proof.
  assert (Hflip : forall s x,
            has (handleFileToggle s x) x = negb (has s x)).
  { intros s x. unfold handleFileToggle. destruct (has s x) eqn:E; cbn [negb].
    - destruct (has (delete s x) x) eqn:E'; [|reflexivity].
      apply has_In, delete_In in E' as [_ E']. congruence.
    - apply has_In, add_In. now right. }
  assert (Hkeep : forall s x y, y <> x ->
            has (handleFileToggle s x) y = has s y).
  { intros s x y Hne. apply eq_true_iff_eq. rewrite !has_In.
    unfold handleFileToggle. destruct (has s x).
    - rewrite delete_In. tauto.
    - rewrite add_In. tauto. }
  intros s x y. split; [apply Hflip|]. split; [apply Hkeep|].
  destruct (str_eq_dec y x) as [-> | Hne].
  - rewrite Hflip, Hflip. apply negb_involutive.
  - now rewrite !Hkeep.
Qed.

(** *** From the file sources to the search *)

(** X27.  Every file accepted by an upload into an empty list is searched:
    the stored files are then the accepted files of the batch, and when the
    form submits, the search completes with one result per accepted file, in
    the order of the batch. *)
Theorem uploaded_files_all_searched : forall stringify now fileList searchTerm term ids,
  let files := up_files (processFiles now [] fileList) in
  handleSubmit searchTerm files = Some (term, ids) ->
  files = processedFiles now fileList
  /\ exists allDebugInfo,
       handleSearch stringify files term ids
       = Some (Completed (map (matchResult term) files) allDebugInfo).
Proof.
  intros stringify now fileList searchTerm term ids files Hsubmit.
  assert (Hfiles : files = processedFiles now fileList).
  { unfold files, processFiles, processedFiles.
    destruct (fold_left (uploadStep now fileList) (seq 0 (length fileList)) ([], []))
      as [processed errors].
    cbn [fst]. destruct processed; reflexivity. }
  split; [exact Hfiles|].
  destruct (submit_arguments _ _ _ _ Hsubmit) as (_ & -> & Hterm & Hne).
  apply search_all_files; [exact Hterm | exact Hne |].
  rewrite Hfiles. destruct (upload_result now fileList) as [-> _].
  rewrite map_map. apply (NoDup_map_through _ _ _ fst).
  - intros x y. apply uploadEntry_id_inj.
  - apply accepted_positions_NoDup.
Qed.

Lemma uploaded_files_all_searched_witness :
  let now := fun i => 7 + i in
  let fileList :=
    [ {| bf_name := lit "pic.png"; bf_type := lit "image/png"; bf_size := 5;
         bf_text := Some [] |};
      {| bf_name := lit "notes.txt"; bf_type := lit "text/plain"; bf_size := 10;
         bf_text := Some (lit "alpha beta") |} ] in
  let files := up_files (processFiles now [] fileList) in
  files = processedFiles now fileList
  /\ exists allDebugInfo,
       handleSearch noStringify files (lit "Beta") [lit "notes.txt-8-1"]
       = Some (Completed (map (matchResult (lit "Beta")) files) allDebugInfo).
Proof.
  cbv zeta.
  apply (uploaded_files_all_searched noStringify (fun i => 7 + i) _ (lit " Beta ")).
  vm_compute. reflexivity.
Defined.



End SourcesFacts.

(** ** The paginated export: where the lines are placed *)

Module LayoutFacts.

Import Markdown Pdf JsFacts MarkdownFacts PdfFacts.

Local Open Scope Q_scope.

Lemma ascending_snoc : forall pages x,
  ascending pages -> Forall (fun a => (a <= x)%nat) pages -> ascending (pages ++ [x]).
Proof.
  induction pages as [|a pages IH]; intros x Ha Hx; [exact I|].
  destruct pages as [|b pages].
  - cbn. inversion Hx; subst. now split.
  - cbn [app]. cbn [ascending] in Ha. destruct Ha as [Hab Ha].
    change (ascending (a :: (b :: pages) ++ [x]))
      with ((a <= b)%nat /\ ascending ((b :: pages) ++ [x])).
    split; [exact Hab|]. apply IH; [exact Ha | now inversion Hx].
Qed.

Lemma chainedFrom_snoc : forall pdf items x p,
  chainedFrom pdf x items ->
  p_x p = fold_left (fun _ q => endOf pdf q) items x ->
  chainedFrom pdf x (items ++ [p]).
Proof.
  intros pdf. induction items as [|q items IH]; intros x p Hc Hp.
  - cbn in *. now split.
  - cbn [app chainedFrom fold_left] in *. destruct Hc as [Hq Hc].
    split; [exact Hq|]. now apply IH.
Qed.

Section Layout.

Variable pdf : JsPdf.
Hypothesis tall : 50 <= pageHeight pdf.

Lemma Placed_same : forall st st',
  out st' = out st -> page st' = page st -> Placed pdf st -> Placed pdf st'.
Proof.
  intros st st' Ho Hp (H1 & H2 & H3). unfold Placed. rewrite Ho, Hp. now repeat split.
Qed.

Lemma Placed_pageBreak : forall limit st,
  Placed pdf st -> Placed pdf (pageBreak pdf limit st).
Proof.
  intros limit st (H1 & H2 & H3). unfold pageBreak.
  destruct (gtb (yPosition st) (pageHeight pdf - limit)); [|now repeat split].
  unfold Placed. cbn [out page setY addPage]. repeat split; auto.
  eapply Forall_impl; [|exact H3]. cbn. intros l Hl. lia.
Qed.

Lemma pageBreak_y : forall st,
  yPosition (pageBreak pdf 20 st) <= pageHeight pdf - 20.
Proof.
  intros st. unfold pageBreak.
  destruct (gtb (yPosition st) (pageHeight pdf - 20)) eqn:E.
  - cbn [yPosition setY]. lra.
  - now apply gtb_false in E.
Qed.

(** A line written at the current position right after the page test. *)
Lemma Placed_emit : forall st items,
  Placed pdf st ->
  yPosition st <= pageHeight pdf - 20 ->
  chained pdf {| l_page := page st; l_y := yPosition st; l_items := items |} ->
  Placed pdf (emit {| l_page := page st; l_y := yPosition st; l_items := items |} st).
Proof.
  intros st items (H1 & H2 & H3) Hy Hc. unfold Placed. cbn [out page emit].
  split; [|split].
  - apply Forall_app. split; [exact H1|]. constructor; [|constructor].
    split; [exact Hy | exact Hc].
  - rewrite map_app. cbn [map l_page]. apply ascending_snoc; [exact H2|].
    apply Forall_map. exact H3.
  - apply Forall_app. split; [exact H3|]. constructor; [|constructor].
    cbn [l_page]. lia.
Qed.

(** The loop of [flushLine]: the placements abut, the first at the
    starting position; the page and the vertical position stay. *)
Lemma render_chain : forall segs st x0 x items,
  chainedFrom pdf x0 items ->
  x = fold_left (fun _ q => endOf pdf q) items x0 ->
  exists st' x' items',
    fold_left (renderSegment pdf) segs (st, x, items) = (st', x', items')
    /\ chainedFrom pdf x0 items'
    /\ out st' = out st /\ page st' = page st /\ yPosition st' = yPosition st.
Proof.
  induction segs as [|seg segs IH]; intros st x0 x items Hc Hx.
  - exists st, x, items. now repeat split.
  - cbn [fold_left]. unfold renderSegment at 2.
    match goal with
    | |- context [fold_left _ segs (?s, ?y, ?it ++ [?p])] =>
        destruct (IH s x0 y (it ++ [p])) as [st' [x' [items' [H1 [H2 [H3 [H4 H5]]]]]]]
    end.
    + apply chainedFrom_snoc; [exact Hc | exact Hx].
    + rewrite fold_left_app. cbn [fold_left]. unfold endOf, textWidth.
      cbn [p_x p_font p_size p_text]. reflexivity.
    + exists st', x', items'. split; [exact H1|]. split; [exact H2|].
      rewrite H3, H4, H5. now destruct (isCode seg).
Qed.

Lemma Placed_flushLine : forall indent lineHeight st,
  Placed pdf st -> Placed pdf (flushLine pdf indent lineHeight st).
Proof.
  intros indent lineHeight st H. unfold flushLine.
  destruct (currentLine st) as [|seg segs] eqn:Hline; [exact H|].
  destruct (pageBreak_same pdf 20 st) as (Po & _ & Pl & _).
  rewrite Pl, Hline.
  destruct (render_chain (seg :: segs) (pageBreak pdf 20 st) (margin + indent)
              (margin + indent) [] I eq_refl)
    as [st' [x' [items' [H1 [H2 [H3 [H4 H5]]]]]]].
  rewrite H1.
  apply (Placed_same (emit {| l_page := page st'; l_y := yPosition st';
                              l_items := items' |} st')); [reflexivity | reflexivity |].
  apply Placed_emit.
  - apply (Placed_same (pageBreak pdf 20 st)); [exact H3 | exact H4 |].
    now apply Placed_pageBreak.
  - rewrite H5. apply pageBreak_y.
  - unfold chained. cbn [l_items]. destruct items' as [|p rest]; [exact I|].
    cbn [chainedFrom] in H2. destruct H2 as [Hp H2]. cbn [chainedFrom].
    split; [reflexivity|]. exact H2.
Qed.

Lemma Placed_wordStep : forall isBold isItalic isCode indent lineHeight st iw,
  Placed pdf st ->
  Placed pdf (wordStep pdf isBold isItalic isCode indent lineHeight st iw).
Proof.
  intros isBold isItalic isCode indent lineHeight st [index word] H.
  unfold wordStep.
  match goal with |- context [if ?c then _ else _] => destruct c end.
  - apply (Placed_same (flushLine pdf indent lineHeight
                          (setFont (mkFont (if isCode then courier else helvetica)
                                           (fontStyleOf isBold isItalic)) st)));
      [reflexivity | reflexivity |].
    apply Placed_flushLine. exact H.
  - exact H.
Qed.

Lemma Placed_addToLine : forall t isBold isItalic isCode indent lineHeight st,
  Placed pdf st ->
  Placed pdf (addToLine pdf t isBold isItalic isCode indent lineHeight st).
Proof.
  intros t isBold isItalic isCode indent lineHeight st H. unfold addToLine.
  generalize (indexed (wordsOf t)). intros ws. revert st H.
  induction ws as [|iw ws IH]; intros st H; [exact H|].
  cbn [fold_left]. apply IH. now apply Placed_wordStep.
Qed.

Lemma Placed_setY : forall y st, Placed pdf st -> Placed pdf (setY y st).
Proof. intros y st. now apply Placed_same. Qed.

Lemma Placed_elementStep : forall indent lineHeight st element,
  Placed pdf st -> Placed pdf (elementStep pdf indent lineHeight st element).
Proof.
  intros indent lineHeight st element H. unfold elementStep.
  destruct (type element); try now apply Placed_addToLine.
  apply Placed_setY, Placed_flushLine, Placed_addToLine, Placed_flushLine, H.
Qed.

Lemma Placed_addFormattedElements : forall elements size indent st,
  Placed pdf st -> Placed pdf (addFormattedElements pdf elements size indent st).
Proof.
  intros elements size indent st H. unfold addFormattedElements.
  apply Placed_setY, Placed_flushLine.
  assert (H0 : Placed pdf (setFontSize size (setLine [] 0 st)))
    by (revert H; now apply Placed_same).
  revert H0. generalize (setFontSize size (setLine [] 0 st)). clear H st.
  induction elements as [|e elements IH]; intros st H; [exact H|].
  cbn [fold_left]. apply IH. now apply Placed_elementStep.
Qed.

Lemma Placed_addWrappedText : forall t size isBold indent st,
  Placed pdf st -> Placed pdf (addWrappedText pdf t size isBold indent st).
Proof.
  intros t size isBold indent st H. unfold addWrappedText.
  apply Placed_setY.
  set (st0 := setFont _ (setFontSize size st)).
  assert (H0 : Placed pdf st0) by (revert H; now apply Placed_same).
  generalize (splitTextToSize pdf (font st0) (fontSize st0) t (maxWidth pdf - indent)).
  intros lines. revert H0. generalize st0. clear st0 H.
  induction lines as [|line lines IH]; intros st0 H0; [exact H0|].
  cbn [fold_left]. apply IH. apply Placed_setY.
  apply Placed_emit.
  - now apply Placed_pageBreak.
  - apply pageBreak_y.
  - unfold chained. cbn [l_items chainedFrom]. now split.
Qed.

Lemma Placed_paragraphStep : forall st ip,
  Placed pdf st ->
  exists st', paragraphStep pdf (Some st) ip = Some st' /\ Placed pdf st'.
Proof.
  intros st [index paragraph] H. unfold paragraphStep, addFormattedText.
  destruct (runs_total (trim paragraph)) as [els ->].
  eexists. split; [reflexivity|].
  apply Placed_addFormattedElements, Placed_setY, Placed_addWrappedText,
    Placed_pageBreak, H.
Qed.

Lemma Placed_paragraphs : forall found st,
  Placed pdf st ->
  exists st', fold_left (paragraphStep pdf) found (Some st) = Some st'
              /\ Placed pdf st'.
Proof.
  induction found as [|ip found IH]; intros st H.
  - now exists st.
  - cbn [fold_left].
    destruct (Placed_paragraphStep st ip H) as [st1 [-> H1]].
    now apply IH.
Qed.

Lemma Placed_resultStep : forall st result,
  Placed pdf st ->
  exists st', resultStep pdf (Some st) result = Some st' /\ Placed pdf st'.
Proof.
  intros st result H. unfold resultStep.
  set (st1 := setY _ (addWrappedText pdf _ 11 false 0 _)).
  assert (H1 : Placed pdf st1).
  { unfold st1. apply Placed_setY. do 2 apply Placed_addWrappedText.
    now apply Placed_pageBreak. }
  destruct (Search.foundParagraphs result) as [|p ps] eqn:Hfound.
  - eexists. split; [reflexivity|].
    apply Placed_setY. now apply Placed_addWrappedText.
  - destruct (Placed_paragraphs (indexed (p :: ps)) st1 H1) as [st2 [-> H2]].
    eexists. split; [reflexivity|]. now apply Placed_setY.
Qed.

Lemma Placed_results : forall results st,
  Placed pdf st ->
  exists st', fold_left (resultStep pdf) results (Some st) = Some st'
              /\ Placed pdf st'.
Proof.
  induction results as [|r results IH]; intros st H.
  - now exists st.
  - cbn [fold_left].
    destruct (Placed_resultStep st r H) as [st1 [-> H1]].
    now apply IH.
Qed.

End Layout.

(** X21.  On a page at least 50 high the paginated export always returns its
    lines, and every line is placed above the bottom margin of 20, the
    placements of a line abut (each starts where the one before it ends,
    measured in its own font and size), and the page numbers of the lines never
    decrease. *)
Theorem pdf_lines_placed : forall pdf results term,
  50 <= pageHeight pdf ->
  exists lines,
    exportToPdf pdf results term = Some lines
    /\ Forall (fun l => l_y l <= pageHeight pdf - 20) lines
    /\ Forall (chained pdf) lines
    /\ ascending (map l_page lines).
Proof.
  intros pdf results term Htall. unfold exportToPdf.
  match goal with
  | |- context [fold_left (resultStep pdf) results (Some ?s)] => set (st := s)
  end.
  assert (H : Placed pdf st).
  { unfold st. apply Placed_setY. do 4 apply (Placed_addWrappedText pdf Htall).
    apply Placed_setY.
    unfold Placed. cbn [out page emit setY setFont setFontSize initial app map].
    split; [|split].
    - constructor; [|constructor]. split.
      + unfold aboveBottom. cbn [l_y yPosition setFont setFontSize initial]. lra.
      + unfold chained. cbn [l_items chainedFrom]. now split.
    - exact I.
    - constructor; [|constructor]. cbn. lia. }
  destruct (Placed_results pdf Htall results st H) as [st' [-> (H1 & H2 & H3)]].
  exists (out st'). split; [reflexivity|].
  split; [|split; [|exact H2]].
  - eapply Forall_impl; [|exact H1]. now intros l [Hl _].
  - eapply Forall_impl; [|exact H1]. now intros l [_ Hl].
Qed.

Lemma pdf_lines_placed_witness :
  exists lines,
    exportToPdf samplePdf [sampleResult] (lit "beta") = Some lines
    /\ Forall (fun l => l_y l <= pageHeight samplePdf - 20) lines
    /\ Forall (chained samplePdf) lines
    /\ ascending (map l_page lines).
Proof.
  apply pdf_lines_placed. vm_compute. discriminate.
Defined.

End LayoutFacts.

(** ** The tokenizer: the runs it makes *)

Module TokenFacts.

Import Markdown JsFacts MarkdownFacts ParagraphFacts.

Lemma includes_before : forall pat s i,
  pat <> [] -> indexOf s pat = Some i -> includes (firstn i s) pat = false.
Proof.
  intros pat s i Hne H. unfold includes. now rewrite (indexOf_before pat s i Hne H).
Qed.

Lemma tryBold_closed : forall txt i e next,
  tryBold txt i = Some (e, next) -> closedRun e.
Proof.
  intros txt i e next H.
  assert (Hne : content e <> []).
  { destruct (tryBold_spec _ _ _ _ H) as [c [-> [Hc _]]]. exact Hc. }
  unfold tryBold in H.
  destruct (strEq _ _); [|discriminate].
  destruct (indexOf (sliceFrom txt (i + 2)) [STAR; STAR]) as [endIndex|] eqn:E2;
    [|discriminate].
  destruct (0 <? endIndex); [|discriminate].
  injection H as H _. split; [exact Hne|]. rewrite <- H.
  cbn [type content]. unfold slice. rewrite Nat.sub_0_r. cbn [skipn].
    apply includes_before; [discriminate | exact E2].
Qed.

Lemma tryItalic_closed : forall txt i e next,
  tryItalic txt i = Some (e, next) -> closedRun e.
Proof.
  intros txt i e next H.
  assert (Hne : content e <> []).
  { destruct (tryItalic_spec _ _ _ _ H) as [c [-> [Hc _]]]. exact Hc. }
  unfold tryItalic in H.
  destruct (_ && _ && _); [|discriminate].
  destruct (indexOf (sliceFrom txt (i + 1)) [STAR]) as [endIndex|] eqn:E2;
    [|discriminate].
  destruct (0 <? endIndex); [|discriminate].
  destruct (_ || _); [|discriminate].
  injection H as H _. split; [exact Hne|]. rewrite <- H.
  cbn [type content]. unfold slice. rewrite Nat.sub_0_r. cbn [skipn].
    apply includes_before; [discriminate | exact E2].
Qed.

Lemma tryCode_closed : forall txt i e next,
  tryCode txt i = Some (e, next) -> closedRun e.
Proof.
  intros txt i e next H.
  assert (Hne : content e <> []).
  { destruct (tryCode_spec _ _ _ _ H) as [c [-> [Hc _]]]. exact Hc. }
  unfold tryCode in H.
  destruct (isChar _ _); [|discriminate].
  destruct (indexOf (sliceFrom txt (i + 1)) [TICK]) as [endIndex|] eqn:E2;
    [|discriminate].
  destruct (0 <? endIndex); [|discriminate].
  injection H as H _. split; [exact Hne|]. rewrite <- H.
  cbn [type content]. unfold slice. rewrite Nat.sub_0_r. cbn [skipn].
    apply includes_before; [discriminate | exact E2].
Qed.

Lemma tryHeader_closed : forall txt i e next,
  tryHeader txt i = Some (e, next) -> closedRun e.
Proof.
  intros txt i e next H.
  destruct (tryHeader_spec _ _ _ _ H) as [_ [k [ws [He [Hat _]]]]].
  destruct Hat as [Hk [_ [_ [Httl [Hnl _]]]]].
  split; [exact Httl|]. rewrite He. cbn [type content level].
  split; [exact Hnl|]. now exists k.
Qed.

Lemma find_seq_before : forall (f : nat -> bool) n a j,
  find f (seq a n) = Some j -> forall k, a <= k < j -> f k = false.
Proof.
  intros f. induction n as [|n IH]; intros a j H k Hk; [discriminate|].
  cbn [seq find] in H. destruct (f a) eqn:Ea.
  - injection H as <-. lia.
  - destruct (Nat.eq_dec k a) as [-> | Hne]; [exact Ea|].
    apply (IH (S a) j H). lia.
Qed.

Lemma nextMarkdownIndex_between : forall txt i j,
  i < j < nextMarkdownIndex txt i -> startsMarkdown txt j = false.
Proof.
  intros txt i j Hj. unfold nextMarkdownIndex in Hj.
  destruct (find (startsMarkdown txt) (seq (i + 1) (length txt - (i + 1))))
    as [n|] eqn:E.
  - apply (find_seq_before _ _ _ _ E). lia.
  - apply (find_none _ _ E). apply in_seq. lia.
Qed.

Lemma forallb_range : forall (g : ascii -> bool) txt n i,
  (forall j c, i <= j < i + n -> charAt txt j = Some c -> g c = true) ->
  forallb g (firstn n (skipn i txt)) = true.
Proof.
  intros g txt. induction n as [|n IH]; intros i H; [reflexivity|].
  destruct (skipn i txt) as [|c rest] eqn:Es; [reflexivity|].
  cbn [firstn forallb].
  pose proof (skipn_charAt txt i c rest Es) as Hc.
  rewrite (H i c); [|lia | exact Hc]. cbn [andb].
  assert (Hrest : rest = skipn (S i) txt).
  { change (S i) with (1 + i). rewrite <- skipn_skipn, Es. reflexivity. }
  rewrite Hrest. apply IH. intros j d Hj Hd. apply (H j d); [lia | exact Hd].
Qed.

Lemma plainText_closed : forall txt i pushed next,
  i < length txt -> plainText txt i = (pushed, next) -> Forall closedRun pushed.
Proof.
  intros txt i pushed next Hi H.
  destruct (plainText_spec _ _ _ _ Hi H) as [c [Hp [Hc _]]].
  unfold plainText in H. injection H as H _. rewrite Hp in H.
  destruct (truthy (slice txt i (nextMarkdownIndex txt i))); [|discriminate].
  injection H as H. rewrite Hp. constructor; [|constructor].
  split; [exact Hc|]. cbn [type content]. rewrite <- H. unfold slice.
  pose proof (nextMarkdownIndex_bounds txt i Hi) as Hb.
  destruct (skipn i txt) as [|c0 rest] eqn:Es.
  { now destruct (nextMarkdownIndex txt i - i). }
  destruct (nextMarkdownIndex txt i - i) as [|n] eqn:En; [reflexivity|].
  cbn [firstn tl].
  assert (Hrest : rest = skipn (S i) txt).
  { change (S i) with (1 + i). rewrite <- skipn_skipn, Es. reflexivity. }
  rewrite Hrest. apply forallb_range. intros j d Hj Hd.
  assert (Hs : startsMarkdown txt j = false)
    by (apply (nextMarkdownIndex_between txt i); lia).
  unfold startsMarkdown in Hs. rewrite Hd in Hs. cbn [isChar] in Hs.
  apply orb_false_iff in Hs as [Hs _]. now rewrite Hs.
Qed.

Lemma step_closed : forall txt i pushed next,
  i < length txt -> step txt i = (pushed, next) -> Forall closedRun pushed.
Proof.
  intros txt i pushed next Hi H. unfold step, orElse in H.
  destruct (tryHeader txt i) as [[e n]|] eqn:Eh.
  { injection H as <- _. constructor; [|constructor]. eapply tryHeader_closed, Eh. }
  destruct (tryBold txt i) as [[e n]|] eqn:Eb.
  { injection H as <- _. constructor; [|constructor]. eapply tryBold_closed, Eb. }
  destruct (tryItalic txt i) as [[e n]|] eqn:Ei.
  { injection H as <- _. constructor; [|constructor]. eapply tryItalic_closed, Ei. }
  destruct (tryCode txt i) as [[e n]|] eqn:Ec.
  { injection H as <- _. constructor; [|constructor]. eapply tryCode_closed, Ec. }
  eapply plainText_closed; eassumption.
Qed.

Lemma parseLoop_closed : forall fuel txt i els r,
  parseLoop fuel txt i els = Some r -> Forall closedRun els -> Forall closedRun r.
Proof.
  induction fuel as [|fuel IH]; intros txt i els r H Hels; cbn [parseLoop] in H.
  - destruct (length txt <=? i); [|discriminate]. now injection H as <-.
  - destruct (length txt <=? i) eqn:E; [now injection H as <-|].
    apply Nat.leb_gt in E.
    destruct (step txt i) as [pushed next] eqn:Es.
    apply (IH _ _ _ _ H). apply Forall_app. split; [exact Hels|].
    eapply step_closed; eassumption.
Qed.

(** X24.  Every run the tokenizer returns has a content that is not empty
    and holds no closing marker of its kind: no [**] in a Strong run, no [*] in
    an Emphasis run, no backtick in a Code run; a Heading has a level from 1 to
    6 and no line terminator in its content; a plain run holds no [*] and no
    backtick after its first character. *)
Theorem runs_closed : forall txt,
  exists elements,
    parseMarkdown txt = Some elements /\ Forall closedRun elements.
Proof.
  intros txt. destruct (runs_total txt) as [els H]. exists els.
  split; [exact H|]. eapply parseLoop_closed; [exact H | constructor].
Qed.

Lemma find_all_false : forall (A : Type) (f : A -> bool) l,
  (forall x, In x l -> f x = false) -> find f l = None.
Proof.
  intros A f. induction l as [|x l IH]; intros H; [reflexivity|].
  cbn [find]. rewrite (H x) by now left. apply IH. intros y Hy. apply H. now right.
Qed.

Lemma plain_charAt : forall txt j c,
  forallb plainChar txt = true -> charAt txt j = Some c ->
  Ascii.eqb c STAR = false /\ Ascii.eqb c TICK = false /\ Ascii.eqb c HASH = false.
Proof.
  intros txt j c Hall Hc. unfold charAt in Hc. apply nth_error_In in Hc.
  rewrite forallb_forall in Hall. specialize (Hall c Hc). unfold plainChar in Hall.
  apply negb_true_iff in Hall.
  apply orb_false_iff in Hall as [Hall H3]. apply orb_false_iff in Hall as [H1 H2].
  now repeat split.
Qed.

Lemma plain_isChar : forall txt j,
  forallb plainChar txt = true ->
  isChar (charAt txt j) STAR = false
  /\ isChar (charAt txt j) TICK = false
  /\ isChar (charAt txt j) HASH = false.
Proof.
  intros txt j Hall. destruct (charAt txt j) as [c|] eqn:Hc; cbn [isChar].
  - exact (plain_charAt txt j c Hall Hc).
  - now repeat split.
Qed.

(** X25.  A text that is not empty and holds no [*], no backtick and no [#]
    is tokenized as one plain run whose content is the whole text. *)
Theorem plain_text_one_run : forall txt,
  txt <> [] -> forallb plainChar txt = true ->
  parseMarkdown txt = Some [{| type := text; content := txt; level := None |}].
Proof.
  intros txt Hne Hall.
  assert (Hlen : 0 < length txt) by (destruct txt; [congruence | cbn; lia]).
  assert (Hstep : step txt 0
                  = ([{| type := text; content := txt; level := None |}], length txt)).
  { unfold step, orElse.
    destruct (plain_isChar txt 0 Hall) as (Hs & Ht & Hh).
    assert (Eh : tryHeader txt 0 = None) by (unfold tryHeader; now rewrite Hh).
    assert (Eb : tryBold txt 0 = None).
    { unfold tryBold, slice. cbn [skipn Nat.add Nat.sub].
      destruct txt as [|c rest]; [congruence|].
      cbn [charAt nth_error isChar] in Hs. cbn [firstn strEq]. now rewrite Hs. }
    assert (Ei : tryItalic txt 0 = None) by (unfold tryItalic; now rewrite Hs).
    assert (Ec : tryCode txt 0 = None) by (unfold tryCode; now rewrite Ht).
    rewrite Eh, Eb, Ei, Ec. unfold plainText.
    assert (Hnext : nextMarkdownIndex txt 0 = length txt).
    { unfold nextMarkdownIndex. rewrite find_all_false; [reflexivity|].
      intros j _. unfold startsMarkdown.
      destruct (plain_isChar txt j Hall) as (-> & -> & ->). reflexivity. }
    rewrite Hnext. unfold slice. rewrite Nat.sub_0_r. cbn [skipn].
    rewrite firstn_all. destruct txt; [congruence | reflexivity]. }
  unfold parseMarkdown. destruct (length txt) as [|n] eqn:En; [lia|].
  cbn [parseLoop]. rewrite Hstep. cbn [app]. rewrite En. cbn [Nat.leb].
  destruct n; cbn [parseLoop]; now rewrite En, Nat.leb_refl.
Qed.

Lemma plain_text_one_run_witness :
  parseMarkdown (lit "Notes, plain and simple (2019).")
  = Some [{| type := text; content := lit "Notes, plain and simple (2019).";
             level := None |}].
Proof.
  apply plain_text_one_run; [discriminate | reflexivity].
Defined.

End TokenFacts.

(** ** Paragraphs: the diagnostic record of the split *)

Module SplitInfoFacts.

Import Segmentation JsFacts SegmentationFacts ParagraphFacts.

Lemma matchAll_go_nil : forall pat k, pat <> [] -> matchAll_go pat [] k = [].
Proof. intros pat k H. destruct pat; [congruence|]. now destruct k. Qed.

(** Each Windows line ending makes the text one character shorter. *)
Lemma crlf_lengths : forall s k,
  length (replaceAll_go [CR; LF] [LF] s k) + length (matchAll_go [CR; LF] s k)
  + Nat.min k (length s) = length s.
Proof.
  induction s as [|c s IH]; intros k.
  - rewrite matchAll_go_nil by discriminate. cbn. lia.
  - destruct k as [|k]; cbn [replaceAll_go matchAll_go].
    + destruct (startsWith (c :: s) [CR; LF]) eqn:E.
      * pose proof (startsWith_length _ _ E) as Hl. cbn [length] in Hl.
        cbn [length Nat.sub app]. specialize (IH 1). cbn [length]. lia.
      * specialize (IH 0). cbn [length]. lia.
    + specialize (IH k). cbn [length]. lia.
Qed.

Lemma cr_length : forall s k,
  length (replaceAll_go [CR] [LF] s k) + Nat.min k (length s) = length s.
Proof.
  induction s as [|c s IH]; intros k; [cbn; lia|].
  destruct k as [|k]; cbn [replaceAll_go].
  - destruct (startsWith (c :: s) [CR]);
      cbn [length Nat.sub app]; specialize (IH 0); cbn [length]; lia.
  - specialize (IH k). cbn [length]. lia.
Qed.

Lemma normalize_length : forall text,
  length (normalizeLineEndings text) + length (matchAll text [CR; LF]) = length text.
Proof.
  intros text. unfold normalizeLineEndings, replaceAll, matchAll.
  pose proof (cr_length (replaceAll_go [CR; LF] [LF] text 0) 0) as H1.
  pose proof (crlf_lengths text 0) as H2. lia.
Qed.

Lemma single_unfold : forall c s,
  length (matchAll_go [LF] (c :: s) 0)
  = (if Ascii.eqb LF c then 1 else 0) + length (matchAll_go [LF] s 0).
Proof.
  intros c s. cbn [matchAll_go]. rewrite startsWith_single.
  destruct (Ascii.eqb LF c); reflexivity.
Qed.

(** Two line feeds for every blank line counted. *)
Lemma double_single : forall s k,
  2 * length (matchAll_go [LF; LF] s k) <= length (matchAll_go [LF] (skipn k s) 0).
Proof.
  induction s as [|c s IH]; intros k.
  - rewrite matchAll_go_nil by discriminate. cbn. lia.
  - destruct k as [|k]; [|cbn [matchAll_go skipn]; apply IH].
    cbn [skipn]. rewrite single_unfold. cbn [matchAll_go].
    destruct (startsWith (c :: s) [LF; LF]) eqn:E.
    + cbn [length Nat.sub]. specialize (IH 1).
      destruct s as [|d s']; [cbn [startsWith] in E; rewrite andb_false_r in E; discriminate|].
      cbn [startsWith] in E. apply andb_true_iff in E as [E1 E2].
      apply andb_true_iff in E2 as [E2 _].
      cbn [skipn] in IH. rewrite single_unfold, E1, E2. lia.
    + specialize (IH 0). cbn [skipn] in IH. lia.
Qed.

Lemma matchAll_includes : forall s pat,
  pat <> [] -> (includes s pat = true <-> 0 < length (matchAll s pat)).
Proof.
  intros s pat Hne. unfold includes, matchAll.
  destruct (indexOf s pat) as [i|] eqn:E.
  - rewrite (SearchFacts.matchAll_some pat s i Hne E). cbn [length]. split; [lia | reflexivity].
  - rewrite (SearchFacts.matchAll_none pat s Hne E). cbn. split; [discriminate | lia].
Qed.

(** X26.  The diagnostic record of a split is consistent: the normalized
    length is the original length less the number of Windows line endings, so
    Windows line endings are reported exactly when normalizing shortened the
    text, and only when carriage returns are reported; there are at least two
    line feeds per counted blank line; and the record of the chosen method is
    among the recorded methods, its count being the number of paragraphs
    returned. *)
Theorem split_info_consistent : forall text,
  let r := splitTextIntoParagraphs text in
  let info := splitInfo r in
  normalizedLength info + length (matchAll text [CR; LF]) = originalLength info
  /\ (hasWindowsLineEndings info = true <-> normalizedLength info < originalLength info)
  /\ (hasWindowsLineEndings info = true -> hasCarriageReturns info = true)
  /\ 2 * doubleNewlineCount info <= singleNewlineCount info
  /\ exists m,
       In m (splitMethods info)
       /\ info_name m = chosenMethod info
       /\ paragraphCount m = length (paragraphs r).
Proof.
  intros text r info. unfold info, r, splitTextIntoParagraphs.
  cbn [splitInfo paragraphs normalizedLength originalLength hasWindowsLineEndings
       hasCarriageReturns doubleNewlineCount singleNewlineCount splitMethods
       chosenMethod].
  pose proof (normalize_length text) as Hlen.
  split; [exact Hlen|]. split; [|split; [|split]].
  - rewrite (matchAll_includes text [CR; LF]) by discriminate. lia.
  - intros H. destruct (includes text [CR]) eqn:E; [reflexivity|].
    apply (includes_longer text [CR] [LF]) in E. cbn [app] in E. congruence.
  - pose proof (double_single (normalizeLineEndings text) 0) as H.
    cbn [skipn] in H. exact H.
  - exists (describe (chooseMethod (methods (normalizeLineEndings text)))).
    split; [|split; reflexivity].
    apply in_map. rewrite chooseMethod_decision. cbv zeta.
    unfold methods, methodAt. cbn [nth].
    destruct (_ && _); [destruct (manyTinyb _)|]; cbn [In]; auto.
Qed.

End SplitInfoFacts.

(** ** The search: its diagnostic entries *)

Module DiagnosticsFacts.

Import Segmentation Restructure Search JsFacts RestructureFacts SearchFacts.

Section Entries.

Variable stringify : SplitInfo -> str.
Variable files : list FileData.
Variable term nt : str.

Lemma paragraph_entries : forall file ps l found dbg count,
  exists found' dbg' count',
    fold_left (paragraphStep file term nt ps) l (Some (found, dbg, count))
    = Some (found ++ found', dbg ++ dbg', count')
    /\ map dbg_processedParagraph dbg' = found'
    /\ forallb isParagraphEntry dbg' = true.
Proof.
  intros file ps. induction l as [|i l IH]; intros found dbg count.
  - exists [], [], count. cbn. now rewrite !app_nil_r.
  - cbn [fold_left]. unfold paragraphStep at 2.
    destruct (includes (toLowerCase (nth i ps [])) nt).
    + unfold paragraphOccurrences. rewrite newRegExp_escape.
      match goal with
      | |- context [fold_left _ l (Some (?f, ?d, ?c))] =>
          destruct (IH f d c) as [found' [dbg' [count' [H1 [H2 H3]]]]]
      end.
      rewrite H1. eexists (_ :: found'), (_ :: dbg'), count'.
      split; [now rewrite <- !app_assoc|]. split.
      * cbn [map dbg_processedParagraph]. now rewrite H2.
      * cbn [forallb]. rewrite H3. unfold isParagraphEntry. cbn [dbg_paragraphIndex].
        replace (0 <? i + 1) with true by (symmetry; apply Nat.ltb_lt; lia).
        reflexivity.
    + apply IH.
Qed.

Lemma filter_all : forall (A : Type) (f : A -> bool) l,
  forallb f l = true -> filter f l = l /\ filter (fun x => negb (f x)) l = [].
Proof.
  intros A f. induction l as [|x l IH]; intros H; [now split|].
  cbn [forallb] in H. apply andb_true_iff in H as [Hx H].
  destruct (IH H) as [H1 H2]. cbn [filter]. rewrite Hx, H1, H2. now split.
Qed.

Lemma file_entries : forall results dbg fileId,
  exists rs ds,
    fileStep stringify files term nt (Some (results, dbg)) fileId
    = Some (results ++ rs, dbg ++ ds)
    /\ corresponding rs ds.
Proof.
  intros results dbg fileId. unfold fileStep.
  destruct (findFile files fileId) as [file|].
  - set (ps := paragraphs (splitTextIntoParagraphs (file_content file))).
    match goal with
    | |- context [fold_left _ ?l (Some (?f, ?d, ?c))] =>
        destruct (paragraph_entries file ps l f d c)
          as [found' [dbg' [count' [H1 [H2 H3]]]]]
    end.
    rewrite H1. cbn [app].
    eexists [_], (_ :: dbg'). split; [now rewrite <- app_assoc|].
    destruct (filter_all _ _ dbg' H3) as [F1 F2].
    unfold corresponding. cbn [filter isParagraphEntry fileDebugInfo dbg_paragraphIndex].
    cbn [Nat.ltb Nat.leb negb]. fold isParagraphEntry.
    rewrite F1, F2. cbn [map concat foundParagraphs length].
    rewrite app_nil_r. now split.
  - exists [], []. rewrite !app_nil_r. split; [reflexivity|]. now split.
Qed.

Lemma corresponding_app : forall rs1 ds1 rs2 ds2,
  corresponding rs1 ds1 -> corresponding rs2 ds2 ->
  corresponding (rs1 ++ rs2) (ds1 ++ ds2).
Proof.
  intros rs1 ds1 rs2 ds2 [A1 A2] [B1 B2]. unfold corresponding.
  rewrite !filter_app, !map_app, concat_app, !length_app, A1, A2, B1, B2.
  now split.
Qed.

Lemma files_entries : forall ids results dbg,
  exists rs ds,
    fold_left (fileStep stringify files term nt) ids (Some (results, dbg))
    = Some (results ++ rs, dbg ++ ds)
    /\ corresponding rs ds.
Proof.
  induction ids as [|fileId ids IH]; intros results dbg.
  - exists [], []. cbn. rewrite !app_nil_r. split; [reflexivity|]. now split.
  - cbn [fold_left].
    destruct (file_entries results dbg fileId) as [rs1 [ds1 [H1 C1]]].
    rewrite H1.
    destruct (IH (results ++ rs1) (dbg ++ ds1)) as [rs2 [ds2 [H2 C2]]].
    rewrite H2. exists (rs1 ++ rs2), (ds1 ++ ds2).
    split; [now rewrite <- !app_assoc|]. now apply corresponding_app.
Qed.

End Entries.

(** X29.  The diagnostic entries of a completed search correspond to its
    results: the entries made for found paragraphs (index 1 or more) carry, in
    order, exactly the found paragraphs of the results, and there is exactly
    one file-level entry (index 0) per result. *)
Theorem diagnostics_match_results : forall stringify files term ids results allDebugInfo,
  handleSearch stringify files term ids = Some (Completed results allDebugInfo) ->
  corresponding results allDebugInfo.
Proof.
  intros stringify files term ids results allDebugInfo H. unfold handleSearch in H.
  destruct (negb (truthy (trim term)) || (length ids =? 0)); [discriminate|].
  destruct (files_entries stringify files term (toLowerCase (trim term)) ids [] [])
    as [rs [ds [Hfold Hc]]].
  rewrite Hfold in H. cbn [app] in H. injection H as <- <-. exact Hc.
Qed.

Lemma diagnostics_match_results_witness :
  exists results allDebugInfo,
    handleSearch noStringify [sampleFile] (lit "a.b") [lit "doc-1"]
    = Some (Completed results allDebugInfo)
    /\ corresponding results allDebugInfo.
Proof.
  eexists. eexists. split; [vm_compute; reflexivity|].
  eapply (diagnostics_match_results noStringify [sampleFile] (lit "a.b") [lit "doc-1"]).
  vm_compute. reflexivity.
Defined.

End DiagnosticsFacts.


(** ** The PDF renderer and the page it is given *)

Module RendererChecks.

Import Markdown Pdf JsFacts MarkdownFacts PdfFacts.

Local Open Scope Q_scope.

Section Begun.

Variable pdf : JsPdf.
Variable first : PlacedLine.















End Begun.


(** *** No check of the usable width *)



End RendererChecks.


(** ** The tokenizer and the fragment without its markers *)

Module MarkerFacts.

Import Markdown JsFacts MarkdownFacts TokenFacts.

(** *** The closing marker *)

Lemma cutAt_indexOf : forall m s,
  cutAt m s
  = match indexOf s m with
    | Some n => Some (firstn n s, skipn (n + length m) s)
    | None => None
    end.
Proof.
  intros m. induction s as [|c s IH]; cbn [cutAt indexOf].
  - now destruct (startsWith [] m).
  - destruct (startsWith (c :: s) m); [reflexivity|].
    rewrite IH. now destruct (indexOf s m).
Qed.

Lemma strEq_startsWith : forall p s,
  strEq (firstn (length p) s) p = startsWith s p.
Proof.
  induction p as [|a p IH]; intros [|b s]; cbn [length firstn strEq startsWith];
    try reflexivity.
  rewrite IH. f_equal. apply Ascii.eqb_sym.
Qed.

Lemma nextIs_charAt : forall c txt i,
  nextIs c (skipn i txt) = isChar (charAt txt i) c.
Proof.
  intros c txt. induction txt as [|x txt IH]; intros [|i]; try reflexivity.
  cbn [skipn]. rewrite IH. reflexivity.
Qed.

Lemma nextIs_startsWith : forall c p s,
  nextIs c s = false -> startsWith s (c :: p) = false.
Proof.
  intros c p [|d s] H; [reflexivity|]. cbn [nextIs] in H. cbn [startsWith].
  rewrite Ascii.eqb_sym, H. reflexivity.
Qed.

Lemma charAt_beyond : forall txt n,
  length txt <= n -> charAt txt n = None.
Proof. intros txt n H. now apply nth_error_None. Qed.

Lemma prevAt_isChar : forall txt i c,
  ((i =? 0) || negb (isChar (charAt txt (i - 1)) c))
  = negb (isChar (prevAt txt i) c).
Proof.
  intros txt [|i] c; [reflexivity|].
  cbn [Nat.eqb orb prevAt]. now replace (S i - 1) with i by lia.
Qed.

(** The content before a closing marker found at [e] is empty exactly when
    [e] is zero. *)
Lemma truthy_firstn : forall p s e,
  indexOf s p = Some e -> truthy (firstn e s) = (0 <? e) /\ length (firstn e s) = e.
Proof.
  intros p s e H. apply indexOf_Some in H. destruct H as [Hlen _].
  assert (L : length (firstn e s) = e) by (apply firstn_length_exact; lia).
  split; [|exact L].
  destruct e as [|e]; [reflexivity|].
  destruct (firstn (S e) s); [discriminate | reflexivity].
Qed.

(** *** The recognisers of the loop and the constructs of the rules *)

Lemma strongRun_tryBold : forall txt i,
  strongRun (skipn i txt)
  = match tryBold txt i with
    | Some (e, next) => Some (content e, next - i)
    | None => None
    end.
Proof.
  intros txt i. unfold strongRun, tryBold, slice, sliceFrom.
  replace (i + 2 - i) with (length [STAR; STAR]) by (simpl; lia).
  rewrite strEq_startsWith.
  destruct (startsWith (skipn i txt) [STAR; STAR]); [|reflexivity].
  rewrite cutAt_indexOf, skipn_skipn, (Nat.add_comm 2 i).
  destruct (indexOf (skipn (i + 2) txt) [STAR; STAR]) as [e|] eqn:E; [|reflexivity].
  destruct (truthy_firstn _ _ _ E) as [Ht Hl].
  rewrite Nat.sub_0_r. cbn [skipn]. rewrite Ht.
  destruct (0 <? e); [|reflexivity].
  cbn [content]. do 2 f_equal. lia.
Qed.

Lemma codeRun_tryCode : forall txt i,
  codeRun (skipn i txt)
  = match tryCode txt i with
    | Some (e, next) => Some (content e, next - i)
    | None => None
    end.
Proof.
  intros txt i. unfold codeRun, tryCode, slice, sliceFrom.
  rewrite nextIs_charAt.
  destruct (isChar (charAt txt i) TICK); [|reflexivity].
  rewrite cutAt_indexOf, skipn_skipn, (Nat.add_comm 1 i).
  destruct (indexOf (skipn (i + 1) txt) [TICK]) as [e|] eqn:E; [|reflexivity].
  destruct (truthy_firstn _ _ _ E) as [Ht Hl].
  rewrite Nat.sub_0_r. cbn [skipn]. rewrite Ht.
  destruct (0 <? e); [|reflexivity].
  cbn [content]. do 2 f_equal. lia.
Qed.

Lemma emphasisRun_tryItalic : forall txt i,
  emphasisRun (prevAt txt i) (skipn i txt)
  = match tryItalic txt i with
    | Some (e, next) => Some (content e, next - i)
    | None => None
    end.
Proof.
  intros txt i. unfold emphasisRun, tryItalic, slice, sliceFrom.
  rewrite prevAt_isChar, skipn_skipn, !nextIs_charAt, (Nat.add_comm 1 i).
  destruct (isChar (charAt txt i) STAR && negb (isChar (charAt txt (i + 1)) STAR)
            && negb (isChar (prevAt txt i) STAR)); [|reflexivity].
  rewrite cutAt_indexOf.
  destruct (indexOf (skipn (i + 1) txt) [STAR]) as [e|] eqn:E; [|reflexivity].
  destruct (truthy_firstn _ _ _ E) as [Ht Hl].
  rewrite Nat.sub_0_r. cbn [skipn]. rewrite Ht.
  destruct (0 <? e); [|reflexivity]. cbn [andb].
  rewrite skipn_skipn, nextIs_charAt.
  replace (e + length [STAR] + (i + 1)) with (i + 2 + e) by (simpl; lia).
  destruct (length txt <=? i + 2 + e) eqn:L.
  - apply Nat.leb_le in L. rewrite (charAt_beyond _ _ L). cbn [isChar negb orb].
    cbn [content]. do 2 f_equal. lia.
  - cbn [orb]. destruct (negb (isChar (charAt txt (i + 2 + e)) STAR)); [|reflexivity].
    cbn [content]. do 2 f_equal. lia.
Qed.

(** *** The heading pattern *)

Lemma firstDown_ext : forall (A : Type) (f g : nat -> option A) lo n,
  (forall j, lo <= j <= n -> f j = g j) -> firstDown lo n f = firstDown lo n g.
Proof.
  intros A f g lo. induction n as [|n IH]; intros H; cbn [firstDown].
  - destruct (0 <? lo) eqn:E; [reflexivity|]. apply Nat.ltb_ge in E.
    rewrite (H 0) by lia. reflexivity.
  - destruct (S n <? lo) eqn:E; [reflexivity|]. apply Nat.ltb_ge in E.
    rewrite (H (S n)) by lia. destruct (g (S n)); [reflexivity|].
    apply IH. intros j Hj. apply H. lia.
Qed.

Lemma firstDown_none : forall (A : Type) (f : nat -> option A) lo n,
  (forall j, lo <= j <= n -> f j = None) -> firstDown lo n f = None.
Proof.
  intros A f lo n H. destruct (firstDown lo n f) as [r|] eqn:E; [|reflexivity].
  apply firstDown_Some in E. destruct E as [j [Hj E]]. rewrite H in E by exact Hj.
  discriminate.
Qed.

(** The longest extent is tried first, the shortest last. *)
Lemma firstDown_shift : forall (A : Type) (f : nat -> option A) n,
  firstDown 1 (S n) f
  = match firstDown 1 n (fun j => f (S j)) with
    | Some r => Some r
    | None => f 1
    end.
Proof.
  intros A f. induction n as [|n IH].
  - cbn [firstDown Nat.ltb Nat.leb]. now destruct (f 1).
  - change (firstDown 1 (S (S n)) f)
      with (match f (S (S n)) with
            | Some r => Some r
            | None => firstDown 1 (S n) f
            end).
    change (firstDown 1 (S n) (fun j => f (S j)))
      with (match f (S (S n)) with
            | Some r => Some r
            | None => firstDown 1 n (fun j => f (S j))
            end).
    destruct (f (S (S n))); [reflexivity | exact IH].
Qed.

Lemma firstUp_last : forall (A : Type) (f : nat -> option A) count n,
  (forall j, n <= j < n + count -> f j = None) ->
  firstUp n (S count) f = f (n + count).
Proof.
  intros A f. induction count as [|count IH]; intros n H.
  - cbn [firstUp]. rewrite Nat.add_0_r. now destruct (f n).
  - change (firstUp n (S (S count)) f)
      with (match f n with
            | Some r => Some r
            | None => firstUp (S n) (S count) f
            end).
    rewrite (H n) by lia. rewrite IH.
    + f_equal. lia.
    + intros j Hj. apply H. lia.
Qed.

(** Inside the longest prefix that [f] accepts. *)
Lemma takeWhile_inside : forall f (s : str) n,
  n < length (takeWhile f s) ->
  exists c rest, skipn n s = c :: rest /\ f c = true.
Proof.
  intros f. induction s as [|x s IH]; intros n H; cbn [takeWhile] in H.
  - simpl in H. lia.
  - destruct (f x) eqn:E; [|simpl in H; lia].
    destruct n as [|n].
    + now exists x, s.
    + cbn [skipn]. apply IH. simpl in H. lia.
Qed.

Lemma takeWhile_firstn : forall f (s : str),
  firstn (length (takeWhile f s)) s = takeWhile f s.
Proof.
  intros f. induction s as [|x s IH]; [reflexivity|].
  cbn [takeWhile]. destruct (f x); [|reflexivity].
  cbn [length firstn]. now rewrite IH.
Qed.

Lemma takeWhile_length : forall f (s : str),
  length (takeWhile f s) <= length s.
Proof.
  intros f. induction s as [|x s IH]; [reflexivity|].
  cbn [takeWhile]. destruct (f x); simpl; lia.
Qed.

(** The lazy [.+?] before [(?=\n|$)] stops at the end of the line, and
    nowhere before it. *)
Lemma dots_headingText : forall (A : Type) (g : nat -> A) a,
  firstUp 1 (length (takeWhile notLineTerminator a))
    (fun n => if atLineEnd (skipn n a) then Some (g n) else None)
  = match headingText a with
    | Some t => Some (g (length t))
    | None => None
    end.
Proof.
  intros A g a. unfold headingText.
  destruct (takeWhile notLineTerminator a) as [|x t] eqn:E.
  - reflexivity.
  - cbn [truthy andb length]. rewrite firstUp_last.
    + cbn [Nat.add]. now destruct (atLineEnd (skipn (S (length t)) a)).
    + intros j Hj.
      destruct (takeWhile_inside notLineTerminator a j) as [c [rest [Hs Hc]]].
      { rewrite E. simpl. lia. }
      rewrite Hs. cbn [atLineEnd].
      destruct (Ascii.eqb c LF) eqn:Ec; [|reflexivity].
      apply Ascii.eqb_eq in Ec. subst c.
      rewrite lineFeed_is_terminator in Hc. discriminate.
Qed.

Lemma headingText_length : forall a t,
  headingText a = Some t -> firstn (length t) a = t /\ length t <= length a.
Proof.
  intros a t H. unfold headingText in H.
  destruct (truthy (takeWhile notLineTerminator a)
            && atLineEnd (skipn (length (takeWhile notLineTerminator a)) a));
    [|discriminate].
  injection H as <-. split; [apply takeWhile_firstn | apply takeWhile_length].
Qed.

(** The greedy [\s+] gives characters back until a heading text follows. *)
Lemma spaces_afterHashes : forall (A : Type) s (B : nat -> str -> A),
  firstDown 1 (length (takeWhile isWhiteSpace s))
    (fun j => match headingText (skipn j s) with
              | Some t => Some (B j t)
              | None => None
              end)
  = match afterHashes s with
    | Some (j, t) => Some (B j t)
    | None => None
    end.
Proof.
  intros A. induction s as [|c s IH]; intros B; [reflexivity|].
  cbn [takeWhile afterHashes]. destruct (isWhiteSpace c); [|reflexivity].
  cbn [length]. rewrite firstDown_shift. cbn [skipn].
  rewrite (IH (fun j => B (S j))).
  destruct (afterHashes s) as [[j t]|]; [reflexivity|].
  now destruct (headingText s).
Qed.

Lemma afterHashes_length : forall s j t,
  afterHashes s = Some (j, t) ->
  1 <= j /\ j + length t <= length s /\ firstn (length t) (skipn j s) = t.
Proof.
  induction s as [|c s IH]; intros j t H; cbn [afterHashes] in H; [discriminate|].
  destruct (isWhiteSpace c); [|discriminate].
  destruct (afterHashes s) as [[j' t']|] eqn:E.
  - injection H as <- <-. destruct (IH j' t' eq_refl) as [H1 [H2 H3]].
    cbn [skipn length]. repeat split; try lia. exact H3.
  - destruct (headingText s) as [t'|] eqn:Et; [|discriminate].
    injection H as <- <-. apply headingText_length in Et. destruct Et as [H1 H2].
    cbn [skipn length]. repeat split; try lia. exact H1.
Qed.

(** The pattern [/^(#{1,6})\s+(.+?)(?=\n|$)/] and the heading of the rules. *)
Lemma headerMatch_afterHashes : forall s,
  headerMatch s
  = let k := length (takeWhile (Ascii.eqb HASH) s) in
    if (1 <=? k) && (k <=? 6)
    then match afterHashes (skipn k s) with
         | Some (j, t) =>
             Some {| matched := firstn (k + j + length t) s;
                     hashes := firstn k s;
                     title := t |}
         | None => None
         end
    else None.
Proof.
  intros s. unfold headerMatch.
  set (h := length (takeWhile (Ascii.eqb HASH) s)).
  set (F := fun k =>
              match afterHashes (skipn k s) with
              | Some (j, t) =>
                  Some {| matched := firstn (k + j + length t) s;
                          hashes := firstn k s;
                          title := t |}
              | None => None
              end).
  rewrite (firstDown_ext _ _ F).
  - cbv zeta. fold (F h).
    assert (Hbelow : forall k, k < h -> F k = None).
    { intros k Hk. unfold F.
      destruct (takeWhile_inside (Ascii.eqb HASH) s k Hk) as [c [rest [Hs Hc]]].
      apply Ascii.eqb_eq in Hc. subst c. rewrite Hs. reflexivity. }
    destruct (1 <=? h) eqn:H1; cbn [andb].
    + apply Nat.leb_le in H1. destruct (h <=? 6) eqn:H6.
      * apply Nat.leb_le in H6. rewrite Nat.min_r by exact H6.
        destruct (F h) as [r|] eqn:Fh.
        -- now apply firstDown_first.
        -- apply firstDown_none. intros j Hj.
           destruct (Nat.eq_dec j h) as [-> | Hne]; [exact Fh | apply Hbelow; lia].
      * apply Nat.leb_gt in H6. apply firstDown_none. intros j Hj.
        apply Hbelow. lia.
    + apply Nat.leb_gt in H1. apply firstDown_none. intros j Hj. lia.
  - intros k Hk. unfold F. cbv beta zeta.
    rewrite <- (spaces_afterHashes _ (skipn k s)
                  (fun j t => {| matched := firstn (k + j + length t) s;
                                 hashes := firstn k s;
                                 title := t |})).
    apply firstDown_ext. intros j Hj.
    rewrite dots_headingText.
    destruct (headingText (skipn j (skipn k s))) as [t|] eqn:Et; [|reflexivity].
    apply headingText_length in Et. destruct Et as [Et _]. now rewrite Et.
Qed.

Lemma takeWhile_head : forall f (s : str),
  match s with [] => True | c :: _ => f c = false end ->
  takeWhile f s = [].
Proof. intros f [|c s] H; [reflexivity|]. cbn [takeWhile]. now rewrite H. Qed.

Lemma prevAt_lineStart : forall txt i,
  isChar (charAt txt i) HASH = true ->
  ((i =? 0) || isChar (charAt txt (i - 1)) LF) = lineStart (prevAt txt i).
Proof.
  intros txt [|i] H; [reflexivity|].
  cbn [Nat.eqb orb prevAt]. replace (S i - 1) with i by lia.
  destruct (charAt txt i) as [c|] eqn:E; [reflexivity|].
  apply charAt_lt in H. unfold charAt in E. apply nth_error_None in E. lia.
Qed.

Lemma headingRun_tryHeader : forall txt i,
  headingRun (prevAt txt i) (skipn i txt)
  = match tryHeader txt i with
    | Some (e, next) => Some (content e, next - i)
    | None => None
    end.
Proof.
  intros txt i. unfold headingRun, tryHeader, sliceFrom.
  destruct (isChar (charAt txt i) HASH) eqn:Eh.
  - rewrite (prevAt_lineStart _ _ Eh). cbn [andb].
    rewrite headerMatch_afterHashes. cbv zeta.
    set (k := length (takeWhile (Ascii.eqb HASH) (skipn i txt))).
    destruct (lineStart (prevAt txt i)); cbn [andb]; [|reflexivity].
    destruct ((1 <=? k) && (k <=? 6)); [|reflexivity].
    destruct (afterHashes (skipn k (skipn i txt))) as [[j t]|] eqn:E; [|reflexivity].
    cbn [content matched]. do 2 f_equal.
    apply afterHashes_length in E. destruct E as [_ [E _]].
    rewrite length_skipn in E. pose proof (takeWhile_length (Ascii.eqb HASH) (skipn i txt)).
    fold k in H. rewrite firstn_length_exact by lia. lia.
  - cbn [andb]. rewrite takeWhile_head.
    + cbn [length Nat.leb andb]. now rewrite andb_false_r.
    + rewrite <- nextIs_charAt in Eh. destruct (skipn i txt) as [|c rest]; [exact I|].
      cbn [nextIs] in Eh. now rewrite Ascii.eqb_sym.
Qed.

(** *** One scan position *)

(** At every cursor the construct of the rules is the one the loop
    recognises: same content, same number of characters passed. *)
Lemma constructAt_step : forall txt i,
  constructAt (prevAt txt i) (skipn i txt)
  = match orElse (tryHeader txt i)
          (orElse (tryBold txt i)
          (orElse (tryItalic txt i) (tryCode txt i))) with
    | Some (e, next) => Some (content e, next - i)
    | None => None
    end.
Proof.
  intros txt i. unfold constructAt, orElse.
  rewrite headingRun_tryHeader, strongRun_tryBold, emphasisRun_tryItalic,
    codeRun_tryCode.
  destruct (tryHeader txt i) as [[e n]|]; [reflexivity|].
  destruct (tryBold txt i) as [[e n]|]; [reflexivity|].
  destruct (tryItalic txt i) as [[e n]|]; reflexivity.
Qed.

(** Where the look-ahead of the plain-text branch does not stop, no
    construct stands. *)
Lemma constructAt_plain : forall txt j,
  0 < j -> startsMarkdown txt j = false ->
  constructAt (prevAt txt j) (skipn j txt) = None.
Proof.
  intros txt j Hj H. unfold startsMarkdown in H.
  assert (Hp : (if 0 <? j then charAt txt (j - 1) else None) = prevAt txt j).
  { destruct j as [|j]; [lia|]. cbn [Nat.ltb Nat.leb prevAt].
    now replace (S j - 1) with j by lia. }
  rewrite Hp in H. clear Hp.
  apply orb_false_iff in H. destruct H as [H Hh].
  apply orb_false_iff in H. destruct H as [Hs Ht].
  rewrite <- !nextIs_charAt in *.
  unfold constructAt.
  assert (E1 : headingRun (prevAt txt j) (skipn j txt) = None).
  { unfold headingRun.
    destruct (nextIs HASH (skipn j txt)) eqn:En.
    - cbn [andb] in Hh.
      assert (Hl : lineStart (prevAt txt j) = false).
      { unfold lineStart. destruct (prevAt txt j) as [c|] eqn:Ep; [exact Hh|].
        destruct j as [|j]; [lia|]. cbn [prevAt] in Ep.
        unfold charAt in Ep. apply nth_error_None in Ep.
        rewrite skipn_all2 in En by lia. discriminate. }
      rewrite Hl. reflexivity.
    - rewrite takeWhile_head.
      + cbn [length Nat.leb andb]. now rewrite andb_false_r.
      + destruct (skipn j txt) as [|c rest]; [exact I|].
        cbn [nextIs] in En. now rewrite Ascii.eqb_sym. }
  assert (E2 : strongRun (skipn j txt) = None).
  { unfold strongRun. now rewrite (nextIs_startsWith _ _ _ Hs). }
  assert (E3 : emphasisRun (prevAt txt j) (skipn j txt) = None).
  { unfold emphasisRun. now rewrite Hs. }
  assert (E4 : codeRun (skipn j txt) = None).
  { unfold codeRun. now rewrite Ht. }
  now rewrite E1, E2, E3, E4.
Qed.

(** *** The walk *)

Lemma skipn_cons : forall (txt : str) i,
  i < length txt ->
  exists c, charAt txt i = Some c /\ skipn i txt = c :: skipn (S i) txt.
Proof.
  induction txt as [|x txt IH]; intros [|i] H; simpl in H; try lia.
  - now exists x.
  - destruct (IH i) as [c [H1 H2]]; [lia|]. now exists c.
Qed.

(** Passing over the characters of a construct. *)
Lemma strip_passes : forall txt k i p,
  i + k <= length txt ->
  (k = 0 -> p = prevAt txt i) ->
  strip k p (skipn i txt) = strip 0 (prevAt txt (i + k)) (skipn (i + k) txt).
Proof.
  intros txt. induction k as [|k IH]; intros i p Hlen Hp.
  - rewrite Nat.add_0_r, Hp; reflexivity.
  - destruct (skipn_cons txt i) as [c [Hc Hs]]; [lia|].
    rewrite Hs. cbn [strip]. rewrite (IH (S i) (Some c)).
    + now replace (S i + k) with (i + S k) by lia.
    + lia.
    + intros _. cbn [prevAt]. now rewrite Hc.
Qed.

(** A construct shows its content and the walk goes on behind it. *)
Lemma strip_construct : forall txt i shown width,
  constructAt (prevAt txt i) (skipn i txt) = Some (shown, width) ->
  1 <= width -> i + width <= length txt ->
  strip 0 (prevAt txt i) (skipn i txt)
  = shown ++ strip 0 (prevAt txt (i + width)) (skipn (i + width) txt).
Proof.
  intros txt i shown width H Hw Hlen.
  destruct (skipn_cons txt i) as [c [Hc Hs]]; [lia|].
  rewrite Hs in *. cbn [strip]. rewrite H. f_equal.
  rewrite (strip_passes txt (width - 1) (S i) (Some c)).
  - now replace (S i + (width - 1)) with (i + width) by lia.
  - lia.
  - intros _. cbn [prevAt]. now rewrite Hc.
Qed.

(** Characters where no construct stands are kept. *)
Lemma strip_plain : forall txt n i,
  i + n <= length txt ->
  (forall j, i <= j < i + n -> constructAt (prevAt txt j) (skipn j txt) = None) ->
  strip 0 (prevAt txt i) (skipn i txt)
  = firstn n (skipn i txt) ++ strip 0 (prevAt txt (i + n)) (skipn (i + n) txt).
Proof.
  intros txt. induction n as [|n IH]; intros i Hlen H.
  - now rewrite Nat.add_0_r.
  - destruct (skipn_cons txt i) as [c [Hc Hs]]; [lia|].
    pose proof (H i ltac:(lia)) as Hi.
    rewrite Hs in *. cbn [strip firstn]. rewrite Hi. cbn [app]. f_equal.
    replace (Some c) with (prevAt txt (S i)) by (cbn [prevAt]; exact Hc).
    rewrite (IH (S i)).
    + now replace (S i + n) with (i + S n) by lia.
    + lia.
    + intros j Hj. apply H. lia.
Qed.

(** One iteration of the loop against the walk. *)
Lemma step_strip : forall txt i pushed next,
  i < length txt ->
  step txt i = (pushed, next) ->
  strip 0 (prevAt txt i) (skipn i txt)
  = concat (map content pushed) ++ strip 0 (prevAt txt next) (skipn next txt).
Proof.
  intros txt i pushed next Hi H.
  pose proof (step_progress txt i Hi) as Hprog. rewrite H in Hprog. cbn [snd] in Hprog.
  pose proof (constructAt_step txt i) as Hc.
  unfold step in H.
  destruct (orElse (tryHeader txt i)
              (orElse (tryBold txt i) (orElse (tryItalic txt i) (tryCode txt i))))
    as [[e n]|].
  - injection H as <- <-. cbn [map concat]. rewrite app_nil_r.
    rewrite (strip_construct txt i (content e) (n - i) Hc) by lia.
    now replace (i + (n - i)) with n by lia.
  - unfold plainText in H. injection H as <- <-.
    set (next := nextMarkdownIndex txt i) in *.
    rewrite (strip_plain txt (next - i) i).
    + replace (i + (next - i)) with next by lia. f_equal.
      fold (slice txt i next).
      destruct (slice txt i next) as [|x t]; cbn [truthy map concat content];
        now rewrite ?app_nil_r.
    + lia.
    + intros j Hj. destruct (Nat.eq_dec j i) as [-> | Hne]; [exact Hc|].
      apply constructAt_plain; [lia|].
      apply (nextMarkdownIndex_between txt i). fold next. lia.
Qed.

(** The loop against the walk. *)
Lemma parseLoop_strip : forall fuel txt i els r,
  i <= length txt ->
  parseLoop fuel txt i els = Some r ->
  concat (map content r)
  = concat (map content els) ++ strip 0 (prevAt txt i) (skipn i txt).
Proof.
  induction fuel as [|fuel IH]; intros txt i els r Hi H; cbn [parseLoop] in H.
  - destruct (length txt <=? i) eqn:E; [|discriminate].
    apply Nat.leb_le in E. injection H as <-.
    rewrite skipn_all2 by lia. cbn [strip]. now rewrite app_nil_r.
  - destruct (length txt <=? i) eqn:E.
    + apply Nat.leb_le in E. injection H as <-.
      rewrite skipn_all2 by lia. cbn [strip]. now rewrite app_nil_r.
    + apply Nat.leb_gt in E.
      pose proof (step_progress txt i E) as Hprog.
      destruct (step txt i) as [pushed next] eqn:Es. cbn [snd] in Hprog.
      apply IH in H; [|lia].
      rewrite H, map_app, concat_app, <- app_assoc. f_equal.
      symmetry. now apply step_strip.
Qed.

(** *** The contents of the runs *)

(** C5, as the code has it.  For every fragment the tokenizer returns a
    sequence of runs; the fragment is, in order, the sources of these runs,
    each a content between the markers of its kind: none for plain text,
    [**] or [*] or a backtick on both sides, and before a heading its [#]
    characters with the white space after them, whatever it is made of:
    spaces, tabs, line breaks.  The contents of the runs, put together in
    order, are the fragment with the markers of its constructs removed, as
    the walk over the fragment removes them: where the pattern of a heading,
    a strong, an emphasis or a code run stands at a scan position its
    markers go and its content stays, and every other character stays. *)
Theorem contents_without_markers : forall txt,
  exists els ps,
    parseMarkdown txt = Some els
    /\ Forall2 markersOf els ps
    /\ sourceOf ps = txt
    /\ concat (map content els) = visibleOf ps
    /\ concat (map content els) = withoutMarkers txt.
Proof.
  intros txt.
  destruct (parseLoop_spec (length txt) txt 0 [] []) as [els [ps [H1 [H2 H3]]]];
    try lia; try constructor; try reflexivity.
  exists els, ps. repeat split; try assumption.
  - unfold visibleOf. now rewrite (markers_contents els ps H2).
  - apply (parseLoop_strip (length txt) txt 0 [] els); [lia | exact H1].
Qed.

(** The scenario of the specification, walked. *)
Lemma scenario_without_markers :
  withoutMarkers (lit "**bold** and *italic* and `code`")
  = lit "bold and italic and code".
Proof. reflexivity. Qed.

(** An unfinished marker stays, and so does a [#] that is not at a line
    start. *)
Lemma unfinished_markers_stay :
  withoutMarkers (lit "a # b **c") = lit "a # b **c".
Proof. reflexivity. Qed.

(** C5, as stated, fails.  The fragment [intro<LF>#<LF>foo] holds no marker
    of the specification: no emphasis character, no backtick and no heading
    site, since a line feed and not a space follows its [#].  With its
    markers removed it is therefore itself.  The tokenizer takes the [#] and
    the line feed after it for the marker of a heading [foo], and the
    contents of its runs are [intro<LF>foo]. *)
Lemma line_feed_after_hashes_dropped :
  let txt := lit "intro" ++ [LF] ++ lit "#" ++ [LF] ++ lit "foo" in
  let els := [ {| type := text; content := lit "intro" ++ [LF]; level := None |};
               {| type := header; content := lit "foo"; level := Some 1 |} ] in
  noInlineMarker txt = true
  /\ ~ specHeadingSite txt
  /\ parseMarkdown txt = Some els
  /\ concat (map content els) = lit "intro" ++ [LF] ++ lit "foo"
  /\ concat (map content els) <> txt.
Proof.
  intros txt els. split; [reflexivity|]. split; [|split; [reflexivity|split]].
  - intros [i [k [ttl [_ [_ [_ [_ [_ [_ [rest [H _]]]]]]]]]]].
    assert (Hin : In SP (skipn i txt)).
    { rewrite H. apply in_or_app. right. now left. }
    assert (Hall : forallb (fun c => negb (Ascii.eqb c SP)) txt = true)
      by reflexivity.
    rewrite forallb_forall in Hall.
    assert (Hin' : In SP txt).
    { rewrite <- (firstn_skipn i txt). apply in_or_app. now right. }
    specialize (Hall SP Hin'). discriminate.
  - reflexivity.
  - discriminate.
Qed.

End MarkerFacts.
